(** * Email forwarding worker: destination resolution and failover forwarding

  A shallow embedding of [src/worker.js] (the [FIXED] helpers, the
  [DEFAULTS] implementation methods and the [email] handler) together with
  the properties its specification states about it.

  Strings are sequences of code units in the range U+0000..U+00FF
  ([Stdlib]'s [string]); within that range [toLowerCase], [trim] and the
  regular expression [/^[^A-Z0-9]/i] are modelled exactly. *)

From Stdlib Require Import ZArith Lia Bool List Ascii String.
From stdpp Require Import base option list strings gmap.

Import ListNotations.
Local Open Scope string_scope.
Local Open Scope Z_scope.
Local Open Scope list_scope.

(** ** JavaScript string primitives *)

Module JS.

(** [String.prototype.toLowerCase], one code unit at a time: the upper-case
    ASCII letters, and the upper-case Latin-1 letters U+00C0..U+00DE except
    the multiplication sign U+00D7, move 32 places up. *)
Definition toLowerChar (c : ascii) : ascii :=
  let n := nat_of_ascii c in
  if ((65 <=? n) && (n <=? 90))%nat
     || ((192 <=? n) && (n <=? 222) && negb (n =? 215))%nat
  then ascii_of_nat (n + 32)
  else c.

Fixpoint toLowerCase (s : string) : string :=
  match s with
  | EmptyString => EmptyString
  | String c s' => String (toLowerChar c) (toLowerCase s')
  end.

(** White space and line terminators removed by [String.prototype.trim]:
    TAB, LF, VT, FF, CR, SPACE and NO-BREAK SPACE. *)
Definition isWhiteSpace (c : ascii) : bool :=
  let n := nat_of_ascii c in
  ((9 <=? n) && (n <=? 13) || (n =? 32) || (n =? 160))%nat.

Fixpoint trimStart (s : string) : string :=
  match s with
  | EmptyString => EmptyString
  | String c s' => if isWhiteSpace c then trimStart s' else s
  end.

Fixpoint trimEnd (s : string) : string :=
  match s with
  | EmptyString => EmptyString
  | String c s' =>
      match trimEnd s' with
      | EmptyString => if isWhiteSpace c then EmptyString else String c EmptyString
      | t => String c t
      end
  end.

Definition trim (s : string) : string := trimEnd (trimStart s).

(** [s.startsWith(p)] *)
Definition startsWith (s p : string) : bool := String.prefix p s.

(** [s.indexOf(sep)]: the least position at which [sep] occurs in [s],
    or [-1]. *)
Fixpoint indexOfFrom (sep s : string) (i : Z) {struct s} : Z :=
  if String.prefix sep s then i
  else match s with
       | EmptyString => -1
       | String _ s' => indexOfFrom sep s' (i + 1)
       end.

Definition indexOf (s sep : string) : Z := indexOfFrom sep s 0.

(** [s.includes(sub)] *)
Definition includes (s sub : string) : bool := 0 <=? indexOf s sub.

(** [s.slice(start, end)] and [s.slice(start)], with the relative indexing
    of negative arguments and the clamping JavaScript applies. *)
Definition relativeIndex (len i : Z) : Z :=
  if i <? 0 then Z.max (len + i) 0 else Z.min i len.

Definition slice (s : string) (start : Z) (stop : option Z) : string :=
  let len := Z.of_nat (String.length s) in
  let from := relativeIndex len start in
  let to := match stop with Some e => relativeIndex len e | None => len end in
  String.substring (Z.to_nat from) (Z.to_nat (Z.max (to - from) 0)) s.

(** [s.split(sep)] for a string separator.  An empty separator splits into
    code units (and the empty string into no piece at all); otherwise the
    occurrences of [sep] are consumed from left to right without overlap.
    [skip] counts the code units of a separator still to be passed over and
    [cur] is the piece being collected. *)
Fixpoint splitFrom (sep s : string) (skip : nat) (cur : string) {struct s}
  : list string :=
  match s with
  | EmptyString => [cur]
  | String c s' =>
      match skip with
      | S k => splitFrom sep s' k cur
      | O =>
          if String.prefix sep s
          then cur :: splitFrom sep s' (String.length sep - 1) EmptyString
          else splitFrom sep s' O (cur +:+ String c EmptyString)
      end
  end.

Definition split (s sep : string) : list string :=
  match sep with
  | EmptyString => (fun c => String c EmptyString) <$> list_ascii_of_string s
  | _ => splitFrom sep s O EmptyString
  end.

(** [array.includes(x)] on an array of strings. *)
Definition arrayIncludes (l : list string) (x : string) : bool :=
  existsb (String.eqb x) l.

(** [array.at(i)] for a non-negative index. *)
Definition at_ {A} (l : list A) (i : nat) : option A := l !! i.

(** [array.join(sep)] *)
Fixpoint join (sep : string) (l : list string) : string :=
  match l with
  | [] => EmptyString
  | [x] => x
  | x :: rest => x +:+ sep +:+ join sep rest
  end.

End JS.

(** ** Thrown values, events and asynchronous computations *)

(** What the worker can throw or catch: [Error] objects (a transport failure
    is one), the [SyntaxError] of a pattern [RegExp] refuses, a [TypeError],
    the bare string [validateCustomHeader] throws, and the worker's own
    [RecoverableForwardError], which carries the errors it aggregates.  A
    thrown [null] or [undefined] is outside this type: the transports of the
    development reject with values that have properties, and the module
    [AnyRejection] below embeds [forwardToPrimaryDestination] for the
    others. *)
#[warnings="-register-all"]
Inductive Exception : Type :=
| Error (message : string)
| SyntaxError (message : string)
| TypeError (message : string)
| ThrownString (text : string)
| RecoverableForwardError (errors : list Exception).

(** [FIXED.RECOVERABLE_FORWARD_EXCEPTION_MESSAGE_PREFIX], the message prefix
    of the exception the worker throws. *)
Definition RECOVERABLE_FORWARD_EXCEPTION_MESSAGE_PREFIX : string := "forwarding error".

(** The double quote, as a one-unit string. *)
Definition quote : string := String (ascii_of_nat 34) EmptyString.

(** [error.message]: [None] stands for [undefined], which is what a thrown
    string has there.  The message of a [RecoverableForwardError] is the one
    its constructor passes to [super]. *)
Fixpoint errorMessage (e : Exception) : option string :=
  match e with
  | Error m | SyntaxError m | TypeError m => Some m
  | ThrownString _ => None
  | RecoverableForwardError errors =>
      Some (RECOVERABLE_FORWARD_EXCEPTION_MESSAGE_PREFIX +:+ ": (" +:+
            JS.join ", "
              (List.map (fun e' =>
                 quote +:+ match errorMessage e' with
                           | Some m => m
                           | None => "undefined"
                           end +:+ quote) errors)
            +:+ ")")
  end.

(** [regexp.test(x)] converts its argument to a string first. *)
Definition testMessage (regexp : string -> bool) (m : option string) : bool :=
  regexp (match m with Some s => s | None => "undefined" end).

(** A [Headers] object with one header: the name and the value it was built
    from. *)
Definition Headers : Type := string * string.

(** How one [await message.forward(address, headers)] settles. *)
Inductive Settled : Type :=
| Resolved
| Rejected (error : Exception).

(** The effects of one invocation that the message's owner observes. *)
Inductive Event : Type :=
| EvForward (address : string) (headers : Headers) (outcome : Settled)
| EvSetReject (reason : string).

(** The behaviour of [message.forward] during one invocation: how the call
    settles, given what has happened so far.  It is arbitrary and may depend
    on the whole history (as a mock answering differently at each call does). *)
Definition Transport : Type := list Event -> string -> Headers -> Settled.

(** The inbound message: its recipient and its forwarding capability;
    [setReject] only leaves an event. *)
Record Message : Type := {
  to : string;
  transport : Transport
}.

Inductive Completion (A : Type) : Type :=
| Normal (a : A)
| Throw (e : Exception).
Arguments Normal {A} a.
Arguments Throw {A} e.

(** An [async] computation: it extends the history of events and either
    returns or throws. *)
Definition Async (A : Type) : Type := list Event -> Completion A * list Event.

Definition ret {A} (a : A) : Async A := fun h => (Normal a, h).

Definition throw {A} (e : Exception) : Async A := fun h => (Throw e, h).

Definition bind {A B} (m : Async A) (k : A -> Async B) : Async B :=
  fun h =>
    match m h with
    | (Normal a, h') => k a h'
    | (Throw e, h') => (Throw e, h')
    end.

(** [try { body } catch (error) { handler }] *)
Definition tryCatch {A} (body : Async A) (handler : Exception -> Async A) : Async A :=
  fun h =>
    match body h with
    | (Normal a, h') => (Normal a, h')
    | (Throw e, h') => handler e h'
    end.

Declare Scope async_scope.
Delimit Scope async_scope with async.
Notation "x <- m ;; k" := (bind m (fun x => k))
  (at level 100, m at next level, right associativity) : async_scope.
Notation "m ;;; k" := (bind m (fun _ => k))
  (at level 100, right associativity) : async_scope.

(** [await message.forward(address, headers)] *)
Definition forward (message : Message) (address : string) (headers : Headers)
  : Async unit :=
  fun h =>
    let outcome := transport message h address headers in
    (match outcome with Resolved => Normal tt | Rejected e => Throw e end,
     (h ++ [EvForward address headers outcome])%list).

(** [message.setReject(reason)] *)
Definition setReject (reason : string) : Async unit :=
  fun h => (Normal tt, (h ++ [EvSetReject reason])%list).

(** [await Promise.all(promises)]: every computation runs to its end, and the
    whole throws what the first one to fail threw.  The computations are run
    here one after the other in index order, so the history lists the
    attempts primary by primary.  The worker starts every primary before any
    attempt settles: there the attempts of different primaries interleave (the
    first attempt of each primary comes before the second attempt of any),
    while results and errors are still collected in index order.  The
    properties of a compound forward and of the handler are therefore stated
    up to that order: they speak of which attempts were made and how they
    settled, not of the place of an attempt of one primary relative to an
    attempt of another. *)
Fixpoint promiseAll {A} (promises : list (Async A)) : Async (list A) :=
  match promises with
  | [] => ret []
  | p :: rest =>
      fun h =>
        match p h with
        | (c, h1) =>
            match promiseAll rest h1 with
            | (cs, h2) =>
                (match c, cs with
                 | Throw e, _ => Throw e
                 | Normal _, Throw e => Throw e
                 | Normal a, Normal l => Normal (a :: l)
                 end, h2)
            end
        end
  end.

(** ** FIXED *)

Module FIXED.

Definition isAlphanumeric (c : ascii) : bool :=
  let n := nat_of_ascii c in
  ((48 <=? n) && (n <=? 57) || (65 <=? n) && (n <=? 90) || (97 <=? n) && (n <=? 122))%nat.

(** [/^[^A-Z0-9]/i.test(s)]: [s] starts with a code unit that is no letter
    and no digit. *)
Definition startsWithNonAlphanumericRegExp (s : string) : bool :=
  match s with
  | EmptyString => false
  | String c _ => negb (isAlphanumeric c)
  end.

(** The [test] of a prepend condition is a string or a regular expression. *)
Inductive PrependTest : Type :=
| TestString (prefix : string)
| TestRegExp (regexp : string -> bool).

Record PrependCondition : Type := {
  cond_test : PrependTest;
  cond_prepend : string
}.

(** [FIXED.prepend(base, prependConditions)] *)
Fixpoint prepend (base : string) (prependConditions : list PrependCondition) : string :=
  match prependConditions with
  | [] => base
  | prependCondition :: rest =>
      let shouldPrepend :=
        match cond_test prependCondition with
        | TestString p => JS.startsWith base p
        | TestRegExp r => r base
        end in
      if shouldPrepend then cond_prepend prependCondition +:+ base
      else prepend base rest
  end.

End FIXED.

(** ** DEFAULTS: the implementation methods *)

Record ErrorMessageRecord : Type := {
  em_primaryDestinationId : nat;
  em_backupDestinationId : nat;
  em_backupDestination : string;
  em_errorMessage : option string
}.

Record PrimaryDestinationResult : Type := {
  wasSuccessful : bool;
  hadRecoverableError : bool;
  successfulDestination : option string;
  errorMessages : list ErrorMessageRecord;
  errors : list Exception
}.

(** The part of [CONFIGURATION] that decides anything: the compiled
    recoverable-error pattern.  ([consoleOutput] only writes log records,
    which are not modelled, and [forwardToPrimaryDestination] is the method
    of [DEFAULTS] below.) *)
Record Configuration : Type := {
  recoverableForwardImplementationErrorRegExp : string -> bool
}.

Inductive ActionType : Type := AcceptForwarding | RejectForwarding.

Module DEFAULTS.

Definition REJECT_TREATMENT : string := "Address does not exist".

(** [addressLocalParts(localPart, formatLocalPartSeparator)] *)
Definition addressLocalParts (localPart formatLocalPartSeparator : string)
  : string * string :=
  let lowerCaseLocalPart := JS.toLowerCase localPart in
  let firstLocalPartSeparatorIndex :=
    JS.indexOf lowerCaseLocalPart formatLocalPartSeparator in
  if 0 <=? firstLocalPartSeparatorIndex
  then (JS.slice lowerCaseLocalPart 0 (Some firstLocalPartSeparatorIndex),
        JS.slice lowerCaseLocalPart
          (firstLocalPartSeparatorIndex
           + Z.of_nat (String.length formatLocalPartSeparator)) None)
  else (lowerCaseLocalPart, EmptyString).

(** The variables the loop of [forwardToPrimaryDestination] updates. *)
Record LoopState : Type := {
  s : nat;
  ls_wasSuccessful : bool;
  ls_hadRecoverableError : bool;
  ls_errorMessages : list ErrorMessageRecord;
  ls_errors : list Exception
}.

(** How one round of the loop ends: at [break], or at its closing brace. *)
Inductive Round : Type :=
| Break (st : LoopState)
| Next (st : LoopState).

(** The body of [for (const backupDestination of primaryDestination)]. *)
Definition forwardRound (message : Message) (primaryDestinationId : nat)
  (customHeaders : Headers) (configuration : Configuration)
  (backupDestination : string) (st : LoopState) : Async Round :=
  let backupDestinationId := (s st + 1)%nat in
  tryCatch
    (forward message backupDestination customHeaders ;;;
     ret (Break {| s := s st;
                   ls_wasSuccessful := true;
                   ls_hadRecoverableError := ls_hadRecoverableError st;
                   ls_errorMessages := ls_errorMessages st;
                   ls_errors := ls_errors st |}))%async
    (fun error =>
       ret (Next {| s := s st;
                    ls_wasSuccessful := ls_wasSuccessful st;
                    ls_hadRecoverableError :=
                      if testMessage
                           (recoverableForwardImplementationErrorRegExp configuration)
                           (errorMessage error)
                      then true else ls_hadRecoverableError st;
                    ls_errorMessages :=
                      (ls_errorMessages st ++
                       [{| em_primaryDestinationId := primaryDestinationId;
                           em_backupDestinationId := backupDestinationId;
                           em_backupDestination := backupDestination;
                           em_errorMessage := errorMessage error |}])%list;
                    ls_errors := (ls_errors st ++ [error])%list |})).

Fixpoint forwardLoop (message : Message) (primaryDestinationId : nat)
  (customHeaders : Headers) (configuration : Configuration)
  (remaining : list string) (st : LoopState) : Async LoopState :=
  match remaining with
  | [] => ret st
  | backupDestination :: rest =>
      (r <- forwardRound message primaryDestinationId customHeaders
              configuration backupDestination st ;;
       match r with
       | Break st' => ret st'
       | Next st' =>
           forwardLoop message primaryDestinationId customHeaders configuration rest
             {| s := (s st' + 1)%nat;
                ls_wasSuccessful := ls_wasSuccessful st';
                ls_hadRecoverableError := ls_hadRecoverableError st';
                ls_errorMessages := ls_errorMessages st';
                ls_errors := ls_errors st' |}
       end)%async
  end.

(** [forwardToPrimaryDestination(message, primaryDestination,
    primaryDestinationId, customHeaders, emailImage, configuration)] *)
Definition forwardToPrimaryDestination (message : Message)
  (primaryDestination : list string) (primaryDestinationId : nat)
  (customHeaders : Headers) (configuration : Configuration)
  : Async PrimaryDestinationResult :=
  (st <- forwardLoop message primaryDestinationId customHeaders configuration
           primaryDestination
           {| s := 0; ls_wasSuccessful := false; ls_hadRecoverableError := false;
              ls_errorMessages := []; ls_errors := [] |} ;;
   ret {| wasSuccessful := ls_wasSuccessful st;
          hadRecoverableError := ls_hadRecoverableError st;
          successfulDestination :=
            if ls_wasSuccessful st then JS.at_ primaryDestination (s st) else None;
          errorMessages := ls_errorMessages st;
          errors := ls_errors st |})%async.

(** The constants [forwardToCompoundDestination] computes from the results
    of all primary destinations. *)
Definition compoundHadRecoverableError (primaryDestinationResults : list PrimaryDestinationResult)
  : bool :=
  existsb (fun b : bool => b)
    (List.map (fun result => negb (wasSuccessful result) && hadRecoverableError result)
       primaryDestinationResults).

Definition compoundWasSuccessful (primaryDestinationResults : list PrimaryDestinationResult)
  : bool :=
  negb (compoundHadRecoverableError primaryDestinationResults)
  && existsb (fun b : bool => b)
       (List.map (fun result => wasSuccessful result) primaryDestinationResults).

Definition compoundErrors (primaryDestinationResults : list PrimaryDestinationResult)
  : list Exception :=
  List.flat_map (fun result => errors result) primaryDestinationResults.

(** [compoundDestination.map((primaryDestination, primaryDestinationIndex) => ...)] *)
Fixpoint primaryPromises (message : Message) (customHeaders : Headers)
  (configuration : Configuration) (compoundDestination : list (list string))
  (primaryDestinationIndex : nat) : list (Async PrimaryDestinationResult) :=
  match compoundDestination with
  | [] => []
  | primaryDestination :: rest =>
      forwardToPrimaryDestination message primaryDestination
        (primaryDestinationIndex + 1)%nat customHeaders configuration
      :: primaryPromises message customHeaders configuration rest
           (S primaryDestinationIndex)
  end.

(** [forwardToCompoundDestination(message, actionType, compoundDestination,
    customHeaders, emailImage, configuration)] *)
Definition forwardToCompoundDestination (message : Message) (actionType : ActionType)
  (compoundDestination : list (list string)) (customHeaders : Headers)
  (configuration : Configuration) : Async bool :=
  (primaryDestinationResults <-
     promiseAll (primaryPromises message customHeaders configuration
                   compoundDestination 0) ;;
   let hadRecoverableError := compoundHadRecoverableError primaryDestinationResults in
   let wasSuccessful := compoundWasSuccessful primaryDestinationResults in
   let errors := compoundErrors primaryDestinationResults in
   if hadRecoverableError
   then throw (RecoverableForwardError errors)
   else ret wasSuccessful)%async.

(** [isValidEmailAddress(address, validAddressRegExp)] *)
Definition isValidEmailAddress (address : string) (validAddressRegExp : string -> bool)
  : bool :=
  validAddressRegExp address.

End DEFAULTS.

(** ** Rejections with [null] or [undefined]

    A promise can be rejected with any value, and [Exception] holds only the
    values that have properties.  This module embeds
    [forwardToPrimaryDestination] once more, for a [message.forward] that may
    also reject with [null] or [undefined]: there [error.message], the first
    thing the [catch] block evaluates, is itself a [TypeError]. *)
Module AnyRejection.

(** What [message.forward] rejects with. *)
Inductive Reason : Type :=
| Value (e : Exception)
| Null
| Undefined.

Inductive Settled : Type :=
| Resolved
| Rejected (error : Reason).

Inductive Event : Type :=
| EvForward (address : string) (headers : Headers) (outcome : Settled)
| EvSetReject (reason : string).

Definition Transport : Type := list Event -> string -> Headers -> Settled.

Record Message : Type := {
  to : string;
  transport : Transport
}.

Definition Async (A : Type) : Type := list Event -> Completion A * list Event.

(** The caught value, for reading a property of it as [error.message] does:
    the value must have properties, and on [null] and [undefined] the access
    throws. *)
Definition caughtObject (error : Reason) : Completion Exception :=
  match error with
  | Value e => Normal e
  | Null => Throw (TypeError "Cannot read properties of null (reading 'message')")
  | Undefined =>
      Throw (TypeError "Cannot read properties of undefined (reading 'message')")
  end.

(** The body of [for (const backupDestination of primaryDestination)].  In
    the [catch] block [error.message] is evaluated first, for the call of
    [log]; what it throws leaves the loop and the function.  Past it the
    caught value has properties. *)
Definition forwardRound (message : Message) (primaryDestinationId : nat)
  (customHeaders : Headers) (configuration : Configuration)
  (backupDestination : string) (st : DEFAULTS.LoopState) : Async DEFAULTS.Round :=
  fun h =>
    let backupDestinationId := (DEFAULTS.s st + 1)%nat in
    let outcome := transport message h backupDestination customHeaders in
    let h' := (h ++ [EvForward backupDestination customHeaders outcome])%list in
    match outcome with
    | Resolved =>
        (Normal (DEFAULTS.Break
                   {| DEFAULTS.s := DEFAULTS.s st;
                      DEFAULTS.ls_wasSuccessful := true;
                      DEFAULTS.ls_hadRecoverableError := DEFAULTS.ls_hadRecoverableError st;
                      DEFAULTS.ls_errorMessages := DEFAULTS.ls_errorMessages st;
                      DEFAULTS.ls_errors := DEFAULTS.ls_errors st |}), h')
    | Rejected error =>
        match caughtObject error with
        | Throw typeError => (Throw typeError, h')
        | Normal e =>
            (Normal (DEFAULTS.Next
                       {| DEFAULTS.s := DEFAULTS.s st;
                          DEFAULTS.ls_wasSuccessful := DEFAULTS.ls_wasSuccessful st;
                          DEFAULTS.ls_hadRecoverableError :=
                            if testMessage
                                 (recoverableForwardImplementationErrorRegExp configuration)
                                 (errorMessage e)
                            then true else DEFAULTS.ls_hadRecoverableError st;
                          DEFAULTS.ls_errorMessages :=
                            (DEFAULTS.ls_errorMessages st ++
                             [{| em_primaryDestinationId := primaryDestinationId;
                                 em_backupDestinationId := backupDestinationId;
                                 em_backupDestination := backupDestination;
                                 em_errorMessage := errorMessage e |}])%list;
                          DEFAULTS.ls_errors := (DEFAULTS.ls_errors st ++ [e])%list |}),
             h')
        end
    end.

Fixpoint forwardLoop (message : Message) (primaryDestinationId : nat)
  (customHeaders : Headers) (configuration : Configuration)
  (remaining : list string) (st : DEFAULTS.LoopState) : Async DEFAULTS.LoopState :=
  fun h =>
    match remaining with
    | [] => (Normal st, h)
    | backupDestination :: rest =>
        match forwardRound message primaryDestinationId customHeaders configuration
                backupDestination st h with
        | (Normal (DEFAULTS.Break st'), h') => (Normal st', h')
        | (Normal (DEFAULTS.Next st'), h') =>
            forwardLoop message primaryDestinationId customHeaders configuration rest
              {| DEFAULTS.s := (DEFAULTS.s st' + 1)%nat;
                 DEFAULTS.ls_wasSuccessful := DEFAULTS.ls_wasSuccessful st';
                 DEFAULTS.ls_hadRecoverableError := DEFAULTS.ls_hadRecoverableError st';
                 DEFAULTS.ls_errorMessages := DEFAULTS.ls_errorMessages st';
                 DEFAULTS.ls_errors := DEFAULTS.ls_errors st' |} h'
        | (Throw e, h') => (Throw e, h')
        end
    end.

(** [forwardToPrimaryDestination(message, primaryDestination,
    primaryDestinationId, customHeaders, emailImage, configuration)] *)
Definition forwardToPrimaryDestination (message : Message)
  (primaryDestination : list string) (primaryDestinationId : nat)
  (customHeaders : Headers) (configuration : Configuration)
  : Async PrimaryDestinationResult :=
  fun h =>
    match forwardLoop message primaryDestinationId customHeaders configuration
            primaryDestination
            {| DEFAULTS.s := 0; DEFAULTS.ls_wasSuccessful := false;
               DEFAULTS.ls_hadRecoverableError := false;
               DEFAULTS.ls_errorMessages := []; DEFAULTS.ls_errors := [] |} h with
    | (Normal st, h') =>
        (Normal {| wasSuccessful := DEFAULTS.ls_wasSuccessful st;
                   hadRecoverableError := DEFAULTS.ls_hadRecoverableError st;
                   successfulDestination :=
                     if DEFAULTS.ls_wasSuccessful st
                     then JS.at_ primaryDestination (DEFAULTS.s st) else None;
                   errorMessages := DEFAULTS.ls_errorMessages st;
                   errors := DEFAULTS.ls_errors st |}, h')
    | (Throw e, h') => (Throw e, h')
    end.

End AnyRejection.

(** ** The environment *)

(** [{ ...DEFAULTS, ...environment }]: the configuration constants [email]
    reads, after the defaults are merged in, and [MAP], the key-value store
    ([MAP.get(key)] is the lookup; an absent key gives [null]).
    [CONSOLE_OUTPUT_LEVEL] only steers logging and is left out. *)
Record Environment : Type := {
  USE_STORED_ADDRESS_CONFIGURATION : string;
  USE_STORED_USER_CONFIGURATION : string;
  DESTINATION : string;
  REJECT_TREATMENT : string;
  SUBADDRESSES : string;
  USERS : string;
  CLOUDFLARE_RECOVERABLE_FORWARDING_ERROR_REGEXP : string;
  FORMAT_PRIMARY_ADDRESS_SEPARATOR : string;
  FORMAT_BACKUP_ADDRESS_SEPARATOR : string;
  FORMAT_LOCAL_PART_SEPARATOR : string;
  FORMAT_REJECT_SEPARATOR : string;
  FORMAT_VALID_CUSTOM_HEADER_REGEXP : string;
  FORMAT_VALID_EMAIL_ADDRESS_REGEXP : string;
  CUSTOM_HEADER : string;
  CUSTOM_HEADER_FAIL : string;
  CUSTOM_HEADER_PASS : string;
  MAP : gmap string string
}.

(** ** The [email] handler *)

Module Worker.

(** *** Helper methods independent of configuration *)

Definition booleanFromString (stringBoolean : string) : bool :=
  JS.arrayIncludes ["true"; "1"] (JS.toLowerCase (JS.trim stringBoolean)).

(** [storedConfigurationValue(shouldLoad, key)]; [None] is [undefined]. *)
Definition storedConfigurationValue (store : gmap string string)
  (shouldLoad : bool) (key : string) : option string :=
  if shouldLoad then store !! key else None.

(** [x ?? d] *)
Definition nullish (x : option string) (d : string) : string :=
  match x with Some v => v | None => d end.

(** [x || d], for [x] a string or [undefined]: the empty string is falsy. *)
Definition orElse (x : option string) (d : string) : string :=
  match x with
  | Some (String c v) => String c v
  | _ => d
  end.

(** [!x.includes('@') && y]: [false] when [x] holds an at sign, else [y]. *)
Definition unlessAddress (x y : string) : option string :=
  if negb (JS.includes x "@") then Some y else None.

(** [s.replace(new RegExp(`^${escape(separator)}`), '')]: the escaped
    separator matches itself, at the start only. *)
Definition removeLeading (separator s : string) : string :=
  if JS.startsWith s separator
  then JS.slice s (Z.of_nat (String.length separator)) None
  else s.

(** *** Destination validation

    The functions below are closures of [email]; the constants they capture
    are the variables of this section. *)
Section Destinations.

Variables FORMAT_PRIMARY_ADDRESS_SEPARATOR FORMAT_BACKUP_ADDRESS_SEPARATOR
  FORMAT_LOCAL_PART_SEPARATOR : string.
Variable messageUser : string.
Variable formatValidEmailAddressRegExp : string -> bool.

Record PrimaryValidation : Type := {
  pv_validBackup : list string;
  pv_invalidBackup : list string
}.

(** A candidate after trimming and shorthand expansion. *)
Definition expandDestination (basicDestination : string) : string :=
  FIXED.prepend (JS.trim basicDestination)
    [ {| FIXED.cond_test := FIXED.TestString FORMAT_LOCAL_PART_SEPARATOR;
         FIXED.cond_prepend := messageUser |};
      {| FIXED.cond_test := FIXED.TestString "@";
         FIXED.cond_prepend := messageUser |} ].

(** The callback of the [reduce] in [validatePrimaryDestination]. *)
Definition primaryStep (newPrimaryDestination : PrimaryValidation)
  (basicDestination : string) : PrimaryValidation :=
  let backupDestination := expandDestination basicDestination in
  if DEFAULTS.isValidEmailAddress backupDestination formatValidEmailAddressRegExp
  then {| pv_validBackup :=
            pv_validBackup newPrimaryDestination ++ [backupDestination];
          pv_invalidBackup := pv_invalidBackup newPrimaryDestination |}
  else if negb (String.eqb backupDestination EmptyString)
  then {| pv_validBackup := pv_validBackup newPrimaryDestination;
          pv_invalidBackup :=
            pv_invalidBackup newPrimaryDestination ++ [backupDestination] |}
  else newPrimaryDestination.

(** [validatePrimaryDestination(primaryDestinationText)] *)
Definition validatePrimaryDestination (primaryDestinationText : string)
  : PrimaryValidation :=
  fold_left primaryStep
    (JS.split primaryDestinationText FORMAT_BACKUP_ADDRESS_SEPARATOR)
    {| pv_validBackup := []; pv_invalidBackup := [] |}.

Record CompoundValidation : Type := {
  validPrimary : list (list string);
  validBackup : list string;
  invalidBackup : list string;
  duplicateBackup : list string
}.

(** The callback of the inner [reduce]: it returns the new primary
    destination and, on the way, pushes onto the arrays of the compound
    accumulator, so both are carried. *)
Definition dedupeStep (acc : CompoundValidation * list string) (destination : string)
  : CompoundValidation * list string :=
  let (newCompoundDestination, newPrimaryDestination) := acc in
  if negb (JS.arrayIncludes (validBackup newCompoundDestination) destination)
  then ({| validPrimary := validPrimary newCompoundDestination;
           validBackup := validBackup newCompoundDestination ++ [destination];
           invalidBackup := invalidBackup newCompoundDestination;
           duplicateBackup := duplicateBackup newCompoundDestination |},
        newPrimaryDestination ++ [destination])
  else ({| validPrimary := validPrimary newCompoundDestination;
           validBackup := validBackup newCompoundDestination;
           invalidBackup := invalidBackup newCompoundDestination;
           duplicateBackup := duplicateBackup newCompoundDestination ++ [destination] |},
        newPrimaryDestination).

(** The callback of the outer [reduce].  Its last statement,
    [newCompoundDestination.invalidBackup.concat(...)], builds a new array
    and drops it: [concat] leaves the array it is called on as it was. *)
Definition compoundStep (newCompoundDestination : CompoundValidation)
  (primaryDestinationText : string) : CompoundValidation :=
  let nonDedupedprimaryDestination := validatePrimaryDestination primaryDestinationText in
  let (pushed, dedupedPrimaryDestination) :=
    fold_left dedupeStep (pv_validBackup nonDedupedprimaryDestination)
      (newCompoundDestination, []) in
  let withPrimary :=
    if (0 <? length dedupedPrimaryDestination)%nat
    then {| validPrimary := validPrimary pushed ++ [dedupedPrimaryDestination];
            validBackup := validBackup pushed;
            invalidBackup := invalidBackup pushed;
            duplicateBackup := duplicateBackup pushed |}
    else pushed in
  let _ := invalidBackup withPrimary ++ pv_invalidBackup nonDedupedprimaryDestination in
  withPrimary.

(** [validateCompoundDestination(compoundDestinationText)] *)
Definition validateCompoundDestination (compoundDestinationText : string)
  : CompoundValidation :=
  fold_left compoundStep
    (JS.split compoundDestinationText FORMAT_PRIMARY_ADDRESS_SEPARATOR)
    {| validPrimary := []; validBackup := []; invalidBackup := [];
       duplicateBackup := [] |}.

End Destinations.

(** *** Stored and environment configuration *)
Section Resolution.

Variable environment : Environment.

Definition useStoredAddressConfiguration : bool :=
  booleanFromString (USE_STORED_ADDRESS_CONFIGURATION environment).

Definition useStoredUserConfiguration : bool :=
  booleanFromString (USE_STORED_USER_CONFIGURATION environment).

Definition globalDestination : string :=
  JS.trim (nullish (storedConfigurationValue (MAP environment)
                      useStoredAddressConfiguration "@DESTINATION")
             (DESTINATION environment)).

Definition globalRejectTreatment : string :=
  JS.trim (nullish (storedConfigurationValue (MAP environment)
                      useStoredAddressConfiguration "@REJECT_TREATMENT")
             (REJECT_TREATMENT environment)).

Definition globalSubaddresses : string :=
  JS.toLowerCase
    (JS.trim (nullish (storedConfigurationValue (MAP environment)
                         useStoredAddressConfiguration "@SUBADDRESSES")
                (SUBADDRESSES environment))).

Definition globalUsers : string :=
  JS.toLowerCase
    (JS.trim (nullish (storedConfigurationValue (MAP environment)
                         useStoredAddressConfiguration "@USERS")
                (USERS environment))).

Variable messageUser : string.

Definition userDestinationWithRejectTreatment : option string :=
  storedConfigurationValue (MAP environment) useStoredUserConfiguration messageUser.

Definition userSubaddresses : string :=
  nullish
    ((fun v => JS.toLowerCase (JS.trim v)) <$>
       storedConfigurationValue (MAP environment) useStoredUserConfiguration
         (messageUser +:+ FORMAT_LOCAL_PART_SEPARATOR environment))
    globalSubaddresses.

End Resolution.

(** [userRequiresSubaddress] and [userConcreteSubaddresses], from the resolved
    subaddress configuration value. *)
Definition userRequiresSubaddress (FORMAT_LOCAL_PART_SEPARATOR userSubaddresses : string)
  : bool :=
  JS.startsWith userSubaddresses FORMAT_LOCAL_PART_SEPARATOR.

Definition userConcreteSubaddresses (FORMAT_LOCAL_PART_SEPARATOR userSubaddresses : string)
  : string :=
  JS.trim (removeLeading FORMAT_LOCAL_PART_SEPARATOR userSubaddresses).

(** [userDestination]: [.at(0)] of an empty array is [undefined], on which
    [.trim()] is a [TypeError]. *)
Definition userDestination (FORMAT_REJECT_SEPARATOR : string)
  (userDestinationWithRejectTreatment : option string) (globalDestination : string)
  : Completion string :=
  match userDestinationWithRejectTreatment with
  | None => Normal (orElse None globalDestination)
  | Some v =>
      match JS.at_ (JS.split v FORMAT_REJECT_SEPARATOR) 0 with
      | Some first => Normal (orElse (Some (JS.trim first)) globalDestination)
      | None => Throw (TypeError "Cannot read properties of undefined (reading 'trim')")
      end
  end.

Definition userRejectTreatment (FORMAT_REJECT_SEPARATOR : string)
  (userDestinationWithRejectTreatment : option string) (globalRejectTreatment : string)
  : string :=
  orElse
    (v ← userDestinationWithRejectTreatment;
     JS.trim <$> JS.at_ (JS.split v FORMAT_REJECT_SEPARATOR) 1)
    globalRejectTreatment.

Definition messageUserIsAllowed (FORMAT_PRIMARY_ADDRESS_SEPARATOR : string)
  (userDestinationWithRejectTreatment : option string)
  (globalUsers messageUser : string) : bool :=
  match userDestinationWithRejectTreatment with Some _ => true | None => false end
  || String.eqb globalUsers "*"
  || JS.arrayIncludes
       (List.map JS.trim (JS.split globalUsers FORMAT_PRIMARY_ADDRESS_SEPARATOR))
       messageUser.

Definition messageSubaddressIsAllowed
  (FORMAT_PRIMARY_ADDRESS_SEPARATOR FORMAT_LOCAL_PART_SEPARATOR : string)
  (userSubaddresses messageSubaddress : string) : bool :=
  if String.eqb messageSubaddress EmptyString
  then negb (userRequiresSubaddress FORMAT_LOCAL_PART_SEPARATOR userSubaddresses)
  else String.eqb (userConcreteSubaddresses FORMAT_LOCAL_PART_SEPARATOR userSubaddresses) "*"
       || JS.arrayIncludes
            (List.map JS.trim
               (JS.split (userConcreteSubaddresses FORMAT_LOCAL_PART_SEPARATOR userSubaddresses)
                  FORMAT_PRIMARY_ADDRESS_SEPARATOR))
            messageSubaddress.

(** [userRejectReason]: each candidate [!x.includes('@') && y] of the chain
    of [||] is taken when it is truthy, that is, when [x] holds no at sign
    and [y] is not the empty string. *)
Definition userRejectReason (userRejectTreatment globalRejectTreatment
  REJECT_TREATMENT : string) : string :=
  orElse (unlessAddress userRejectTreatment userRejectTreatment)
    (orElse (unlessAddress globalRejectTreatment globalRejectTreatment)
       (orElse (unlessAddress REJECT_TREATMENT (JS.trim REJECT_TREATMENT))
          (JS.trim DEFAULTS.REJECT_TREATMENT))).

Definition fullRejectReason (userRejectReason messageLocalPart : string) : string :=
  FIXED.prepend userRejectReason
    [ {| FIXED.cond_test := FIXED.TestRegExp FIXED.startsWithNonAlphanumericRegExp;
         FIXED.cond_prepend := messageLocalPart |} ].

(** *** The handler *)
Section Handler.

(** [new RegExp(pattern)], reduced to what the worker asks of it: [None] when
    the pattern does not compile, else the [test] method of the object. *)
Variable RegExp : string -> option (string -> bool).

Definition newRegExp (pattern : string) : Async (string -> bool) :=
  match RegExp pattern with
  | Some test => ret test
  | None => throw (SyntaxError ("Invalid regular expression: " +:+ pattern))
  end.

(** [new Headers({ [name]: value })], reduced to whether it throws: the
    constructor refuses a name or a value that is not legal in a header with
    a [TypeError], of which this gives the message.  [None]: the object is
    built. *)
Variable HeadersTypeError : string -> string -> option string.

Definition newHeaders (name value : string) : Async Headers :=
  match HeadersTypeError name value with
  | Some m => throw (TypeError m)
  | None => ret (name, value)
  end.

Definition validateCustomHeader (formatValidCustomHeaderRegExp : string -> bool)
  (customHeader : string) : Async string :=
  let customHeaderTrimmed := JS.trim customHeader in
  if formatValidCustomHeaderRegExp customHeaderTrimmed
  then ret customHeaderTrimmed
  else throw (ThrownString ("Invalid custom header " +:+ customHeaderTrimmed)).

(** [message.to.split('@')[0]]; splitting on a separator that is not empty
    gives at least one piece. *)
Definition messageLocalPart (message : Message) : string :=
  match JS.split (to message) "@" with
  | localPart :: _ => localPart
  | [] => EmptyString
  end.

Definition liftCompletion {A} (c : Completion A) : Async A := fun h => (c, h).

(** [async email(message, environment, context)] *)
Definition email (message : Message) (environment : Environment) : Async unit :=
  (recoverableForwardImplementationErrorRegExp <-
     newRegExp (CLOUDFLARE_RECOVERABLE_FORWARDING_ERROR_REGEXP environment) ;;
   formatValidEmailAddressRegExp <-
     newRegExp (FORMAT_VALID_EMAIL_ADDRESS_REGEXP environment) ;;
   formatValidCustomHeaderRegExp <-
     newRegExp (FORMAT_VALID_CUSTOM_HEADER_REGEXP environment) ;;
   customHeader <-
     validateCustomHeader formatValidCustomHeaderRegExp (CUSTOM_HEADER environment) ;;
   let customHeaderFail := JS.trim (CUSTOM_HEADER_FAIL environment) in
   let customHeaderPass := JS.trim (CUSTOM_HEADER_PASS environment) in
   let CONFIGURATION :=
     {| recoverableForwardImplementationErrorRegExp :=
          recoverableForwardImplementationErrorRegExp |} in
   let theLocalPart := messageLocalPart message in
   let (messageUser, messageSubaddress) :=
     DEFAULTS.addressLocalParts theLocalPart (FORMAT_LOCAL_PART_SEPARATOR environment) in
   let validate :=
     validateCompoundDestination
       (FORMAT_PRIMARY_ADDRESS_SEPARATOR environment)
       (FORMAT_BACKUP_ADDRESS_SEPARATOR environment)
       (FORMAT_LOCAL_PART_SEPARATOR environment)
       messageUser formatValidEmailAddressRegExp in
   let theUserDestinationWithRejectTreatment :=
     userDestinationWithRejectTreatment environment messageUser in
   let theUserSubaddresses := userSubaddresses environment messageUser in
   theUserDestination <-
     liftCompletion
       (userDestination (FORMAT_REJECT_SEPARATOR environment)
          theUserDestinationWithRejectTreatment (globalDestination environment)) ;;
   let theUserRejectTreatment :=
     userRejectTreatment (FORMAT_REJECT_SEPARATOR environment)
       theUserDestinationWithRejectTreatment (globalRejectTreatment environment) in
   let theMessageUserIsAllowed :=
     messageUserIsAllowed (FORMAT_PRIMARY_ADDRESS_SEPARATOR environment)
       theUserDestinationWithRejectTreatment (globalUsers environment) messageUser in
   let theMessageSubaddressIsAllowed :=
     messageSubaddressIsAllowed (FORMAT_PRIMARY_ADDRESS_SEPARATOR environment)
       (FORMAT_LOCAL_PART_SEPARATOR environment) theUserSubaddresses messageSubaddress in
   acceptForwardWasSuccessful <-
     (if theMessageUserIsAllowed && theMessageSubaddressIsAllowed
      then
        let acceptCompoundDestination := validate theUserDestination in
        (acceptHeaders <- newHeaders customHeader customHeaderPass ;;
         DEFAULTS.forwardToCompoundDestination message AcceptForwarding
           (validPrimary acceptCompoundDestination) acceptHeaders CONFIGURATION)
      else ret false) ;;
   if negb acceptForwardWasSuccessful
   then
     let rejectCompoundDestination := validate theUserRejectTreatment in
     rejectForwardWasSuccessful <-
       (if (0 <? length (validPrimary rejectCompoundDestination))%nat
        then
          (rejectHeaders <- newHeaders customHeader customHeaderFail ;;
           DEFAULTS.forwardToCompoundDestination message RejectForwarding
             (validPrimary rejectCompoundDestination) rejectHeaders CONFIGURATION)
        else ret false) ;;
     if negb rejectForwardWasSuccessful
     then
       setReject
         (fullRejectReason
            (userRejectReason theUserRejectTreatment
               (globalRejectTreatment environment) (REJECT_TREATMENT environment))
            theLocalPart)
     else ret tt
   else ret tt)%async.

End Handler.

End Worker.

(** ** Vocabulary of the properties *)

(** Two code units that are the same letter up to case. *)
Definition sameLetter (a b : ascii) : Prop :=
  a = b \/ JS.toLowerChar a = b \/ a = JS.toLowerChar b.

(** [t] is a case variant of [s]: the same letters, unit by unit, in any case. *)
Inductive CaseVariant : string -> string -> Prop :=
| CaseVariant_empty : CaseVariant EmptyString EmptyString
| CaseVariant_unit a b s t :
    sameLetter a b -> CaseVariant s t -> CaseVariant (String a s) (String b t).

(** [sep] occurs nowhere in [s]. *)
Definition absent (sep s : string) : Prop :=
  forall pre post, s <> pre +:+ sep +:+ post.

(** The events failed attempts leave: one per (address, error thrown), in order. *)
Definition rejectedEvents (headers : Headers) (failures : list (string * Exception))
  : list Event :=
  List.map (fun f => EvForward (fst f) headers (Rejected (snd f))) failures.

(** The records a primary destination keeps of those failures, the first of
    them being attempt number [s0 + 1]. *)
Fixpoint failureRecords (primaryDestinationId s0 : nat)
  (failures : list (string * Exception)) : list ErrorMessageRecord :=
  match failures with
  | [] => []
  | f :: rest =>
      {| em_primaryDestinationId := primaryDestinationId;
         em_backupDestinationId := (s0 + 1)%nat;
         em_backupDestination := fst f;
         em_errorMessage := errorMessage (snd f) |}
      :: failureRecords primaryDestinationId (S s0) rest
  end.

(** Each event of [events] is a forward that settled as the transport of
    [message] decides after the history [h] and the events before it. *)
Fixpoint answers (message : Message) (h events : list Event) : Prop :=
  match events with
  | [] => True
  | ev :: rest =>
      match ev with
      | EvForward address headers outcome =>
          transport message h address headers = outcome
      | EvSetReject _ => False
      end
      /\ answers message (h ++ [ev]) rest
  end.

(** The errors the delivery attempts among [events] threw. *)
Definition thrownErrors (events : list Event) : list Exception :=
  List.flat_map
    (fun ev => match ev with EvForward _ _ (Rejected e) => [e] | _ => [] end)
    events.

Definition isDelivery (ev : Event) : bool :=
  match ev with EvForward _ _ Resolved => true | _ => false end.

Definition isSetReject (ev : Event) : bool :=
  match ev with EvSetReject _ => true | _ => false end.

(** Some forward among [events] succeeded. *)
Definition delivered (events : list Event) : bool := existsb isDelivery events.

(** How often [setReject] was called among [events]. *)
Definition setRejectCount (events : list Event) : nat :=
  length (List.filter isSetReject events).

(** Some failure has a message the recoverable-error pattern matches. *)
Definition someRecoverable (regexp : string -> bool)
  (failures : list (string * Exception)) : bool :=
  existsb (fun f => testMessage regexp (errorMessage (snd f))) failures.

(** *** Vocabulary of destination validation *)

(** Of the addresses [l], in order, those that are neither among [seen] nor
    earlier in [l]: the first occurrences. *)
Fixpoint firstOccurrences (seen l : list string) : list string :=
  match l with
  | [] => []
  | x :: rest =>
      if in_dec string_dec x seen then firstOccurrences seen rest
      else x :: firstOccurrences (seen ++ [x]) rest
  end.

(** The others: the occurrences of an address that is among [seen] or
    earlier in [l]. *)
Fixpoint laterOccurrences (seen l : list string) : list string :=
  match l with
  | [] => []
  | x :: rest =>
      if in_dec string_dec x seen then x :: laterOccurrences seen rest
      else laterOccurrences (seen ++ [x]) rest
  end.

(** What survives of each primary destination, the addresses [seen] having
    appeared before it. *)
Fixpoint survivors (seen : list string) (primaries : list (list string))
  : list (list string) :=
  match primaries with
  | [] => []
  | p :: rest =>
      firstOccurrences seen p
      :: survivors (seen ++ firstOccurrences seen p) rest
  end.

Definition nonEmpty (p : list string) : bool := (0 <? length p)%nat.

(** The valid addresses a compound destination text holds, primary by
    primary, as [validatePrimaryDestination] finds them. *)
Definition validAddresses (FORMAT_PRIMARY_ADDRESS_SEPARATOR
  FORMAT_BACKUP_ADDRESS_SEPARATOR FORMAT_LOCAL_PART_SEPARATOR messageUser : string)
  (formatValidEmailAddressRegExp : string -> bool) (compoundDestinationText : string)
  : list (list string) :=
  List.map
    (fun primaryDestinationText =>
       Worker.pv_validBackup
         (Worker.validatePrimaryDestination FORMAT_BACKUP_ADDRESS_SEPARATOR
            FORMAT_LOCAL_PART_SEPARATOR messageUser formatValidEmailAddressRegExp
            primaryDestinationText))
    (JS.split compoundDestinationText FORMAT_PRIMARY_ADDRESS_SEPARATOR).

(** The candidates of a primary destination text: its pieces after trimming
    and shorthand expansion. *)
Definition candidates (FORMAT_BACKUP_ADDRESS_SEPARATOR FORMAT_LOCAL_PART_SEPARATOR
  messageUser primaryDestinationText : string) : list string :=
  List.map (Worker.expandDestination FORMAT_LOCAL_PART_SEPARATOR messageUser)
    (JS.split primaryDestinationText FORMAT_BACKUP_ADDRESS_SEPARATOR).

(** *** Vocabulary of the reject reason *)

(** The code unit [c] occurs in [s]. *)
Fixpoint hasChar (c : ascii) (s : string) : bool :=
  match s with
  | EmptyString => false
  | String d s' => Ascii.eqb c d || hasChar c s'
  end.

(** A candidate reject reason that holds no at sign. *)
Definition holdsNoAddress (candidate : string) : bool :=
  negb (JS.includes candidate "@").

(** A candidate reject reason the chain takes: it is not empty and holds no
    at sign. *)
Definition acceptableReason (candidate : string) : bool :=
  negb (JS.includes candidate "@") && negb (String.eqb candidate EmptyString).

(** The environment in which every constant has its value of [DEFAULTS]
    and the store is empty.  (The three code units of the source's address
    pattern that lie outside U+0000..U+00FF are left out of the pattern,
    which the worker only hands to [RegExp].) *)
Definition defaultEnvironment : Environment := {|
  USE_STORED_ADDRESS_CONFIGURATION := "false";
  USE_STORED_USER_CONFIGURATION := "true";
  DESTINATION := "";
  REJECT_TREATMENT := DEFAULTS.REJECT_TREATMENT;
  SUBADDRESSES := "*";
  USERS := "";
  CLOUDFLARE_RECOVERABLE_FORWARDING_ERROR_REGEXP := ".*";
  FORMAT_PRIMARY_ADDRESS_SEPARATOR := ",";
  FORMAT_BACKUP_ADDRESS_SEPARATOR := ":";
  FORMAT_LOCAL_PART_SEPARATOR := "+";
  FORMAT_REJECT_SEPARATOR := ";";
  FORMAT_VALID_CUSTOM_HEADER_REGEXP := "X-.*";
  FORMAT_VALID_EMAIL_ADDRESS_REGEXP :=
    "^[a-zA-Z0-9.!#$%&*+/=?^_`{|}~-]+@[a-zA-Z0-9-]+(?:.[a-zA-Z0-9-]+)*$";
  CUSTOM_HEADER := "X-My-Email-Forwarding";
  CUSTOM_HEADER_FAIL := "fail";
  CUSTOM_HEADER_PASS := "pass";
  MAP := ∅
|}.

(** The default environment with other address-level values and another
    store. *)
Definition configured (destination rejectTreatment subaddresses users : string)
  (useStoredAddressConfiguration : string) (store : gmap string string)
  : Environment := {|
  USE_STORED_ADDRESS_CONFIGURATION := useStoredAddressConfiguration;
  USE_STORED_USER_CONFIGURATION := USE_STORED_USER_CONFIGURATION defaultEnvironment;
  DESTINATION := destination;
  REJECT_TREATMENT := rejectTreatment;
  SUBADDRESSES := subaddresses;
  USERS := users;
  CLOUDFLARE_RECOVERABLE_FORWARDING_ERROR_REGEXP :=
    CLOUDFLARE_RECOVERABLE_FORWARDING_ERROR_REGEXP defaultEnvironment;
  FORMAT_PRIMARY_ADDRESS_SEPARATOR := FORMAT_PRIMARY_ADDRESS_SEPARATOR defaultEnvironment;
  FORMAT_BACKUP_ADDRESS_SEPARATOR := FORMAT_BACKUP_ADDRESS_SEPARATOR defaultEnvironment;
  FORMAT_LOCAL_PART_SEPARATOR := FORMAT_LOCAL_PART_SEPARATOR defaultEnvironment;
  FORMAT_REJECT_SEPARATOR := FORMAT_REJECT_SEPARATOR defaultEnvironment;
  FORMAT_VALID_CUSTOM_HEADER_REGEXP := FORMAT_VALID_CUSTOM_HEADER_REGEXP defaultEnvironment;
  FORMAT_VALID_EMAIL_ADDRESS_REGEXP := FORMAT_VALID_EMAIL_ADDRESS_REGEXP defaultEnvironment;
  CUSTOM_HEADER := CUSTOM_HEADER defaultEnvironment;
  CUSTOM_HEADER_FAIL := CUSTOM_HEADER_FAIL defaultEnvironment;
  CUSTOM_HEADER_PASS := CUSTOM_HEADER_PASS defaultEnvironment;
  MAP := store
|}.

(** A stand-in for the regular expression engine, enough to run the handler
    on examples: the pattern [.*] matches everything, the default header
    pattern matches what starts with [X-], and any other pattern matches the
    strings holding an at sign. *)
Definition sampleRegExp (pattern : string) : option (string -> bool) :=
  if String.eqb pattern ".*" then Some (fun _ => true)
  else if String.eqb pattern "X-.*" then Some (fun text => JS.startsWith text "X-")
  else Some (fun text => JS.includes text "@").

(** A stand-in for the [Headers] constructor, enough to run the handler on
    examples: it refuses a value that holds a line feed, as every
    implementation does, and builds every other object. *)
Definition sampleHeaders (name value : string) : option string :=
  if hasChar (ascii_of_nat 10) value then Some "Invalid header value." else None.


(** *** Vocabulary of the events of an invocation *)

(** The addresses of the forwards among [events], in order. *)
Definition forwardAddresses (events : list Event) : list string :=
  List.flat_map
    (fun ev => match ev with EvForward address _ _ => [address] | _ => [] end)
    events.

(** [ev] is a forward that carries the headers [headers]. *)
Definition carries (headers : Headers) (ev : Event) : Prop :=
  match ev with
  | EvForward _ headers' _ => headers' = headers
  | EvSetReject _ => False
  end.

(** [environment] with another store bound to [MAP]. *)
Definition withStore (environment : Environment) (store : gmap string string)
  : Environment := {|
  USE_STORED_ADDRESS_CONFIGURATION := USE_STORED_ADDRESS_CONFIGURATION environment;
  USE_STORED_USER_CONFIGURATION := USE_STORED_USER_CONFIGURATION environment;
  DESTINATION := DESTINATION environment;
  REJECT_TREATMENT := REJECT_TREATMENT environment;
  SUBADDRESSES := SUBADDRESSES environment;
  USERS := USERS environment;
  CLOUDFLARE_RECOVERABLE_FORWARDING_ERROR_REGEXP :=
    CLOUDFLARE_RECOVERABLE_FORWARDING_ERROR_REGEXP environment;
  FORMAT_PRIMARY_ADDRESS_SEPARATOR := FORMAT_PRIMARY_ADDRESS_SEPARATOR environment;
  FORMAT_BACKUP_ADDRESS_SEPARATOR := FORMAT_BACKUP_ADDRESS_SEPARATOR environment;
  FORMAT_LOCAL_PART_SEPARATOR := FORMAT_LOCAL_PART_SEPARATOR environment;
  FORMAT_REJECT_SEPARATOR := FORMAT_REJECT_SEPARATOR environment;
  FORMAT_VALID_CUSTOM_HEADER_REGEXP := FORMAT_VALID_CUSTOM_HEADER_REGEXP environment;
  FORMAT_VALID_EMAIL_ADDRESS_REGEXP := FORMAT_VALID_EMAIL_ADDRESS_REGEXP environment;
  CUSTOM_HEADER := CUSTOM_HEADER environment;
  CUSTOM_HEADER_FAIL := CUSTOM_HEADER_FAIL environment;
  CUSTOM_HEADER_PASS := CUSTOM_HEADER_PASS environment;
  MAP := store
|}.

(** [environment] with stored configuration of both kinds switched off or on. *)
Definition withStoredConfiguration (environment : Environment)
  (useStoredAddressConfiguration useStoredUserConfiguration : string)
  : Environment := {|
  USE_STORED_ADDRESS_CONFIGURATION := useStoredAddressConfiguration;
  USE_STORED_USER_CONFIGURATION := useStoredUserConfiguration;
  DESTINATION := DESTINATION environment;
  REJECT_TREATMENT := REJECT_TREATMENT environment;
  SUBADDRESSES := SUBADDRESSES environment;
  USERS := USERS environment;
  CLOUDFLARE_RECOVERABLE_FORWARDING_ERROR_REGEXP :=
    CLOUDFLARE_RECOVERABLE_FORWARDING_ERROR_REGEXP environment;
  FORMAT_PRIMARY_ADDRESS_SEPARATOR := FORMAT_PRIMARY_ADDRESS_SEPARATOR environment;
  FORMAT_BACKUP_ADDRESS_SEPARATOR := FORMAT_BACKUP_ADDRESS_SEPARATOR environment;
  FORMAT_LOCAL_PART_SEPARATOR := FORMAT_LOCAL_PART_SEPARATOR environment;
  FORMAT_REJECT_SEPARATOR := FORMAT_REJECT_SEPARATOR environment;
  FORMAT_VALID_CUSTOM_HEADER_REGEXP := FORMAT_VALID_CUSTOM_HEADER_REGEXP environment;
  FORMAT_VALID_EMAIL_ADDRESS_REGEXP := FORMAT_VALID_EMAIL_ADDRESS_REGEXP environment;
  CUSTOM_HEADER := CUSTOM_HEADER environment;
  CUSTOM_HEADER_FAIL := CUSTOM_HEADER_FAIL environment;
  CUSTOM_HEADER_PASS := CUSTOM_HEADER_PASS environment;
  MAP := MAP environment
|}.

(** *** The image of a compound destination *)

(** [compoundDestinationImage(validatedCompoundDestination)], a closure of
    [email] over the two address separators. *)
Definition compoundDestinationImage
  (FORMAT_PRIMARY_ADDRESS_SEPARATOR FORMAT_BACKUP_ADDRESS_SEPARATOR : string)
  (validatedCompoundDestination : list (list string)) : string :=
  JS.join FORMAT_PRIMARY_ADDRESS_SEPARATOR
    (List.map
       (fun primaryDestination => JS.join FORMAT_BACKUP_ADDRESS_SEPARATOR primaryDestination)
       validatedCompoundDestination).

(** [result] is what [forwardToPrimaryDestination] returns for the primary
    destination [primaryDestination], under some identifier and after some
    history. *)
Definition resultOf (message : Message) (customHeaders : Headers)
  (configuration : Configuration) (primaryDestination : list string)
  (result : PrimaryDestinationResult) : Prop :=
  exists (primaryDestinationId : nat) (h : list Event),
    fst (DEFAULTS.forwardToPrimaryDestination message primaryDestination
           primaryDestinationId customHeaders configuration h)
    = Normal result.

(** *** The constants of one invocation, by their names in [email] *)

(** [new Headers({ [customHeader]: customHeaderPass })] and its counterpart
    with [customHeaderFail]. *)
Definition passHeaders (environment : Environment) : Headers :=
  (JS.trim (CUSTOM_HEADER environment), JS.trim (CUSTOM_HEADER_PASS environment)).

Definition failHeaders (environment : Environment) : Headers :=
  (JS.trim (CUSTOM_HEADER environment), JS.trim (CUSTOM_HEADER_FAIL environment)).

(** [messageUser] and [messageSubaddress] of a message. *)
Definition messageUserOf (message : Message) (environment : Environment) : string :=
  fst (DEFAULTS.addressLocalParts (Worker.messageLocalPart message)
         (FORMAT_LOCAL_PART_SEPARATOR environment)).

Definition messageSubaddressOf (message : Message) (environment : Environment) : string :=
  snd (DEFAULTS.addressLocalParts (Worker.messageLocalPart message)
         (FORMAT_LOCAL_PART_SEPARATOR environment)).

(** [messageUserIsAllowed && messageSubaddressIsAllowed], the condition of
    the accept forward. *)
Definition acceptIsAllowed (message : Message) (environment : Environment) : bool :=
  Worker.messageUserIsAllowed (FORMAT_PRIMARY_ADDRESS_SEPARATOR environment)
    (Worker.userDestinationWithRejectTreatment environment
       (messageUserOf message environment))
    (Worker.globalUsers environment) (messageUserOf message environment)
  && Worker.messageSubaddressIsAllowed (FORMAT_PRIMARY_ADDRESS_SEPARATOR environment)
       (FORMAT_LOCAL_PART_SEPARATOR environment)
       (Worker.userSubaddresses environment (messageUserOf message environment))
       (messageSubaddressOf message environment).

(** [fullRejectReason] of a message. *)
Definition fullRejectReasonOf (message : Message) (environment : Environment) : string :=
  Worker.fullRejectReason
    (Worker.userRejectReason
       (Worker.userRejectTreatment (FORMAT_REJECT_SEPARATOR environment)
          (Worker.userDestinationWithRejectTreatment environment
             (messageUserOf message environment))
          (Worker.globalRejectTreatment environment))
       (Worker.globalRejectTreatment environment) (REJECT_TREATMENT environment))
    (Worker.messageLocalPart message).

(** [rejectCompoundDestination.validPrimary] of a message, under the compiled
    address pattern. *)
Definition rejectDestinationOf (formatValidEmailAddressRegExp : string -> bool)
  (message : Message) (environment : Environment) : list (list string) :=
  Worker.validPrimary
    (Worker.validateCompoundDestination (FORMAT_PRIMARY_ADDRESS_SEPARATOR environment)
       (FORMAT_BACKUP_ADDRESS_SEPARATOR environment)
       (FORMAT_LOCAL_PART_SEPARATOR environment) (messageUserOf message environment)
       formatValidEmailAddressRegExp
       (Worker.userRejectTreatment (FORMAT_REJECT_SEPARATOR environment)
          (Worker.userDestinationWithRejectTreatment environment
             (messageUserOf message environment))
          (Worker.globalRejectTreatment environment))).

(** *** Transports that reject with values that have properties

    How the values, events and messages of the development sit among those of
    [AnyRejection]. *)






(** The values the rejected forwards among [events] were rejected with, in
    order. *)
Definition rejectionValues (events : list AnyRejection.Event) : list Exception :=
  List.flat_map
    (fun ev => match ev with
               | AnyRejection.EvForward _ _ (AnyRejection.Rejected (AnyRejection.Value e)) =>
                   [e]
               | _ => []
               end)
    events.

(** The addresses of the forwards among [events], in order. *)
Definition attemptedAddresses (events : list AnyRejection.Event) : list string :=
  List.flat_map
    (fun ev => match ev with
               | AnyRejection.EvForward address _ _ => [address]
               | _ => []
               end)
    events.


(** * Properties *)

(** ** The string primitives on examples *)

Example split_examples :
  JS.split "a:b,c" "," = ["a:b"; "c"]
  /\ JS.split "" "," = [""]
  /\ JS.split "a,," "," = ["a"; ""; ""]
  /\ JS.split "xabyab" "ab" = ["x"; "y"; ""]
  /\ JS.split "aaa" "aa" = [""; "a"]
  /\ JS.split "ab" "" = ["a"; "b"]
  /\ JS.split "" "" = [].
Proof. repeat split; reflexivity. Qed.

Example trim_examples :
  JS.trim "  a b  " = "a b" /\ JS.trim "   " = "" /\ JS.trim "" = "".
Proof. repeat split; reflexivity. Qed.

Example slice_examples :
  JS.slice "user1+suba" 6 None = "suba"
  /\ JS.slice "user1+suba" 0 (Some 5) = "user1"
  /\ JS.slice "user1" (-2) None = "r1"
  /\ JS.slice "user1" 9 None = "".
Proof. repeat split; reflexivity. Qed.

Example indexOf_examples :
  JS.indexOf "user1+a+b" "+" = 5
  /\ JS.indexOf "user" "+" = -1
  /\ JS.indexOf "user" "" = 0.
Proof. repeat split; reflexivity. Qed.

Example errorMessage_example :
  errorMessage (RecoverableForwardError [Error "could not send email"; ThrownString "x"])
  = Some ("forwarding error: (" +:+ quote +:+ "could not send email" +:+ quote
          +:+ ", " +:+ quote +:+ "undefined" +:+ quote +:+ ")").
Proof. reflexivity. Qed.

(** ** Facts about strings *)

Section StringFacts.

Lemma append_cons (c : ascii) (a b : string) : String c a +:+ b = String c (a +:+ b).
Proof. reflexivity. Qed.

Lemma append_empty_l (s : string) : "" +:+ s = s.
Proof. reflexivity. Qed.

Lemma append_empty_r (s : string) : s +:+ "" = s.
Proof.
  induction s as [|c s IH]; [reflexivity|]. now rewrite append_cons, IH.
Qed.

Lemma append_assoc (a b c : string) : (a +:+ b) +:+ c = a +:+ (b +:+ c).
Proof.
  induction a as [|x a IH]; [reflexivity|]. now rewrite !append_cons, IH.
Qed.

Lemma length_append (a b : string) :
  String.length (a +:+ b) = (String.length a + String.length b)%nat.
Proof.
  induction a as [|x a IH]; [reflexivity|]. rewrite append_cons. simpl. now rewrite IH.
Qed.

Lemma prefix_iff (p s : string) :
  String.prefix p s = true <-> exists post, s = p +:+ post.
Proof.
  revert s. induction p as [|c p IH]; intros s.
  - destruct s; simpl; split; eauto.
  - destruct s as [|d s]; simpl.
    + split; [discriminate | intros [post H]; discriminate].
    + destruct (ascii_dec c d) as [->|Hne].
      * rewrite IH. split; intros [post H]; exists post.
        -- now rewrite append_cons, H.
        -- rewrite append_cons in H. congruence.
      * split; [discriminate | intros [post H]]. rewrite append_cons in H. congruence.
Qed.

Lemma substring_all (s : string) : String.substring 0 (String.length s) s = s.
Proof. induction s as [|c s IH]; simpl; [reflexivity | now f_equal]. Qed.

Lemma substring_head (pre rest : string) :
  String.substring 0 (String.length pre) (pre +:+ rest) = pre.
Proof.
  induction pre as [|c pre IH].
  - destruct rest; reflexivity.
  - rewrite append_cons. simpl. now rewrite IH.
Qed.

Lemma substring_tail (pre rest : string) :
  String.substring (String.length pre) (String.length rest) (pre +:+ rest) = rest.
Proof.
  induction pre as [|c pre IH]; [apply substring_all|]. rewrite append_cons. exact IH.
Qed.

Lemma slice_head (pre rest : string) :
  JS.slice (pre +:+ rest) 0 (Some (Z.of_nat (String.length pre))) = pre.
Proof.
  unfold JS.slice, JS.relativeIndex. rewrite length_append.
  replace (0 <? 0) with false by reflexivity.
  destruct (Z.ltb_spec (Z.of_nat (String.length pre)) 0) as [H|H]; [lia|].
  rewrite Z.min_l by lia. rewrite Z.min_l by lia.
  replace (Z.to_nat 0) with 0%nat by reflexivity.
  replace (Z.to_nat _) with (String.length pre) by lia.
  apply substring_head.
Qed.

Lemma slice_tail (pre rest : string) :
  JS.slice (pre +:+ rest) (Z.of_nat (String.length pre)) None = rest.
Proof.
  unfold JS.slice, JS.relativeIndex. rewrite length_append.
  destruct (Z.ltb_spec (Z.of_nat (String.length pre)) 0) as [H|H]; [lia|].
  rewrite Z.min_l by lia.
  replace (Z.to_nat (Z.of_nat (String.length pre))) with (String.length pre) by lia.
  replace (Z.to_nat _) with (String.length rest) by lia.
  apply substring_tail.
Qed.

(** Splitting on a separator that is not empty gives at least one piece. *)
Lemma splitFrom_nonempty (sep s : string) (skip : nat) (cur : string) :
  JS.splitFrom sep s skip cur <> [].
Proof.
  revert skip cur.
  induction s as [|c s IH]; intros skip cur; cbn [JS.splitFrom]; [discriminate|].
  destruct skip; [|apply IH].
  destruct (String.prefix sep (String c s)); [discriminate | apply IH].
Qed.

Lemma split_nonempty (s sep : string) : sep <> EmptyString -> JS.split s sep <> [].
Proof.
  intros Hsep. destruct sep; [contradiction|]. apply splitFrom_nonempty.
Qed.

End StringFacts.

Section IndexOf.

Variable sep : string.

Lemma indexOfFrom_equation (s : string) (i : Z) :
  JS.indexOfFrom sep s i =
  if String.prefix sep s then i
  else match s with
       | EmptyString => -1
       | String _ s' => JS.indexOfFrom sep s' (i + 1)
       end.
Proof. destruct s; reflexivity. Qed.

Lemma indexOfFrom_spec (s : string) (i : Z) :
  (JS.indexOfFrom sep s i = -1 /\ absent sep s)
  \/ (exists pre post,
        s = pre +:+ sep +:+ post
        /\ JS.indexOfFrom sep s i = i + Z.of_nat (String.length pre)
        /\ forall pre' post', s = pre' +:+ sep +:+ post' ->
                              (String.length pre <= String.length pre')%nat).
Proof.
  revert i. induction s as [|c s IH]; intros i;
    rewrite indexOfFrom_equation;
    (destruct (String.prefix sep _) eqn:Hp;
     [ right; apply prefix_iff in Hp as [post Hpost];
       exists "", post; repeat split; [exact Hpost | simpl; lia | simpl; lia] | ]).
  - left. split; [reflexivity|]. intros pre post H.
    destruct pre as [|x pre]; [|discriminate].
    assert (String.prefix sep "" = true) by (apply prefix_iff; eauto).
    congruence.
  - assert (Hnot : forall post, String c s <> sep +:+ post).
    { intros post H.
      assert (String.prefix sep (String c s) = true) by (apply prefix_iff; eauto).
      congruence. }
    destruct (IH (i + 1)) as [[Hm Habs] | (pre & post & Hs & Hi & Hmin)].
    + left. split; [exact Hm|]. intros pre post H.
      destruct pre as [|x pre]; [exact (Hnot _ H)|].
      rewrite append_cons in H. injection H as _ H. exact (Habs _ _ H).
    + right. exists (String c pre), post. repeat split.
      * now rewrite append_cons, Hs.
      * rewrite Hi. simpl String.length. lia.
      * intros pre' post' H. destruct pre' as [|x pre']; [destruct (Hnot _ H)|].
        rewrite append_cons in H. injection H as _ H.
        specialize (Hmin _ _ H). simpl. lia.
Qed.

End IndexOf.

Lemma toLowerChar_idempotent (c : ascii) :
  JS.toLowerChar (JS.toLowerChar c) = JS.toLowerChar c.
Proof.
  destruct c as [[] [] [] [] [] [] [] []]; reflexivity.
Qed.

Lemma sameLetter_toLowerChar (a b : ascii) :
  sameLetter a b -> JS.toLowerChar a = JS.toLowerChar b.
Proof.
  intros [-> | [<- | ->]]; [reflexivity | |];
    now rewrite toLowerChar_idempotent.
Qed.

Lemma CaseVariant_toLowerCase (s t : string) :
  CaseVariant s t -> JS.toLowerCase s = JS.toLowerCase t.
Proof.
  induction 1 as [|a b s t Hab _ IH]; simpl; [reflexivity|].
  now rewrite (sameLetter_toLowerChar _ _ Hab), IH.
Qed.

Lemma CaseVariant_toLowerCase_self (s : string) : CaseVariant s (JS.toLowerCase s).
Proof.
  induction s as [|c s IH]; simpl; constructor; [right; left; reflexivity | exact IH].
Qed.

(** C9.  [addressLocalParts] lower-cases the local part and splits it at the
    first occurrence of the separator: when the separator is absent the
    subaddress is empty and the user is the whole lower-cased local part;
    when it occurs, user, separator and subaddress make up the lower-cased
    local part and no occurrence starts before the end of the user.  Every
    case variant of the local part gives the same two parts. *)
Theorem addressLocalParts_first_separator (localPart sep : string) :
  let lower := JS.toLowerCase localPart in
  let parts := DEFAULTS.addressLocalParts localPart sep in
  ((forall pre post, lower <> pre +:+ sep +:+ post) -> parts = (lower, EmptyString))
  /\ (forall pre post, lower = pre +:+ sep +:+ post ->
        lower = fst parts +:+ sep +:+ snd parts
        /\ (String.length (fst parts) <= String.length pre)%nat)
  /\ (forall variant, CaseVariant localPart variant ->
        DEFAULTS.addressLocalParts variant sep = parts).
Proof.
  intros lower parts. subst parts. unfold DEFAULTS.addressLocalParts. fold lower.
  unfold JS.indexOf.
  destruct (indexOfFrom_spec sep lower 0) as [[Hm Habs] | (u & sub & Hs & Hi & Hmin)].
  - rewrite Hm. simpl. split; [reflexivity | split].
    + intros pre post H. destruct (Habs _ _ H).
    + intros variant Hv. rewrite <- (CaseVariant_toLowerCase _ _ Hv). fold lower.
      rewrite Hm. reflexivity.
  - assert (Hparts :
      (if 0 <=? JS.indexOfFrom sep lower 0
       then (JS.slice lower 0 (Some (JS.indexOfFrom sep lower 0)),
             JS.slice lower (JS.indexOfFrom sep lower 0 + Z.of_nat (String.length sep)) None)
       else (lower, "")) = (u, sub)).
    { rewrite Hi. destruct (Z.leb_spec 0 (0 + Z.of_nat (String.length u))); [|lia].
      rewrite Z.add_0_l. f_equal.
      - rewrite Hs. apply slice_head.
      - rewrite Hs at 1. rewrite <- append_assoc, <- Nat2Z.inj_add, <- length_append.
        apply slice_tail. }
    rewrite Hparts. simpl. split; [|split].
    + intros Habs. destruct (Habs _ _ Hs).
    + intros pre post H. split; [exact Hs | exact (Hmin _ _ H)].
    + intros variant Hv. rewrite <- (CaseVariant_toLowerCase _ _ Hv). fold lower.
      exact Hparts.
Qed.

(** The two spellings of the specification. *)
Lemma addressLocalParts_case_witness :
  DEFAULTS.addressLocalParts "USER1+SUBA" "+" = ("user1", "suba")
  /\ DEFAULTS.addressLocalParts "user1+suba" "+"
     = DEFAULTS.addressLocalParts "USER1+SUBA" "+"
  /\ DEFAULTS.addressLocalParts "user1" "+" = ("user1", "").
Proof.
  split; [reflexivity|]. split.
  - apply (proj2 (proj2 (addressLocalParts_first_separator "USER1+SUBA" "+"))).
    repeat (constructor;
            [first [left; reflexivity | right; left; reflexivity]|]).
    constructor.
  - apply (proj1 (addressLocalParts_first_separator "user1" "+")).
    intros pre post H. vm_compute in H.
    repeat (destruct pre as [|? pre]; [discriminate|]; injection H as _ H).
    destruct pre; discriminate.
Defined.

(** ** Forwarding to a primary destination *)

Section PrimaryDestination.

Variable message : Message.
Variable primaryDestinationId : nat.
Variable customHeaders : Headers.
Variable configuration : Configuration.

Local Abbreviation regexp := (recoverableForwardImplementationErrorRegExp configuration).

(** One round of the loop: the attempt resolves and the loop breaks, or it
    rejects and the round records the error. *)
Lemma forwardRound_cases (backupDestination : string) (st : DEFAULTS.LoopState)
  (h : list Event) :
  (transport message h backupDestination customHeaders = Resolved
   /\ DEFAULTS.forwardRound message primaryDestinationId customHeaders configuration
        backupDestination st h
      = (Normal (DEFAULTS.Break
                   {| DEFAULTS.s := DEFAULTS.s st;
                      DEFAULTS.ls_wasSuccessful := true;
                      DEFAULTS.ls_hadRecoverableError := DEFAULTS.ls_hadRecoverableError st;
                      DEFAULTS.ls_errorMessages := DEFAULTS.ls_errorMessages st;
                      DEFAULTS.ls_errors := DEFAULTS.ls_errors st |}),
         h ++ [EvForward backupDestination customHeaders Resolved]))
  \/ (exists error,
        transport message h backupDestination customHeaders = Rejected error
        /\ DEFAULTS.forwardRound message primaryDestinationId customHeaders configuration
             backupDestination st h
           = (Normal (DEFAULTS.Next
                        {| DEFAULTS.s := DEFAULTS.s st;
                           DEFAULTS.ls_wasSuccessful := DEFAULTS.ls_wasSuccessful st;
                           DEFAULTS.ls_hadRecoverableError :=
                             testMessage regexp (errorMessage error)
                             || DEFAULTS.ls_hadRecoverableError st;
                           DEFAULTS.ls_errorMessages :=
                             DEFAULTS.ls_errorMessages st
                             ++ failureRecords primaryDestinationId (DEFAULTS.s st)
                                  [(backupDestination, error)];
                           DEFAULTS.ls_errors := DEFAULTS.ls_errors st ++ [error] |}),
              h ++ [EvForward backupDestination customHeaders (Rejected error)])).
Proof.
  unfold DEFAULTS.forwardRound, tryCatch, bind, forward, ret.
  destruct (transport message h backupDestination customHeaders) as [|error] eqn:Ht.
  - left. split; reflexivity.
  - right. exists error. split; [reflexivity|].
    simpl.
    destruct (testMessage _ (errorMessage error)); reflexivity.
Qed.

Lemma failureRecords_app (s0 : nat) (f1 f2 : list (string * Exception)) :
  failureRecords primaryDestinationId s0 (f1 ++ f2)
  = failureRecords primaryDestinationId s0 f1
    ++ failureRecords primaryDestinationId (s0 + length f1) f2.
Proof.
  revert s0. induction f1 as [|f f1 IH]; intros s0; simpl.
  - now rewrite Nat.add_0_r.
  - rewrite IH. do 2 f_equal. f_equal. lia.
Qed.

Lemma answers_app (h e1 e2 : list Event) :
  answers message h (e1 ++ e2) <-> answers message h e1 /\ answers message (h ++ e1) e2.
Proof.
  revert h. induction e1 as [|ev e1 IH]; intros h; simpl.
  - rewrite app_nil_r. tauto.
  - rewrite IH, <- app_assoc. simpl. tauto.
Qed.

(** The loop, from any state in which no attempt has succeeded yet: it
    returns, having attempted the remaining backups in order up to and
    including the first that resolves. *)
Lemma forwardLoop_spec (remaining : list string) :
  forall (st : DEFAULTS.LoopState) (h : list Event),
  exists (failures : list (string * Exception)) (final : list Event) (st' : DEFAULTS.LoopState),
    DEFAULTS.forwardLoop message primaryDestinationId customHeaders configuration
      remaining st h
    = (Normal st', h ++ rejectedEvents customHeaders failures ++ final)
    /\ answers message h (rejectedEvents customHeaders failures ++ final)
    /\ DEFAULTS.s st' = (DEFAULTS.s st + length failures)%nat
    /\ DEFAULTS.ls_hadRecoverableError st'
       = someRecoverable regexp failures || DEFAULTS.ls_hadRecoverableError st
    /\ DEFAULTS.ls_errorMessages st'
       = DEFAULTS.ls_errorMessages st
         ++ failureRecords primaryDestinationId (DEFAULTS.s st) failures
    /\ DEFAULTS.ls_errors st' = DEFAULTS.ls_errors st ++ List.map snd failures
    /\ ((exists a rest,
           remaining = List.map fst failures ++ a :: rest
           /\ final = [EvForward a customHeaders Resolved]
           /\ DEFAULTS.ls_wasSuccessful st' = true)
        \/ (remaining = List.map fst failures
            /\ final = []
            /\ DEFAULTS.ls_wasSuccessful st' = DEFAULTS.ls_wasSuccessful st)).
Proof.
  induction remaining as [|backupDestination rest IH]; intros st h.
  - exists [], [], st. simpl. unfold ret. rewrite !app_nil_r, Nat.add_0_r.
    repeat split; auto.
  - cbn [DEFAULTS.forwardLoop]. unfold bind at 1.
    destruct (forwardRound_cases backupDestination st h)
      as [[Ht ->] | (error & Ht & ->)].
    + exists [], [EvForward backupDestination customHeaders Resolved].
      eexists. unfold ret. simpl. rewrite !app_nil_r, Nat.add_0_r.
      split; [reflexivity|]. repeat split; auto.
      left. exists backupDestination, rest. auto.
    + match goal with
      | |- context [DEFAULTS.forwardLoop _ _ _ _ rest ?st1 ?h1] =>
          destruct (IH st1 h1)
            as (failures & final & st' & Hrun & Hans & Hs & Hrec & Hmsgs & Herrs & Hend)
      end.
      exists ((backupDestination, error) :: failures), final, st'.
      rewrite Hrun. cbn [DEFAULTS.s DEFAULTS.ls_hadRecoverableError
                          DEFAULTS.ls_errorMessages DEFAULTS.ls_errors
                          DEFAULTS.ls_wasSuccessful] in *.
      split; [simpl; f_equal; rewrite <- app_assoc; reflexivity|].
      split; [simpl; split; [exact Ht | exact Hans]|].
      split; [simpl; lia|].
      split.
      { rewrite Hrec. unfold someRecoverable. simpl.
        destruct (testMessage regexp (errorMessage error)), (existsb _ failures),
          (DEFAULTS.ls_hadRecoverableError st); reflexivity. }
      split.
      { rewrite Hmsgs, <- app_assoc. simpl. now rewrite Nat.add_1_r. }
      split; [rewrite Herrs, <- app_assoc; reflexivity|].
      destruct Hend as [(a & rest' & -> & -> & Hw) | (-> & -> & Hw)].
      * left. exists a, rest'. auto.
      * right. auto.
Qed.


(** The whole method: it returns a result, whatever the transport does. *)
Lemma forwardToPrimaryDestination_spec (primaryDestination : list string)
  (h : list Event) :
  exists (failures : list (string * Exception)) (final : list Event)
         (result : PrimaryDestinationResult),
    DEFAULTS.forwardToPrimaryDestination message primaryDestination
      primaryDestinationId customHeaders configuration h
    = (Normal result, h ++ rejectedEvents customHeaders failures ++ final)
    /\ answers message h (rejectedEvents customHeaders failures ++ final)
    /\ hadRecoverableError result = someRecoverable regexp failures
    /\ errorMessages result = failureRecords primaryDestinationId 0 failures
    /\ errors result = List.map snd failures
    /\ ((exists a rest,
           primaryDestination = List.map fst failures ++ a :: rest
           /\ final = [EvForward a customHeaders Resolved]
           /\ wasSuccessful result = true
           /\ successfulDestination result = Some a)
        \/ (primaryDestination = List.map fst failures
            /\ final = []
            /\ wasSuccessful result = false
            /\ successfulDestination result = None)).
Proof.
  unfold DEFAULTS.forwardToPrimaryDestination, bind.
  match goal with
  | |- context [DEFAULTS.forwardLoop _ _ _ _ _ ?st0 _] =>
      destruct (forwardLoop_spec primaryDestination st0 h)
        as (failures & final & st' & Hrun & Hans & Hs & Hrec & Hmsgs & Herrs & Hend)
  end.
  rewrite Hrun. unfold ret. simpl in Hs, Hrec, Hmsgs, Herrs.
  exists failures, final. eexists. split; [reflexivity|].
  cbn [wasSuccessful hadRecoverableError successfulDestination errorMessages errors].
  split; [exact Hans|].
  split; [now rewrite Hrec, orb_false_r|].
  split; [exact Hmsgs|]. split; [exact Herrs|].
  destruct Hend as [(a & rest & Hpd & -> & Hw) | (Hpd & -> & Hw)].
  - left. exists a, rest. rewrite Hw. repeat split; auto.
    unfold JS.at_. rewrite Hs, Hpd. simpl.
    rewrite <- (length_map fst failures). apply list_lookup_middle. reflexivity.
  - right. simpl in Hw. rewrite Hw. auto.
Qed.

End PrimaryDestination.

(** ** Forwarding to a compound destination *)

Lemma failureRecords_messages (primaryDestinationId s0 : nat)
  (failures : list (string * Exception)) :
  List.map em_errorMessage (failureRecords primaryDestinationId s0 failures)
  = List.map (fun f => errorMessage (snd f)) failures.
Proof.
  revert s0. induction failures as [|f failures IH]; intros s0; simpl;
    [reflexivity | now rewrite IH].
Qed.

Lemma thrownErrors_app (e1 e2 : list Event) :
  thrownErrors (e1 ++ e2) = thrownErrors e1 ++ thrownErrors e2.
Proof. unfold thrownErrors. now rewrite flat_map_app. Qed.

Lemma thrownErrors_rejectedEvents (headers : Headers)
  (failures : list (string * Exception)) :
  thrownErrors (rejectedEvents headers failures) = List.map snd failures.
Proof.
  induction failures as [|f failures IH]; simpl; [reflexivity | now rewrite <- IH].
Qed.

Lemma delivered_app (e1 e2 : list Event) :
  delivered (e1 ++ e2) = delivered e1 || delivered e2.
Proof. unfold delivered. apply existsb_app. Qed.

Lemma delivered_rejectedEvents (headers : Headers)
  (failures : list (string * Exception)) :
  delivered (rejectedEvents headers failures) = false.
Proof. induction failures as [|f failures IH]; simpl; [reflexivity | exact IH]. Qed.

Lemma setRejectCount_app (e1 e2 : list Event) :
  setRejectCount (e1 ++ e2) = (setRejectCount e1 + setRejectCount e2)%nat.
Proof. unfold setRejectCount. now rewrite List.filter_app, List.length_app. Qed.

Lemma setRejectCount_rejectedEvents (headers : Headers)
  (failures : list (string * Exception)) :
  setRejectCount (rejectedEvents headers failures) = 0%nat.
Proof. induction failures as [|f failures IH]; simpl; [reflexivity | exact IH]. Qed.

Lemma someRecoverable_records (regexp : string -> bool) (primaryDestinationId s0 : nat)
  (failures : list (string * Exception)) :
  someRecoverable regexp failures = true
  <-> exists record,
        In record (failureRecords primaryDestinationId s0 failures)
        /\ testMessage regexp (em_errorMessage record) = true.
Proof.
  unfold someRecoverable. rewrite existsb_exists. split.
  - intros (f & Hin & Hf).
    assert (Hm : In (errorMessage (snd f))
                   (List.map em_errorMessage
                      (failureRecords primaryDestinationId s0 failures))).
    { rewrite failureRecords_messages. apply in_map_iff. eauto. }
    apply in_map_iff in Hm as (record & Heq & Hrec).
    exists record. split; [exact Hrec | now rewrite Heq].
  - intros (record & Hin & Hrec).
    assert (Hm : In (em_errorMessage record)
                   (List.map (fun f => errorMessage (snd f)) failures)).
    { rewrite <- (failureRecords_messages primaryDestinationId s0).
      apply in_map_iff. eauto. }
    apply in_map_iff in Hm as (f & Heq & Hf).
    exists f. split; [exact Hf | now rewrite Heq].
Qed.

(** What a primary destination contributes to the compound call: its result
    and events, summarised. *)
Lemma forwardToPrimaryDestination_summary (message : Message)
  (primaryDestination : list string) (primaryDestinationId : nat)
  (customHeaders : Headers) (configuration : Configuration) (h : list Event) :
  exists (result : PrimaryDestinationResult) (events : list Event),
    DEFAULTS.forwardToPrimaryDestination message primaryDestination
      primaryDestinationId customHeaders configuration h
    = (Normal result, h ++ events)
    /\ setRejectCount events = 0%nat
    /\ delivered events = wasSuccessful result
    /\ errors result = thrownErrors events
    /\ (wasSuccessful result = true ->
        exists a, successfulDestination result = Some a
                  /\ In (EvForward a customHeaders Resolved) events).
Proof.
  destruct (forwardToPrimaryDestination_spec message primaryDestinationId customHeaders
              configuration primaryDestination h)
    as (failures & final & result & Hrun & _ & _ & _ & Herrs & Hend).
  exists result, (rejectedEvents customHeaders failures ++ final).
  split; [exact Hrun|].
  rewrite setRejectCount_app, delivered_app, thrownErrors_app,
    setRejectCount_rejectedEvents, delivered_rejectedEvents,
    thrownErrors_rejectedEvents.
  destruct Hend as [(a & rest & _ & -> & Hw & Hd) | (_ & -> & Hw & Hd)];
    rewrite Hw, Herrs; simpl; rewrite ?app_nil_r; repeat split; auto.
  - intros _. exists a. split; [exact Hd|]. apply in_or_app. right. now left.
  - discriminate.
Qed.

Section CompoundDestination.

Variable message : Message.
Variable customHeaders : Headers.
Variable configuration : Configuration.

(** [Promise.all] over the primary destinations always fulfils: one result
    per primary destination, and among the events a delivery exactly when
    some result is successful. *)
Lemma promiseAll_primaryPromises (compoundDestination : list (list string)) :
  forall (primaryDestinationIndex : nat) (h : list Event),
  exists (results : list PrimaryDestinationResult) (events : list Event),
    promiseAll (DEFAULTS.primaryPromises message customHeaders configuration
                  compoundDestination primaryDestinationIndex) h
    = (Normal results, h ++ events)
    /\ length results = length compoundDestination
    /\ setRejectCount events = 0%nat
    /\ delivered events = existsb wasSuccessful results
    /\ DEFAULTS.compoundErrors results = thrownErrors events
    /\ (forall result,
          In result results -> wasSuccessful result = true ->
          exists a, successfulDestination result = Some a
                    /\ In (EvForward a customHeaders Resolved) events).
Proof.
  induction compoundDestination as [|primaryDestination rest IH];
    intros primaryDestinationIndex h.
  - exists [], []. simpl. unfold ret. rewrite app_nil_r.
    repeat split; auto. intros ? [].
  - cbn [DEFAULTS.primaryPromises promiseAll].
    destruct (forwardToPrimaryDestination_summary message primaryDestination
                (primaryDestinationIndex + 1) customHeaders configuration h)
      as (result & ev1 & Hrun1 & Hrej1 & Hdel1 & Herr1 & Hin1).
    rewrite Hrun1.
    destruct (IH (S primaryDestinationIndex) (h ++ ev1))
      as (results & ev2 & Hrun2 & Hlen & Hrej2 & Hdel2 & Herr2 & Hin2).
    rewrite Hrun2.
    exists (result :: results), (ev1 ++ ev2).
    rewrite app_assoc. split; [reflexivity|].
    rewrite setRejectCount_app, delivered_app, thrownErrors_app,
      Hrej1, Hrej2, Hdel1, Hdel2.
    repeat split; simpl; auto.
    + unfold DEFAULTS.compoundErrors in *. simpl. now rewrite Herr1, Herr2.
    + intros r [<- | Hr] Hw.
      * destruct (Hin1 Hw) as (a & Hd & Hev). exists a. split; [exact Hd|].
        apply in_or_app. now left.
      * destruct (Hin2 r Hr Hw) as (a & Hd & Hev). exists a. split; [exact Hd|].
        apply in_or_app. now right.
Qed.

Lemma existsb_id_map {A} (f : A -> bool) (l : list A) :
  existsb (fun b : bool => b) (List.map f l) = existsb f l.
Proof. induction l as [|x l IH]; simpl; [reflexivity | now rewrite IH]. Qed.

(** [forwardToCompoundDestination]: it throws or returns as the two constants
    computed from the results say. *)
Lemma forwardToCompoundDestination_spec (actionType : ActionType)
  (compoundDestination : list (list string)) (h : list Event) :
  exists (results : list PrimaryDestinationResult) (events : list Event),
    promiseAll (DEFAULTS.primaryPromises message customHeaders configuration
                  compoundDestination 0) h
    = (Normal results, h ++ events)
    /\ DEFAULTS.forwardToCompoundDestination message actionType compoundDestination
         customHeaders configuration h
       = (if DEFAULTS.compoundHadRecoverableError results
          then Throw (RecoverableForwardError (DEFAULTS.compoundErrors results))
          else Normal (DEFAULTS.compoundWasSuccessful results),
          h ++ events)
    /\ length results = length compoundDestination
    /\ setRejectCount events = 0%nat
    /\ delivered events = existsb wasSuccessful results
    /\ (forall result,
          In result results -> wasSuccessful result = true ->
          exists a, successfulDestination result = Some a
                    /\ In (EvForward a customHeaders Resolved) events).
Proof.
  destruct (promiseAll_primaryPromises compoundDestination 0 h)
    as (results & events & Hrun & Hlen & Hrej & Hdel & _ & Hin).
  exists results, events. split; [exact Hrun|].
  split; [|auto].
  unfold DEFAULTS.forwardToCompoundDestination, bind. rewrite Hrun.
  destruct (DEFAULTS.compoundHadRecoverableError results); reflexivity.
Qed.

End CompoundDestination.

(** C1.  After all primary destinations have produced their results,
    [forwardToCompoundDestination] has [hadRecoverableError] true exactly
    when some result is unsuccessful and had a recoverable error, has
    [wasSuccessful] true exactly when [hadRecoverableError] is false and some
    result is successful, and throws [RecoverableForwardError] exactly when
    [hadRecoverableError] is true; whichever it does, the delivery of every
    successful primary destination is among the events of the call. *)
Theorem forwardToCompoundDestination_aggregation (message : Message)
  (actionType : ActionType) (compoundDestination : list (list string))
  (customHeaders : Headers) (configuration : Configuration) (h : list Event) :
  exists (results : list PrimaryDestinationResult) (events : list Event),
    promiseAll (DEFAULTS.primaryPromises message customHeaders configuration
                  compoundDestination 0) h
    = (Normal results, h ++ events)
    /\ length results = length compoundDestination
    /\ (DEFAULTS.compoundHadRecoverableError results = true
        <-> exists result,
              In result results
              /\ wasSuccessful result = false /\ hadRecoverableError result = true)
    /\ (DEFAULTS.compoundWasSuccessful results = true
        <-> DEFAULTS.compoundHadRecoverableError results = false
            /\ exists result, In result results /\ wasSuccessful result = true)
    /\ ((DEFAULTS.compoundHadRecoverableError results = true
         /\ DEFAULTS.forwardToCompoundDestination message actionType
              compoundDestination customHeaders configuration h
            = (Throw (RecoverableForwardError (DEFAULTS.compoundErrors results)),
               h ++ events))
        \/ (DEFAULTS.compoundHadRecoverableError results = false
            /\ DEFAULTS.forwardToCompoundDestination message actionType
                 compoundDestination customHeaders configuration h
               = (Normal (DEFAULTS.compoundWasSuccessful results), h ++ events)))
    /\ (forall result,
          In result results -> wasSuccessful result = true ->
          exists a, successfulDestination result = Some a
                    /\ In (EvForward a customHeaders Resolved) events).
Proof.
  destruct (forwardToCompoundDestination_spec message customHeaders configuration
              actionType compoundDestination h)
    as (results & events & Hall & Hrun & Hlen & _ & _ & Hdelivered).
  exists results, events.
  split; [exact Hall|]. split; [exact Hlen|].
  assert (Hrec : DEFAULTS.compoundHadRecoverableError results = true
                 <-> exists result,
                       In result results
                       /\ wasSuccessful result = false
                       /\ hadRecoverableError result = true).
  { unfold DEFAULTS.compoundHadRecoverableError.
    rewrite existsb_id_map, existsb_exists.
    split; intros (result & Hin & Hr); exists result; (split; [exact Hin|]).
    - apply andb_true_iff in Hr as [Hw Hr]. apply negb_true_iff in Hw. auto.
    - destruct Hr as [-> ->]. reflexivity. }
  split; [exact Hrec|]. split.
  - unfold DEFAULTS.compoundWasSuccessful.
    rewrite andb_true_iff, negb_true_iff, existsb_id_map, existsb_exists. tauto.
  - split; [|exact Hdelivered].
    rewrite Hrun.
    destruct (DEFAULTS.compoundHadRecoverableError results); [left | right]; auto.
Qed.

(** C3.  [forwardToPrimaryDestination] attempts the backups in list order.
    Either some attempts fail and the next one resolves: then nothing after it
    is attempted, and the result is successful with that address as
    [successfulDestination].  Or every backup is attempted and fails: then
    the result is unsuccessful, and [hadRecoverableError] is true exactly when
    the message of one of the recorded failures, any of them, matches the
    recoverable-error pattern.  (The list may even be empty.) *)
Theorem forwardToPrimaryDestination_failover (message : Message)
  (primaryDestination : list string) (primaryDestinationId : nat)
  (customHeaders : Headers) (configuration : Configuration) (h : list Event) :
  exists (failures : list (string * Exception)) (result : PrimaryDestinationResult),
    errorMessages result = failureRecords primaryDestinationId 0 failures
    /\ ((exists a rest,
           primaryDestination = List.map fst failures ++ a :: rest
           /\ DEFAULTS.forwardToPrimaryDestination message primaryDestination
                primaryDestinationId customHeaders configuration h
              = (Normal result,
                 h ++ rejectedEvents customHeaders failures
                   ++ [EvForward a customHeaders Resolved])
           /\ answers message h
                (rejectedEvents customHeaders failures
                 ++ [EvForward a customHeaders Resolved])
           /\ wasSuccessful result = true
           /\ successfulDestination result = Some a)
        \/ (primaryDestination = List.map fst failures
            /\ DEFAULTS.forwardToPrimaryDestination message primaryDestination
                 primaryDestinationId customHeaders configuration h
               = (Normal result, h ++ rejectedEvents customHeaders failures)
            /\ answers message h (rejectedEvents customHeaders failures)
            /\ wasSuccessful result = false
            /\ successfulDestination result = None
            /\ (hadRecoverableError result = true
                <-> exists record,
                      In record (errorMessages result)
                      /\ testMessage
                           (recoverableForwardImplementationErrorRegExp configuration)
                           (em_errorMessage record) = true))).
Proof.
  destruct (forwardToPrimaryDestination_spec message primaryDestinationId customHeaders
              configuration primaryDestination h)
    as (failures & final & result & Hrun & Hans & Hrec & Hmsgs & _ & Hend).
  exists failures, result. split; [exact Hmsgs|].
  destruct Hend as [(a & rest & Hpd & -> & Hw & Hd) | (Hpd & -> & Hw & Hd)].
  - left. exists a, rest. auto.
  - right. rewrite app_nil_r in Hrun, Hans.
    repeat (split; [assumption|]).
    rewrite Hrec, Hmsgs. apply someRecoverable_records.
Qed.

(** The two-primary scenario of the specification: the first primary
    destination is delivered, the only backup of the second fails with a
    recoverable error, and the call throws. *)
Example recoverable_dominance :
  let message :=
    {| to := "user@domain.com";
       transport := fun _ address _ =>
         if String.eqb address "b@email.com"
         then Rejected (Error "could not send email")
         else Resolved |} in
  DEFAULTS.forwardToCompoundDestination message AcceptForwarding
    [["a@email.com"]; ["b@email.com"]] ("X-My-Email-Forwarding", "pass")
    {| recoverableForwardImplementationErrorRegExp := fun _ => true |} []
  = (Throw (RecoverableForwardError [Error "could not send email"]),
     [EvForward "a@email.com" ("X-My-Email-Forwarding", "pass") Resolved;
      EvForward "b@email.com" ("X-My-Email-Forwarding", "pass")
        (Rejected (Error "could not send email"))]).
Proof. reflexivity. Qed.

(** ** Destination validation *)

Lemma arrayIncludes_In (l : list string) (x : string) :
  JS.arrayIncludes l x = true <-> In x l.
Proof.
  unfold JS.arrayIncludes. rewrite existsb_exists. split.
  - intros (y & Hin & Heq). apply String.eqb_eq in Heq. now subst.
  - intros Hin. exists x. split; [exact Hin | apply String.eqb_refl].
Qed.

Lemma arrayIncludes_in_dec (l : list string) (x : string) :
  JS.arrayIncludes l x = if in_dec string_dec x l then true else false.
Proof.
  destruct (in_dec string_dec x l) as [Hin | Hnin].
  - now apply arrayIncludes_In.
  - destruct (JS.arrayIncludes l x) eqn:H; [|reflexivity].
    apply arrayIncludes_In in H. contradiction.
Qed.

Section FirstOccurrences.

Lemma firstOccurrences_app (l1 l2 seen : list string) :
  firstOccurrences seen (l1 ++ l2)
  = firstOccurrences seen l1
    ++ firstOccurrences (seen ++ firstOccurrences seen l1) l2.
Proof.
  revert seen. induction l1 as [|x l1 IH]; intros seen; simpl.
  - now rewrite app_nil_r.
  - destruct (in_dec string_dec x seen); [apply IH|].
    rewrite IH. simpl. now rewrite <- app_assoc.
Qed.

Lemma laterOccurrences_app (l1 l2 seen : list string) :
  laterOccurrences seen (l1 ++ l2)
  = laterOccurrences seen l1
    ++ laterOccurrences (seen ++ firstOccurrences seen l1) l2.
Proof.
  revert seen. induction l1 as [|x l1 IH]; intros seen; simpl.
  - now rewrite app_nil_r.
  - destruct (in_dec string_dec x seen); [now rewrite IH|].
    rewrite IH. now rewrite <- app_assoc.
Qed.

Lemma firstOccurrences_not_seen (l seen : list string) (x : string) :
  In x (firstOccurrences seen l) -> In x l /\ ~ In x seen.
Proof.
  revert seen. induction l as [|y l IH]; intros seen; simpl; [tauto|].
  destruct (in_dec string_dec y seen) as [Hy | Hy].
  - intros H. apply IH in H. tauto.
  - intros [<- | H]; [tauto|]. apply IH in H as [Hin Hnot].
    split; [tauto|]. intros Hs. apply Hnot, in_or_app. now left.
Qed.

(** An address not seen before occurs once among the first occurrences when
    it occurs at all. *)
Lemma count_firstOccurrences (l seen : list string) (x : string) :
  count_occ string_dec (firstOccurrences seen l) x
  = if in_dec string_dec x seen then 0%nat
    else if in_dec string_dec x l then 1%nat else 0%nat.
Proof.
  revert seen. induction l as [|y l IH]; intros seen.
  - simpl. now destruct (in_dec string_dec x seen).
  - cbn [firstOccurrences].
    destruct (in_dec string_dec y seen) as [Hy | Hy].
    + rewrite IH. destruct (in_dec string_dec x seen) as [Hx | Hx]; [reflexivity|].
      destruct (in_dec string_dec x l) as [Hl | Hl];
        destruct (in_dec string_dec x (y :: l)) as [Hyl | Hyl]; try reflexivity.
      * destruct Hyl. now right.
      * destruct Hyl as [-> | Hyl]; contradiction.
    + cbn [count_occ]. rewrite IH.
      destruct (string_dec y x) as [-> | Hne].
      * destruct (in_dec string_dec x seen) as [Hx | Hx]; [contradiction|].
        destruct (in_dec string_dec x (seen ++ [x])) as [_ | Hn].
        -- destruct (in_dec string_dec x (x :: l)) as [_ | Hn]; [reflexivity|].
           destruct Hn. now left.
        -- destruct Hn. apply in_or_app. right. now left.
      * destruct (in_dec string_dec x seen) as [Hx | Hx].
        -- destruct (in_dec string_dec x (seen ++ [y])) as [_ | Hn]; [reflexivity|].
           destruct Hn. apply in_or_app. now left.
        -- destruct (in_dec string_dec x (seen ++ [y])) as [Hs | _].
           ++ apply in_app_or in Hs as [Hs | [Hs | []]]; [contradiction | congruence].
           ++ destruct (in_dec string_dec x l) as [Hl | Hl];
                destruct (in_dec string_dec x (y :: l)) as [Hyl | Hyl]; try reflexivity.
              ** destruct Hyl. now right.
              ** destruct Hyl as [Heq | Hyl]; [congruence | contradiction].
Qed.

(** Every occurrence is a first or a later one. *)
Lemma count_first_later (l seen : list string) (x : string) :
  (count_occ string_dec (firstOccurrences seen l) x
   + count_occ string_dec (laterOccurrences seen l) x)%nat
  = count_occ string_dec l x.
Proof.
  revert seen. induction l as [|y l IH]; intros seen; [reflexivity|].
  cbn [firstOccurrences laterOccurrences].
  destruct (in_dec string_dec y seen);
    [specialize (IH seen) | specialize (IH (seen ++ [y]))];
    cbn [count_occ]; destruct (string_dec y x); lia.
Qed.

Lemma concat_survivors (primaries : list (list string)) (seen : list string) :
  List.concat (survivors seen primaries) = firstOccurrences seen (List.concat primaries).
Proof.
  revert seen. induction primaries as [|p rest IH]; intros seen; simpl;
    [reflexivity|].
  now rewrite IH, firstOccurrences_app.
Qed.

Lemma concat_nonEmpty (ps : list (list string)) :
  List.concat (List.filter nonEmpty ps) = List.concat ps.
Proof.
  induction ps as [|p ps IH]; simpl; [reflexivity|].
  destruct p as [|x p]; simpl; [exact IH | now rewrite IH].
Qed.

End FirstOccurrences.

Lemma first_split (l : list string) (x : string) :
  In x l -> exists pre post, l = pre ++ x :: post /\ ~ In x pre.
Proof.
  induction l as [|y l IH]; [intros []|].
  destruct (string_dec y x) as [-> | Hne].
  - intros _. exists [], l. split; [reflexivity | intros []].
  - intros [Heq | Hin]; [contradiction|].
    destruct (IH Hin) as (pre & post & -> & Hpre).
    exists (y :: pre), post. split; [reflexivity|].
    intros [Heq | H]; [contradiction | exact (Hpre H)].
Qed.

Section Validation.

Variables FORMAT_PRIMARY_ADDRESS_SEPARATOR FORMAT_BACKUP_ADDRESS_SEPARATOR
  FORMAT_LOCAL_PART_SEPARATOR : string.
Variable messageUser : string.
Variable formatValidEmailAddressRegExp : string -> bool.

Local Abbreviation validatePrimary :=
  (Worker.validatePrimaryDestination FORMAT_BACKUP_ADDRESS_SEPARATOR
     FORMAT_LOCAL_PART_SEPARATOR messageUser formatValidEmailAddressRegExp).
Local Abbreviation validateCompound :=
  (Worker.validateCompoundDestination FORMAT_PRIMARY_ADDRESS_SEPARATOR
     FORMAT_BACKUP_ADDRESS_SEPARATOR FORMAT_LOCAL_PART_SEPARATOR messageUser
     formatValidEmailAddressRegExp).
Local Abbreviation compoundStep :=
  (Worker.compoundStep FORMAT_BACKUP_ADDRESS_SEPARATOR FORMAT_LOCAL_PART_SEPARATOR
     messageUser formatValidEmailAddressRegExp).
Local Abbreviation addressesOf :=
  (validAddresses FORMAT_PRIMARY_ADDRESS_SEPARATOR FORMAT_BACKUP_ADDRESS_SEPARATOR
     FORMAT_LOCAL_PART_SEPARATOR messageUser formatValidEmailAddressRegExp).

(** [validatePrimaryDestination] sorts the candidates: the valid ones, and
    the invalid ones that are not empty. *)
Lemma validatePrimaryDestination_filter (primaryDestinationText : string) :
  let cs := candidates FORMAT_BACKUP_ADDRESS_SEPARATOR FORMAT_LOCAL_PART_SEPARATOR
              messageUser primaryDestinationText in
  Worker.pv_validBackup (validatePrimary primaryDestinationText)
  = List.filter formatValidEmailAddressRegExp cs
  /\ Worker.pv_invalidBackup (validatePrimary primaryDestinationText)
     = List.filter
         (fun c => negb (formatValidEmailAddressRegExp c)
                   && negb (String.eqb c EmptyString)) cs.
Proof.
  unfold Worker.validatePrimaryDestination, candidates.
  generalize (JS.split primaryDestinationText FORMAT_BACKUP_ADDRESS_SEPARATOR).
  intros pieces. cbn zeta.
  set (expand := Worker.expandDestination FORMAT_LOCAL_PART_SEPARATOR messageUser).
  set (step := Worker.primaryStep FORMAT_LOCAL_PART_SEPARATOR messageUser
                 formatValidEmailAddressRegExp).
  assert (H : forall acc,
    Worker.pv_validBackup (fold_left step pieces acc)
    = Worker.pv_validBackup acc
      ++ List.filter formatValidEmailAddressRegExp (List.map expand pieces)
    /\ Worker.pv_invalidBackup (fold_left step pieces acc)
       = Worker.pv_invalidBackup acc
         ++ List.filter
              (fun c => negb (formatValidEmailAddressRegExp c)
                        && negb (String.eqb c EmptyString))
              (List.map expand pieces)).
  { induction pieces as [|piece pieces IH]; intros acc.
    - simpl. now rewrite !app_nil_r.
    - cbn [fold_left List.map List.filter].
      destruct (IH (step acc piece)) as [-> ->].
      subst step. unfold Worker.primaryStep, DEFAULTS.isValidEmailAddress.
      fold expand.
      destruct (formatValidEmailAddressRegExp (expand piece)); simpl.
      + now rewrite <- app_assoc.
      + destruct (String.eqb (expand piece) EmptyString); simpl;
          now rewrite <- ?app_assoc. }
  exact (H {| Worker.pv_validBackup := []; Worker.pv_invalidBackup := [] |}).
Qed.

(** The inner [reduce]: first occurrences join the primary destination and
    the valid addresses seen, later ones the duplicates. *)
Lemma dedupeStep_fold (vs : list string) :
  forall (acc : Worker.CompoundValidation) (newPrimaryDestination : list string),
    fold_left Worker.dedupeStep vs (acc, newPrimaryDestination)
    = ({| Worker.validPrimary := Worker.validPrimary acc;
          Worker.validBackup :=
            Worker.validBackup acc ++ firstOccurrences (Worker.validBackup acc) vs;
          Worker.invalidBackup := Worker.invalidBackup acc;
          Worker.duplicateBackup :=
            Worker.duplicateBackup acc ++ laterOccurrences (Worker.validBackup acc) vs |},
       newPrimaryDestination ++ firstOccurrences (Worker.validBackup acc) vs).
Proof.
  induction vs as [|v vs IH]; intros acc newPrimaryDestination.
  - destruct acc. simpl. now rewrite !app_nil_r.
  - cbn [fold_left]. unfold Worker.dedupeStep at 2.
    rewrite arrayIncludes_in_dec. cbn [firstOccurrences laterOccurrences].
    destruct (in_dec string_dec v (Worker.validBackup acc)); simpl negb; cbv iota;
      rewrite IH; simpl; now rewrite <- ?app_assoc.
Qed.

(** The outer [reduce], from any accumulator. *)
Lemma compoundStep_fold (texts : list string) :
  forall acc : Worker.CompoundValidation,
    let addresses :=
      List.map (fun text => Worker.pv_validBackup (validatePrimary text)) texts in
    fold_left compoundStep texts acc
    = {| Worker.validPrimary :=
           Worker.validPrimary acc
           ++ List.filter nonEmpty (survivors (Worker.validBackup acc) addresses);
         Worker.validBackup :=
           Worker.validBackup acc
           ++ firstOccurrences (Worker.validBackup acc) (List.concat addresses);
         Worker.invalidBackup := Worker.invalidBackup acc;
         Worker.duplicateBackup :=
           Worker.duplicateBackup acc
           ++ laterOccurrences (Worker.validBackup acc) (List.concat addresses) |}.
Proof.
  induction texts as [|text texts IH]; intros acc.
  - destruct acc. simpl. now rewrite !app_nil_r.
  - cbn zeta in *. cbn [fold_left List.map List.concat survivors List.filter].
    unfold Worker.compoundStep at 2. rewrite dedupeStep_fold. cbn [app].
    rewrite firstOccurrences_app, laterOccurrences_app.
    match goal with
    | |- context [(0 <? length ?p)%nat] => change (0 <? length p)%nat with (nonEmpty p)
    end.
    destruct (nonEmpty _); rewrite IH; simpl; now rewrite <- ?app_assoc.
Qed.

(** What [validateCompoundDestination] returns. *)
Lemma validateCompoundDestination_spec (compoundDestinationText : string) :
  validateCompound compoundDestinationText
  = {| Worker.validPrimary :=
         List.filter nonEmpty (survivors [] (addressesOf compoundDestinationText));
       Worker.validBackup :=
         firstOccurrences [] (List.concat (addressesOf compoundDestinationText));
       Worker.invalidBackup := [];
       Worker.duplicateBackup :=
         laterOccurrences [] (List.concat (addressesOf compoundDestinationText)) |}.
Proof.
  unfold Worker.validateCompoundDestination. now rewrite compoundStep_fold.
Qed.

End Validation.

(** Whatever the text, the compound output lists no invalid address: the
    array of invalid candidates is never written to. *)
Lemma validateCompoundDestination_invalidBackup
  (FORMAT_PRIMARY_ADDRESS_SEPARATOR FORMAT_BACKUP_ADDRESS_SEPARATOR
   FORMAT_LOCAL_PART_SEPARATOR messageUser : string)
  (formatValidEmailAddressRegExp : string -> bool) (compoundDestinationText : string) :
  Worker.invalidBackup
    (Worker.validateCompoundDestination FORMAT_PRIMARY_ADDRESS_SEPARATOR
       FORMAT_BACKUP_ADDRESS_SEPARATOR FORMAT_LOCAL_PART_SEPARATOR messageUser
       formatValidEmailAddressRegExp compoundDestinationText)
  = [].
Proof. now rewrite validateCompoundDestination_spec. Qed.

(** Every address of [validPrimary] is a candidate the pattern accepts. *)
Lemma validPrimary_valid
  (FORMAT_PRIMARY_ADDRESS_SEPARATOR FORMAT_BACKUP_ADDRESS_SEPARATOR
   FORMAT_LOCAL_PART_SEPARATOR messageUser : string)
  (formatValidEmailAddressRegExp : string -> bool)
  (compoundDestinationText address : string) :
  In address
    (List.concat
       (Worker.validPrimary
          (Worker.validateCompoundDestination FORMAT_PRIMARY_ADDRESS_SEPARATOR
             FORMAT_BACKUP_ADDRESS_SEPARATOR FORMAT_LOCAL_PART_SEPARATOR messageUser
             formatValidEmailAddressRegExp compoundDestinationText))) ->
  formatValidEmailAddressRegExp address = true.
Proof.
  rewrite validateCompoundDestination_spec. cbn [Worker.validPrimary].
  rewrite concat_nonEmpty, concat_survivors. intros H.
  apply firstOccurrences_not_seen in H as [H _].
  apply in_concat in H as (p & Hp & Hin).
  unfold validAddresses in Hp. apply in_map_iff in Hp as (text & <- & _).
  destruct (validatePrimaryDestination_filter FORMAT_BACKUP_ADDRESS_SEPARATOR
              FORMAT_LOCAL_PART_SEPARATOR messageUser formatValidEmailAddressRegExp text)
    as [Hv _].
  rewrite Hv in Hin. now apply filter_In in Hin.
Qed.

(** C4.  When a valid address [X] occurs more than once in a compound
    destination text, within a primary or across primaries, [validPrimary]
    holds [X] exactly once, right after what survives of the addresses before
    its first appearance; its other occurrences, and only those of its
    occurrences, are in [duplicateBackup]; each primary destination keeps the
    first occurrences it holds, and the ones that keep nothing are left out. *)
Theorem validateCompoundDestination_dedup
  (FORMAT_PRIMARY_ADDRESS_SEPARATOR FORMAT_BACKUP_ADDRESS_SEPARATOR
   FORMAT_LOCAL_PART_SEPARATOR messageUser : string)
  (formatValidEmailAddressRegExp : string -> bool)
  (compoundDestinationText X : string) :
  let addresses :=
    validAddresses FORMAT_PRIMARY_ADDRESS_SEPARATOR FORMAT_BACKUP_ADDRESS_SEPARATOR
      FORMAT_LOCAL_PART_SEPARATOR messageUser formatValidEmailAddressRegExp
      compoundDestinationText in
  let output :=
    Worker.validateCompoundDestination FORMAT_PRIMARY_ADDRESS_SEPARATOR
      FORMAT_BACKUP_ADDRESS_SEPARATOR FORMAT_LOCAL_PART_SEPARATOR messageUser
      formatValidEmailAddressRegExp compoundDestinationText in
  (1 < count_occ string_dec (List.concat addresses) X)%nat ->
  count_occ string_dec (List.concat (Worker.validPrimary output)) X = 1%nat
  /\ (exists pre post post',
        List.concat addresses = pre ++ X :: post
        /\ ~ In X pre
        /\ List.concat (Worker.validPrimary output)
           = firstOccurrences [] pre ++ X :: post')
  /\ (count_occ string_dec (Worker.duplicateBackup output) X
      = count_occ string_dec (List.concat addresses) X - 1)%nat
  /\ Worker.duplicateBackup output = laterOccurrences [] (List.concat addresses)
  /\ Worker.validPrimary output = List.filter nonEmpty (survivors [] addresses)
  /\ Forall (fun primaryDestination => primaryDestination <> [])
       (Worker.validPrimary output).
Proof.
  intros addresses output Hcount. subst output.
  rewrite validateCompoundDestination_spec.
  cbn [Worker.validPrimary Worker.duplicateBackup]. fold addresses.
  rewrite concat_nonEmpty, concat_survivors.
  assert (Hin : In X (List.concat addresses)).
  { apply (count_occ_In string_dec). lia. }
  assert (Hone : count_occ string_dec (firstOccurrences [] (List.concat addresses)) X
                 = 1%nat).
  { rewrite count_firstOccurrences.
    destruct (in_dec string_dec X []) as [[] | _].
    destruct (in_dec string_dec X (List.concat addresses)); [reflexivity | contradiction]. }
  split; [exact Hone|]. split; [|split; [|split; [reflexivity | split; [reflexivity|]]]].
  - destruct (first_split _ _ Hin) as (pre & post & Hsplit & Hpre).
    exists pre, post. eexists. split; [exact Hsplit|]. split; [exact Hpre|].
    rewrite Hsplit, firstOccurrences_app. f_equal. cbn [firstOccurrences].
    destruct (in_dec string_dec X ([] ++ firstOccurrences [] pre)) as [H | _];
      [|reflexivity].
    apply firstOccurrences_not_seen in H as [H _]. contradiction.
  - pose proof (count_first_later (List.concat addresses) [] X). lia.
  - apply List.Forall_forall. intros p Hp. apply filter_In in Hp as [_ Hp].
    destruct p; [discriminate | congruence].
Qed.

(** The address [a@email.com] stands in both primary destinations of the
    text and survives in the first only. *)
Lemma validateCompoundDestination_dedup_witness :
  let valid := fun address => JS.includes address "@" in
  let text := "a@email.com:b@email.com,a@email.com" in
  (1 < count_occ string_dec
         (List.concat (validAddresses "," ":" "+" "user1" valid text)) "a@email.com")%nat
  /\ Worker.validPrimary (Worker.validateCompoundDestination "," ":" "+" "user1" valid text)
     = [["a@email.com"; "b@email.com"]]
  /\ count_occ string_dec
       (List.concat
          (Worker.validPrimary
             (Worker.validateCompoundDestination "," ":" "+" "user1" valid text)))
       "a@email.com" = 1%nat.
Proof.
  intros valid text.
  assert (H : (1 < count_occ string_dec
                     (List.concat (validAddresses "," ":" "+" "user1" valid text))
                     "a@email.com")%nat) by (vm_compute; lia).
  split; [exact H|]. split; [reflexivity|].
  exact (proj1 (validateCompoundDestination_dedup "," ":" "+" "user1" valid text
                  "a@email.com" H)).
Defined.

(** C5 (the code does otherwise).  The candidate [not-an-address] is not
    empty and the pattern refuses it; [validatePrimaryDestination] lists it
    as invalid and [validPrimary] leaves it out, but the [invalidBackup] of
    the compound output is empty. *)
Theorem validateCompoundDestination_loses_invalid :
  let valid := fun address => JS.includes address "@" in
  let text := "user1@email.com:not-an-address" in
  In "not-an-address" (candidates ":" "+" "user1" text)
  /\ DEFAULTS.isValidEmailAddress "not-an-address" valid = false
  /\ Worker.pv_invalidBackup (Worker.validatePrimaryDestination ":" "+" "user1" valid text)
     = ["not-an-address"]
  /\ Worker.validPrimary (Worker.validateCompoundDestination "," ":" "+" "user1" valid text)
     = [["user1@email.com"]]
  /\ Worker.invalidBackup (Worker.validateCompoundDestination "," ":" "+" "user1" valid text)
     = [].
Proof.
  cbv zeta. split; [right; left; reflexivity|]. repeat split; reflexivity.
Qed.

(** ** Reject reason and allow checks *)

Section Includes.

Variable c : ascii.

Lemma indexOfFrom_char (s : string) (i : Z) :
  0 <= i ->
  (0 <=? JS.indexOfFrom (String c EmptyString) s i) = hasChar c s.
Proof.
  revert i. induction s as [|d s IH]; intros i Hi.
  - reflexivity.
  - rewrite indexOfFrom_equation. cbn [String.prefix hasChar].
    destruct (ascii_dec c d) as [-> | Hne].
    + rewrite Ascii.eqb_refl. destruct s; simpl; now apply Z.leb_le.
    + apply Ascii.eqb_neq in Hne. rewrite Hne. simpl. apply IH. lia.
Qed.

Lemma includes_char (s : string) :
  JS.includes s (String c EmptyString) = hasChar c s.
Proof. unfold JS.includes, JS.indexOf. now apply indexOfFrom_char. Qed.

Hypothesis c_visible : JS.isWhiteSpace c = false.

Lemma hasChar_trimStart (s : string) : hasChar c (JS.trimStart s) = hasChar c s.
Proof.
  induction s as [|d s IH]; [reflexivity|]. cbn [JS.trimStart].
  destruct (JS.isWhiteSpace d) eqn:Hd; [|reflexivity].
  rewrite IH. cbn [hasChar].
  destruct (Ascii.eqb_spec c d) as [-> | _]; [congruence | reflexivity].
Qed.

Lemma hasChar_trimEnd (s : string) : hasChar c (JS.trimEnd s) = hasChar c s.
Proof.
  induction s as [|d s IH]; [reflexivity|]. cbn [JS.trimEnd hasChar].
  rewrite <- IH.
  destruct (JS.trimEnd s) as [|e t].
  - destruct (JS.isWhiteSpace d) eqn:Hd; cbn [hasChar]; [|reflexivity].
    destruct (Ascii.eqb_spec c d) as [-> | _]; [congruence | reflexivity].
  - reflexivity.
Qed.

Lemma hasChar_trim (s : string) : hasChar c (JS.trim s) = hasChar c s.
Proof. unfold JS.trim. now rewrite hasChar_trimEnd, hasChar_trimStart. Qed.

End Includes.

(** Trimming neither brings in nor takes away an at sign. *)
Lemma includes_at_trim (s : string) :
  JS.includes (JS.trim s) "@" = JS.includes s "@".
Proof. rewrite !includes_char. now apply hasChar_trim. Qed.

Lemma acceptable_orElse (tested value rest : string) :
  JS.includes tested "@" = JS.includes value "@" ->
  Worker.orElse (Worker.unlessAddress tested value) rest
  = if acceptableReason value then value else rest.
Proof.
  intros Htest. unfold Worker.unlessAddress, acceptableReason. rewrite Htest.
  destruct (JS.includes value "@"); simpl; [reflexivity|].
  destruct value; reflexivity.
Qed.

(** C6, as the code has it.  When direct-rejecting, the reason is the first
    candidate, in the order resolved per-user reject treatment, resolved
    global reject treatment, trimmed environment reject treatment, hard
    default, that is not empty and holds no at sign; and the local part of
    the recipient is put before the reason exactly when the reason starts
    with a code unit that is no letter and no digit. *)
Theorem rejectReason_first_acceptable
  (userRejectTreatment globalRejectTreatment REJECT_TREATMENT messageLocalPart : string) :
  let reason :=
    Worker.userRejectReason userRejectTreatment globalRejectTreatment REJECT_TREATMENT in
  List.find acceptableReason
    [userRejectTreatment; globalRejectTreatment; JS.trim REJECT_TREATMENT;
     DEFAULTS.REJECT_TREATMENT]
  = Some reason
  /\ Worker.fullRejectReason reason messageLocalPart
     = (if FIXED.startsWithNonAlphanumericRegExp reason
        then messageLocalPart +:+ reason
        else reason)
  /\ Worker.fullRejectReason ": spam" "user+tag" = "user+tag: spam"
  /\ Worker.fullRejectReason "No such recipient" "user+tag" = "No such recipient".
Proof.
  cbv zeta. split; [|split; [|split; reflexivity]].
  - unfold Worker.userRejectReason.
    rewrite !acceptable_orElse by (reflexivity || (symmetry; apply includes_at_trim)).
    cbn [List.find].
    destruct (acceptableReason userRejectTreatment); [reflexivity|].
    destruct (acceptableReason globalRejectTreatment); [reflexivity|].
    destruct (acceptableReason (JS.trim REJECT_TREATMENT)); reflexivity.
  - unfold Worker.fullRejectReason. cbn [FIXED.prepend FIXED.cond_test FIXED.cond_prepend].
    reflexivity.
Qed.

(** C6 as stated fails where a candidate is empty: with the
    environment's reject treatment set to the empty string and nothing
    stored, the resolved per-user reject treatment is the empty string, which
    holds no at sign, yet the reason is the hard default. *)
Lemma rejectReason_empty_candidate_counterexample :
  let environment := configured "" "" "*" "" "false" ∅ in
  let resolved :=
    Worker.userRejectTreatment (FORMAT_REJECT_SEPARATOR environment)
      (Worker.userDestinationWithRejectTreatment environment "user2")
      (Worker.globalRejectTreatment environment) in
  resolved = EmptyString
  /\ List.find holdsNoAddress
       [resolved; Worker.globalRejectTreatment environment;
        REJECT_TREATMENT environment; DEFAULTS.REJECT_TREATMENT]
     = Some EmptyString
  /\ Worker.userRejectReason resolved (Worker.globalRejectTreatment environment)
       (REJECT_TREATMENT environment)
     = "Address does not exist"
  /\ snd (Worker.email sampleRegExp sampleHeaders
            {| to := "user2@domain.com"; transport := fun _ _ _ => Resolved |}
            environment [])
     = [EvSetReject "Address does not exist"].
Proof. cbv zeta. repeat split; vm_compute; reflexivity. Qed.

(** C7.  The message user is allowed exactly when its key is in the store
    and stored user configuration is enabled (whatever the stored value), or
    the resolved global users value is the wildcard, or the user is one of
    the trimmed entries of the resolved global users list. *)
Theorem messageUserIsAllowed_iff (environment : Environment) (messageUser : string) :
  Worker.messageUserIsAllowed (FORMAT_PRIMARY_ADDRESS_SEPARATOR environment)
    (Worker.userDestinationWithRejectTreatment environment messageUser)
    (Worker.globalUsers environment) messageUser = true
  <-> (Worker.useStoredUserConfiguration environment = true
       /\ is_Some (MAP environment !! messageUser))
      \/ Worker.globalUsers environment = "*"
      \/ In messageUser
           (List.map JS.trim
              (JS.split (Worker.globalUsers environment)
                 (FORMAT_PRIMARY_ADDRESS_SEPARATOR environment))).
Proof.
  unfold Worker.messageUserIsAllowed, Worker.userDestinationWithRejectTreatment,
    Worker.storedConfigurationValue.
  rewrite !orb_true_iff, String.eqb_eq, arrayIncludes_In.
  split.
  - intros [[Hstored | Hwild] | Hin]; [left | tauto | tauto].
    destruct (Worker.useStoredUserConfiguration environment); [|discriminate].
    destruct (MAP environment !! messageUser) as [v|]; [|discriminate].
    split; [reflexivity | eauto].
  - intros [[Hload [v Hv]] | [Hwild | Hin]]; [left; left | tauto | tauto].
    now rewrite Hload, Hv.
Qed.

(** A user whose stored value is the empty string is allowed, although no
    global list names it. *)
Example messageUserIsAllowed_empty_value :
  let environment := configured "" "" "*" "" "false" {[ "user1" := "" ]} in
  Worker.messageUserIsAllowed (FORMAT_PRIMARY_ADDRESS_SEPARATOR environment)
    (Worker.userDestinationWithRejectTreatment environment "user1")
    (Worker.globalUsers environment) "user1" = true
  /\ Worker.messageUserIsAllowed (FORMAT_PRIMARY_ADDRESS_SEPARATOR environment)
       (Worker.userDestinationWithRejectTreatment environment "user2")
       (Worker.globalUsers environment) "user2" = false.
Proof. split; vm_compute; reflexivity. Qed.

(** C8, as the code has it.  With a resolved subaddress value that starts
    with the separator, a recipient without subaddress is not allowed; with
    one that does not, it is.  A recipient with a subaddress is allowed
    exactly when the value, its leading separator removed and then trimmed,
    is the wildcard or has the subaddress among its trimmed entries. *)
Theorem messageSubaddressIsAllowed_cases
  (FORMAT_PRIMARY_ADDRESS_SEPARATOR FORMAT_LOCAL_PART_SEPARATOR
   userSubaddresses messageSubaddress : string) :
  let allowed :=
    Worker.messageSubaddressIsAllowed FORMAT_PRIMARY_ADDRESS_SEPARATOR
      FORMAT_LOCAL_PART_SEPARATOR userSubaddresses in
  let concrete :=
    JS.trim (Worker.removeLeading FORMAT_LOCAL_PART_SEPARATOR userSubaddresses) in
  ((exists rest, userSubaddresses = FORMAT_LOCAL_PART_SEPARATOR +:+ rest) ->
   allowed EmptyString = false)
  /\ (messageSubaddress <> EmptyString ->
      (allowed messageSubaddress = true
       <-> concrete = "*"
           \/ In messageSubaddress
                (List.map JS.trim (JS.split concrete FORMAT_PRIMARY_ADDRESS_SEPARATOR))))
  /\ ((forall rest, userSubaddresses <> FORMAT_LOCAL_PART_SEPARATOR +:+ rest) ->
      allowed EmptyString = true).
Proof.
  cbv zeta. unfold Worker.messageSubaddressIsAllowed, Worker.userRequiresSubaddress,
    Worker.userConcreteSubaddresses, JS.startsWith.
  split; [|split].
  - intros Hstarts. apply prefix_iff in Hstarts. simpl. now rewrite Hstarts.
  - intros Hsub. apply String.eqb_neq in Hsub. rewrite Hsub.
    now rewrite orb_true_iff, String.eqb_eq, arrayIncludes_In.
  - intros Hnot. simpl.
    destruct (String.prefix FORMAT_LOCAL_PART_SEPARATOR userSubaddresses) eqn:Hp;
      [|reflexivity].
    apply prefix_iff in Hp as [rest Hrest]. destruct (Hnot _ Hrest).
Qed.

(** C8 as stated fails at the value [+ *] and the subaddress [suba]: the
    recipient is allowed,
    though the value with its leading separator removed is not the wildcard
    (a space precedes the asterisk) and has no entry [suba]. *)
Lemma messageSubaddressIsAllowed_untrimmed_counterexample :
  let stripped := Worker.removeLeading "+" "+ *" in
  Worker.messageSubaddressIsAllowed "," "+" "+ *" "suba" = true
  /\ stripped <> "*"
  /\ ~ In "suba" (List.map JS.trim (JS.split stripped ",")).
Proof.
  cbv zeta. split; [reflexivity|]. split.
  - vm_compute. discriminate.
  - vm_compute. intros [H | []]. discriminate.
Qed.

(** Three recipients of a user whose subaddress value is [+a, b]. *)
Lemma messageSubaddressIsAllowed_witness :
  Worker.messageSubaddressIsAllowed "," "+" "+a, b" "" = false
  /\ (Worker.messageSubaddressIsAllowed "," "+" "+a, b" "b" = true
      <-> JS.trim (Worker.removeLeading "+" "+a, b") = "*"
          \/ In "b" (List.map JS.trim
                       (JS.split (JS.trim (Worker.removeLeading "+" "+a, b")) ",")))
  /\ Worker.messageSubaddressIsAllowed "," "+" "a" "" = true.
Proof.
  destruct (messageSubaddressIsAllowed_cases "," "+" "+a, b" "b") as (H1 & H2 & _).
  destruct (messageSubaddressIsAllowed_cases "," "+" "a" "b") as (_ & _ & H3).
  split; [apply H1; exists "a, b"; reflexivity|].
  split; [apply H2; discriminate|].
  apply H3. intros rest H. discriminate.
Defined.

(** ** The disposition of a message *)

Lemma compoundWasSuccessful_delivered (results : list PrimaryDestinationResult)
  (events : list Event) :
  delivered events = existsb wasSuccessful results ->
  DEFAULTS.compoundWasSuccessful results
  = negb (DEFAULTS.compoundHadRecoverableError results) && delivered events.
Proof.
  intros ->. unfold DEFAULTS.compoundWasSuccessful. now rewrite existsb_id_map.
Qed.

(** [new Headers] either throws its [TypeError] or hands the object on. *)
Lemma newHeaders_bind {A} (HeadersTypeError : string -> string -> option string)
  (name value : string) (k : Headers -> Async A) (h : list Event) :
  bind (Worker.newHeaders HeadersTypeError name value) k h
  = match HeadersTypeError name value with
    | Some m => (Throw (TypeError m), h)
    | None => k (name, value) h
    end.
Proof.
  unfold bind, Worker.newHeaders. now destruct (HeadersTypeError name value).
Qed.

(** The invocation throws before any event. *)
Ltac ends_before_any_event :=
  eexists; exists []; rewrite app_nil_r; split; [reflexivity | left; eauto].

Section Disposition.

Variable RegExp : string -> option (string -> bool).
Variable HeadersTypeError : string -> string -> option string.
Variable message : Message.
Variable environment : Environment.

(** The reason [email] rejects with, when it does. *)
Local Abbreviation theRejectReason :=
  (let messageUser :=
     fst (DEFAULTS.addressLocalParts (Worker.messageLocalPart message)
            (FORMAT_LOCAL_PART_SEPARATOR environment)) in
   Worker.fullRejectReason
     (Worker.userRejectReason
        (Worker.userRejectTreatment (FORMAT_REJECT_SEPARATOR environment)
           (Worker.userDestinationWithRejectTreatment environment messageUser)
           (Worker.globalRejectTreatment environment))
        (Worker.globalRejectTreatment environment) (REJECT_TREATMENT environment))
     (Worker.messageLocalPart message)).

(** The three ways one invocation ends. *)
Lemma email_spec (h : list Event) :
  exists (completion : Completion unit) (events : list Event),
    Worker.email RegExp HeadersTypeError message environment h
    = (completion, h ++ events)
    /\ ((setRejectCount events = 0%nat /\ exists e, completion = Throw e)
        \/ (completion = Normal tt
            /\ delivered events = true /\ setRejectCount events = 0%nat)
        \/ (completion = Normal tt
            /\ exists attempts,
                 events = attempts ++ [EvSetReject theRejectReason]
                 /\ delivered attempts = false
                 /\ setRejectCount attempts = 0%nat)).
Proof.
  unfold Worker.email, Worker.newRegExp, Worker.validateCustomHeader.
  unfold bind at 1.
  destruct (RegExp (CLOUDFLARE_RECOVERABLE_FORWARDING_ERROR_REGEXP environment))
    as [recoverable|]; cbn [ret throw];
    [|ends_before_any_event].
  unfold bind at 1.
  destruct (RegExp (FORMAT_VALID_EMAIL_ADDRESS_REGEXP environment))
    as [validAddress|]; cbn [ret throw];
    [|ends_before_any_event].
  unfold bind at 1.
  destruct (RegExp (FORMAT_VALID_CUSTOM_HEADER_REGEXP environment))
    as [validHeader|]; cbn [ret throw];
    [|ends_before_any_event].
  unfold bind at 1.
  destruct (validHeader (JS.trim (CUSTOM_HEADER environment))); cbn [ret throw];
    [|ends_before_any_event].
  destruct (DEFAULTS.addressLocalParts (Worker.messageLocalPart message)
              (FORMAT_LOCAL_PART_SEPARATOR environment))
    as [messageUser messageSubaddress] eqn:Hparts.
  cbn [fst].
  unfold bind at 1, Worker.liftCompletion.
  destruct (Worker.userDestination _ _ _) as [theUserDestination | e];
    [|ends_before_any_event].
  set (configuration :=
         {| recoverableForwardImplementationErrorRegExp := recoverable |}).
  set (validate := Worker.validateCompoundDestination _ _ _ messageUser validAddress).
  set (passHeaders := (JS.trim (CUSTOM_HEADER environment),
                       JS.trim (CUSTOM_HEADER_PASS environment))).
  set (failHeaders := (JS.trim (CUSTOM_HEADER environment),
                       JS.trim (CUSTOM_HEADER_FAIL environment))).
  set (reason := Worker.fullRejectReason _ _).
  (* the accept forward: thrown, successful, or neither *)
  assert (Haccept :
    exists (accepted : Completion bool) (ev1 : list Event),
      (if Worker.messageUserIsAllowed (FORMAT_PRIMARY_ADDRESS_SEPARATOR environment)
            (Worker.userDestinationWithRejectTreatment environment messageUser)
            (Worker.globalUsers environment) messageUser
          && Worker.messageSubaddressIsAllowed
               (FORMAT_PRIMARY_ADDRESS_SEPARATOR environment)
               (FORMAT_LOCAL_PART_SEPARATOR environment)
               (Worker.userSubaddresses environment messageUser) messageSubaddress
       then (acceptHeaders <-
               Worker.newHeaders HeadersTypeError (JS.trim (CUSTOM_HEADER environment))
                 (JS.trim (CUSTOM_HEADER_PASS environment)) ;;
             DEFAULTS.forwardToCompoundDestination message AcceptForwarding
               (Worker.validPrimary (validate theUserDestination)) acceptHeaders
               configuration)%async
       else ret false) h = (accepted, h ++ ev1)
      /\ setRejectCount ev1 = 0%nat
      /\ ((exists e, accepted = Throw e)
          \/ (accepted = Normal true /\ delivered ev1 = true)
          \/ (accepted = Normal false /\ delivered ev1 = false))).
  { destruct (_ && _).
    - rewrite newHeaders_bind. fold passHeaders.
      destruct (HeadersTypeError _ _) as [m|].
      { eexists; exists []. rewrite app_nil_r.
        split; [reflexivity|]. split; [reflexivity|]. left; eauto. }
      destruct (forwardToCompoundDestination_spec message passHeaders configuration
                  AcceptForwarding (Worker.validPrimary (validate theUserDestination)) h)
        as (results & ev1 & _ & Hrun & _ & Hrej & Hdel & _).
      eexists; exists ev1. split; [exact Hrun|]. split; [exact Hrej|].
      rewrite (compoundWasSuccessful_delivered _ _ Hdel).
      destruct (DEFAULTS.compoundHadRecoverableError results); [left; eauto|].
      right. simpl. destruct (delivered ev1); auto.
    - exists (Normal false), []. unfold ret. rewrite app_nil_r.
      split; [reflexivity|]. split; [reflexivity|]. right; right. split; reflexivity. }
  destruct Haccept as (accepted & ev1 & Hrun1 & Hrej1 & Hacc).
  unfold bind at 1. rewrite Hrun1.
  destruct Hacc as [[e ->] | [[-> Hdel1] | [-> Hdel1]]].
  - eexists; exists ev1. split; [reflexivity|]. left. eauto.
  - eexists; exists ev1. split; [reflexivity|]. right; left. auto.
  - cbn [negb].
    (* the reject forward *)
    assert (Hreject :
      exists (rejected : Completion bool) (ev2 : list Event),
        (if (0 <? length (Worker.validPrimary
                            (validate
                               (Worker.userRejectTreatment
                                  (FORMAT_REJECT_SEPARATOR environment)
                                  (Worker.userDestinationWithRejectTreatment
                                     environment messageUser)
                                  (Worker.globalRejectTreatment environment)))))%nat
         then (rejectHeaders <-
                 Worker.newHeaders HeadersTypeError
                   (JS.trim (CUSTOM_HEADER environment))
                   (JS.trim (CUSTOM_HEADER_FAIL environment)) ;;
               DEFAULTS.forwardToCompoundDestination message RejectForwarding
                 (Worker.validPrimary
                    (validate
                       (Worker.userRejectTreatment
                          (FORMAT_REJECT_SEPARATOR environment)
                          (Worker.userDestinationWithRejectTreatment
                             environment messageUser)
                          (Worker.globalRejectTreatment environment))))
                 rejectHeaders configuration)%async
         else ret false) (h ++ ev1) = (rejected, (h ++ ev1) ++ ev2)
        /\ setRejectCount ev2 = 0%nat
        /\ ((exists e, rejected = Throw e)
            \/ (rejected = Normal true /\ delivered ev2 = true)
            \/ (rejected = Normal false /\ delivered ev2 = false))).
    { destruct (0 <? _)%nat.
      - rewrite newHeaders_bind. fold failHeaders.
        destruct (HeadersTypeError _ _) as [m|].
        { eexists; exists []. rewrite app_nil_r.
          split; [reflexivity|]. split; [reflexivity|]. left; eauto. }
        match goal with
        | |- context [DEFAULTS.forwardToCompoundDestination _ _ ?cd _ _ _] =>
            destruct (forwardToCompoundDestination_spec message failHeaders
                        configuration RejectForwarding cd (h ++ ev1))
              as (results & ev2 & _ & Hrun & _ & Hrej & Hdel & _)
        end.
        eexists; exists ev2. split; [exact Hrun|]. split; [exact Hrej|].
        rewrite (compoundWasSuccessful_delivered _ _ Hdel).
        destruct (DEFAULTS.compoundHadRecoverableError results); [left; eauto|].
        right. simpl. destruct (delivered ev2); auto.
      - exists (Normal false), []. unfold ret. rewrite app_nil_r.
        split; [reflexivity|]. split; [reflexivity|]. right; right.
        split; reflexivity. }
    destruct Hreject as (rejected & ev2 & Hrun2 & Hrej2 & Hrejd).
    unfold bind at 1. rewrite Hrun2. rewrite <- app_assoc.
    destruct Hrejd as [[e ->] | [[-> Hdel2] | [-> Hdel2]]].
    + eexists; exists (ev1 ++ ev2). split; [reflexivity|]. left.
      rewrite setRejectCount_app, Hrej1, Hrej2. eauto.
    + eexists; exists (ev1 ++ ev2). split; [reflexivity|]. right; left.
      rewrite setRejectCount_app, delivered_app, Hrej1, Hrej2, Hdel2, orb_true_r. auto.
    + cbn [negb]. unfold setReject.
      eexists; exists ((ev1 ++ ev2) ++ [EvSetReject reason]).
      split; [now rewrite <- !app_assoc|].
      right; right. split; [reflexivity|].
      exists (ev1 ++ ev2). split; [reflexivity|].
      now rewrite setRejectCount_app, delivered_app, Hrej1, Hrej2, Hdel1, Hdel2.
Qed.

End Disposition.

(** C2.  One invocation of [email] ends in exactly one of three ways: it
    throws, and [setReject] was not called; or it returns after a successful
    forward, and [setReject] was not called; or it returns with no successful
    forward, and [setReject] was called exactly once.  In no case is
    [setReject] called twice.  What is thrown need not be the
    [RecoverableForwardError]: it can also be an error of the set-up or the
    [TypeError] of [new Headers], the latter also after failed attempts. *)
Theorem email_three_outcomes (RegExp : string -> option (string -> bool))
  (HeadersTypeError : string -> string -> option string)
  (message : Message) (environment : Environment) (h : list Event) :
  exists (completion : Completion unit) (events : list Event),
    Worker.email RegExp HeadersTypeError message environment h = (completion, h ++ events)
    /\ (setRejectCount events <= 1)%nat
    /\ match completion with
       | Throw _ => setRejectCount events = 0%nat
       | Normal _ =>
           (delivered events = true /\ setRejectCount events = 0%nat)
           \/ (delivered events = false /\ setRejectCount events = 1%nat)
       end.
Proof.
  destruct (email_spec RegExp HeadersTypeError message environment h)
    as (completion & events & Hrun & Hcases).
  exists completion, events. split; [exact Hrun|].
  destruct Hcases as [[Hrej [e ->]] | [[-> [Hdel Hrej]] | [-> Hdirect]]].
  - rewrite Hrej. split; [lia | reflexivity].
  - rewrite Hrej. split; [lia|]. left. auto.
  - destruct Hdirect as (attempts & -> & Hdel & Hrej).
    rewrite setRejectCount_app, delivered_app, Hrej, Hdel.
    change (setRejectCount [EvSetReject _]) with 1%nat.
    change (delivered [EvSetReject _]) with false.
    split; [simpl; lia|]. right. auto.
Qed.

(** Whenever [email] calls [setReject], it is with the full reject reason:
    the reason of the fallback chain, the local part of the recipient put
    before it when it starts with no letter and no digit. *)
Lemma email_rejects_with_full_reason (RegExp : string -> option (string -> bool))
  (HeadersTypeError : string -> string -> option string)
  (message : Message) (environment : Environment) (rejectReason : string) :
  In (EvSetReject rejectReason)
    (snd (Worker.email RegExp HeadersTypeError message environment [])) ->
  let messageUser :=
    fst (DEFAULTS.addressLocalParts (Worker.messageLocalPart message)
           (FORMAT_LOCAL_PART_SEPARATOR environment)) in
  rejectReason
  = Worker.fullRejectReason
      (Worker.userRejectReason
         (Worker.userRejectTreatment (FORMAT_REJECT_SEPARATOR environment)
            (Worker.userDestinationWithRejectTreatment environment messageUser)
            (Worker.globalRejectTreatment environment))
         (Worker.globalRejectTreatment environment) (REJECT_TREATMENT environment))
      (Worker.messageLocalPart message).
Proof.
  destruct (email_spec RegExp HeadersTypeError message environment [])
    as (completion & events & Hrun & Hcases).
  rewrite Hrun. cbn [snd app]. intros Hin.
  assert (Hnone : forall evs, setRejectCount evs = 0%nat ->
                              ~ In (EvSetReject rejectReason) evs).
  { intros evs Hcount Hev. unfold setRejectCount in Hcount.
    assert (Hf : In (EvSetReject rejectReason) (List.filter isSetReject evs))
      by (apply filter_In; auto).
    destruct (List.filter isSetReject evs); [destruct Hf | discriminate]. }
  destruct Hcases as [[Hrej _] | [[_ [_ Hrej]] | [_ (attempts & -> & _ & Hrej)]]].
  - destruct (Hnone _ Hrej Hin).
  - destruct (Hnone _ Hrej Hin).
  - apply in_app_or in Hin as [Hin | [Heq | []]].
    + destruct (Hnone _ Hrej Hin).
    + now injection Heq as <-.
Qed.

(** The end-to-end scenarios of the specification. *)
Example scenario_forward :
  Worker.email sampleRegExp sampleHeaders
    {| to := "user1@domain.com"; transport := fun _ _ _ => Resolved |}
    (configured "user1@email.com" DEFAULTS.REJECT_TREATMENT "*" "user1" "false" ∅) []
  = (Normal tt, [EvForward "user1@email.com" ("X-My-Email-Forwarding", "pass") Resolved]).
Proof. vm_compute. reflexivity. Qed.

Example scenario_reject :
  Worker.email sampleRegExp sampleHeaders
    {| to := "user2@domain.com"; transport := fun _ _ _ => Resolved |}
    (configured "user1@email.com" DEFAULTS.REJECT_TREATMENT "*" "user1" "false" ∅) []
  = (Normal tt, [EvSetReject "Address does not exist"]).
Proof. vm_compute. reflexivity. Qed.

Example scenario_failover :
  Worker.email sampleRegExp sampleHeaders
    {| to := "user1@domain.com";
       transport := fun h _ _ =>
         match h with
         | [] => Rejected (Error "could not send email")
         | _ => Resolved
         end |}
    (configured "a@email.com:b@email.com" DEFAULTS.REJECT_TREATMENT "*" "user1" "false" ∅)
    []
  = (Normal tt,
     [EvForward "a@email.com" ("X-My-Email-Forwarding", "pass")
        (Rejected (Error "could not send email"));
      EvForward "b@email.com" ("X-My-Email-Forwarding", "pass") Resolved]).
Proof. vm_compute. reflexivity. Qed.

Example scenario_recoverable :
  Worker.email sampleRegExp sampleHeaders
    {| to := "user1@domain.com";
       transport := fun _ address _ =>
         if String.eqb address "a@email.com"
         then Rejected (Error "could not send email")
         else Resolved |}
    (configured "a@email.com,b@email.com" DEFAULTS.REJECT_TREATMENT "*" "user1" "false" ∅)
    []
  = (Throw (RecoverableForwardError [Error "could not send email"]),
     [EvForward "a@email.com" ("X-My-Email-Forwarding", "pass")
        (Rejected (Error "could not send email"));
      EvForward "b@email.com" ("X-My-Email-Forwarding", "pass") Resolved]).
Proof. vm_compute. reflexivity. Qed.

(** ** The events and errors of a compound forward *)

Lemma forwardAddresses_app (e1 e2 : list Event) :
  forwardAddresses (e1 ++ e2) = forwardAddresses e1 ++ forwardAddresses e2.
Proof. unfold forwardAddresses. now rewrite flat_map_app. Qed.

Lemma forwardAddresses_rejectedEvents (headers : Headers)
  (failures : list (string * Exception)) :
  forwardAddresses (rejectedEvents headers failures) = List.map fst failures.
Proof.
  induction failures as [|f failures IH]; simpl; [reflexivity | now rewrite <- IH].
Qed.

Lemma carries_rejectedEvents (headers : Headers)
  (failures : list (string * Exception)) :
  List.Forall (carries headers) (rejectedEvents headers failures).
Proof.
  induction failures as [|f failures IH]; simpl; constructor; [reflexivity | exact IH].
Qed.

(** Each recorded failure is an answer of the transport. *)
Lemma answers_failures (message : Message) (headers : Headers)
  (failures : list (string * Exception)) (final : list Event) :
  forall h : list Event,
    answers message h (rejectedEvents headers failures ++ final) ->
    forall f, In f failures ->
      exists h', transport message h' (fst f) headers = Rejected (snd f).
Proof.
  induction failures as [|f0 failures IH]; intros h Hans f Hin; [destruct Hin|].
  simpl in Hans. destruct Hans as [Hf0 Hrest].
  destruct Hin as [<- | Hin]; [eauto | exact (IH _ Hrest f Hin)].
Qed.

Section PrimaryEvents.

Variable message : Message.
Variable customHeaders : Headers.
Variable configuration : Configuration.

(** The events of a primary destination: forwards with the headers given, to
    the first addresses of the list, in order. *)
Lemma forwardToPrimaryDestination_events (primaryDestination : list string)
  (primaryDestinationId : nat) (h : list Event) :
  exists (result : PrimaryDestinationResult) (events : list Event),
    DEFAULTS.forwardToPrimaryDestination message primaryDestination
      primaryDestinationId customHeaders configuration h
    = (Normal result, h ++ events)
    /\ List.Forall (carries customHeaders) events
    /\ (exists rest, primaryDestination = forwardAddresses events ++ rest)
    /\ (hadRecoverableError result = true ->
        exists h' address error,
          transport message h' address customHeaders = Rejected error
          /\ testMessage (recoverableForwardImplementationErrorRegExp configuration)
               (errorMessage error) = true).
Proof.
  destruct (forwardToPrimaryDestination_spec message primaryDestinationId customHeaders
              configuration primaryDestination h)
    as (failures & final & result & Hrun & Hans & Hrec & _ & Herrs & Hend).
  exists result, (rejectedEvents customHeaders failures ++ final).
  split; [exact Hrun|].
  rewrite forwardAddresses_app, forwardAddresses_rejectedEvents.
  split; [|split].
  - apply List.Forall_app. split; [apply carries_rejectedEvents|].
    destruct Hend as [(a & rest & _ & -> & _) | (_ & -> & _)]; repeat constructor.
  - destruct Hend as [(a & rest & -> & -> & _) | (-> & -> & _)]; simpl.
    + exists rest. now rewrite <- app_assoc.
    + exists []. now rewrite !app_nil_r.
  - rewrite Hrec. unfold someRecoverable. intros Hsome.
    apply existsb_exists in Hsome as (f & Hin & Hf).
    destruct (answers_failures _ _ _ _ _ Hans f Hin) as [h' Hh'].
    exists h', (fst f), (snd f). auto.
Qed.

(** The events of [Promise.all] over the primary destinations. *)
Lemma promiseAll_events (compoundDestination : list (list string)) :
  forall (primaryDestinationIndex : nat) (h : list Event),
  exists (results : list PrimaryDestinationResult) (events : list Event),
    promiseAll (DEFAULTS.primaryPromises message customHeaders configuration
                  compoundDestination primaryDestinationIndex) h
    = (Normal results, h ++ events)
    /\ List.Forall (carries customHeaders) events
    /\ forwardAddresses events `sublist_of` List.concat compoundDestination
    /\ (DEFAULTS.compoundHadRecoverableError results = true ->
        exists h' address error,
          transport message h' address customHeaders = Rejected error
          /\ testMessage (recoverableForwardImplementationErrorRegExp configuration)
               (errorMessage error) = true).
Proof.
  induction compoundDestination as [|primaryDestination rest IH];
    intros primaryDestinationIndex h.
  - exists [], []. simpl. unfold ret. rewrite app_nil_r.
    split; [reflexivity|]. split; [constructor|]. split; [constructor|].
    discriminate.
  - cbn [DEFAULTS.primaryPromises promiseAll].
    destruct (forwardToPrimaryDestination_events primaryDestination
                (primaryDestinationIndex + 1) h)
      as (result & ev1 & Hrun1 & Hcar1 & [rest1 Hpre1] & Hrec1).
    rewrite Hrun1.
    destruct (IH (S primaryDestinationIndex) (h ++ ev1))
      as (results & ev2 & Hrun2 & Hcar2 & Hsub2 & Hrec2).
    rewrite Hrun2.
    exists (result :: results), (ev1 ++ ev2).
    rewrite app_assoc. split; [reflexivity|].
    split; [apply List.Forall_app; auto|].
    split.
    + rewrite forwardAddresses_app. cbn [List.concat]. apply sublist_app; [|exact Hsub2].
      rewrite Hpre1. apply sublist_inserts_r. reflexivity.
    + unfold DEFAULTS.compoundHadRecoverableError in *. cbn [List.map existsb].
      intros H. apply orb_true_iff in H as [H | H]; [|exact (Hrec2 H)].
      apply andb_true_iff in H as [_ H]. exact (Hrec1 H).
Qed.

(** Each result of [Promise.all] is the result of its primary destination. *)
Lemma promiseAll_resultOf (compoundDestination : list (list string)) :
  forall (primaryDestinationIndex : nat) (h h' : list Event)
         (results : list PrimaryDestinationResult),
    promiseAll (DEFAULTS.primaryPromises message customHeaders configuration
                  compoundDestination primaryDestinationIndex) h
    = (Normal results, h') ->
    List.Forall2 (resultOf message customHeaders configuration)
      compoundDestination results.
Proof.
  induction compoundDestination as [|primaryDestination rest IH];
    intros primaryDestinationIndex h h' results.
  - simpl. unfold ret. intros [= <- _]. constructor.
  - cbn [DEFAULTS.primaryPromises promiseAll].
    destruct (DEFAULTS.forwardToPrimaryDestination message primaryDestination
                (primaryDestinationIndex + 1) customHeaders configuration h)
      as [c h1] eqn:Hrun1.
    destruct (promiseAll _ h1) as [cs h2] eqn:Hrun2.
    destruct c as [result|e]; [|discriminate].
    destruct cs as [l|e]; [|discriminate].
    intros [= <- _]. constructor; [|exact (IH _ _ _ _ Hrun2)].
    exists (primaryDestinationIndex + 1)%nat, h. now rewrite Hrun1.
Qed.

(** What the result of a primary destination says of its errors. *)
Lemma resultOf_errors (primaryDestination : list string)
  (result : PrimaryDestinationResult) :
  resultOf message customHeaders configuration primaryDestination result ->
  (hadRecoverableError result = true -> errors result <> [])
  /\ (primaryDestination <> [] -> wasSuccessful result = false -> errors result <> [])
  /\ ((forall m, recoverableForwardImplementationErrorRegExp configuration m = true) ->
      errors result <> [] -> hadRecoverableError result = true)
  /\ (wasSuccessful result = true -> primaryDestination <> []).
Proof.
  intros (primaryDestinationId & h & Hres).
  destruct (forwardToPrimaryDestination_spec message primaryDestinationId customHeaders
              configuration primaryDestination h)
    as (failures & final & result' & Hrun & _ & Hrec & _ & Herrs & Hend).
  rewrite Hrun in Hres. injection Hres as ->.
  rewrite Hrec, Herrs. split; [|split; [|split]].
  - destruct failures; [discriminate | discriminate].
  - intros Hpd Hw.
    destruct Hend as [(a & rest & _ & _ & Hw' & _) | (Hpd' & _)]; [congruence|].
    rewrite Hpd' in Hpd. destruct failures; [contradiction | discriminate].
  - intros Hall Hne. destruct failures as [|f failures]; [contradiction|].
    unfold someRecoverable, testMessage. simpl. now rewrite Hall.
  - intros Hw. destruct Hend as [(a & rest & -> & _) | (_ & _ & Hw' & _)];
      [|congruence].
    now destruct (List.map fst failures).
Qed.

End PrimaryEvents.

Lemma Forall2_In_r {A B} (P : A -> B -> Prop) (l : list A) (k : list B) (y : B) :
  List.Forall2 P l k -> In y k -> exists x, In x l /\ P x y.
Proof.
  induction 1 as [|x y' l k Hxy _ IH]; [intros []|].
  intros [<- | Hin]; [exists x; split; [now left | exact Hxy]|].
  destruct (IH Hin) as (x' & Hx' & Hp). exists x'. split; [now right | exact Hp].
Qed.

Lemma compoundHadRecoverableError_result (results : list PrimaryDestinationResult) :
  DEFAULTS.compoundHadRecoverableError results = true
  <-> exists result, In result results
                     /\ wasSuccessful result = false
                     /\ hadRecoverableError result = true.
Proof.
  unfold DEFAULTS.compoundHadRecoverableError.
  rewrite existsb_id_map, existsb_exists.
  split; intros (result & Hin & Hr); exists result; (split; [exact Hin|]).
  - apply andb_true_iff in Hr as [Hw Hr]. apply negb_true_iff in Hw. auto.
  - destruct Hr as [-> ->]. reflexivity.
Qed.

Lemma compoundErrors_In (results : list PrimaryDestinationResult)
  (result : PrimaryDestinationResult) :
  In result results -> errors result <> [] -> DEFAULTS.compoundErrors results <> [].
Proof.
  intros Hin Hne Hnil. unfold DEFAULTS.compoundErrors in Hnil.
  destruct (errors result) as [|e es] eqn:He; [contradiction|].
  assert (Hin' : In e (List.flat_map (fun r => errors r) results)).
  { apply in_flat_map. exists result. split; [exact Hin|]. rewrite He. now left. }
  rewrite Hnil in Hin'. destruct Hin'.
Qed.

Section CompoundEvents.

Variable message : Message.
Variable customHeaders : Headers.
Variable configuration : Configuration.

Local Abbreviation regexp := (recoverableForwardImplementationErrorRegExp configuration).

(** Everything the later properties use of one call of
    [forwardToCompoundDestination]. *)
Lemma forwardToCompoundDestination_anatomy (actionType : ActionType)
  (compoundDestination : list (list string)) (h : list Event) :
  exists (results : list PrimaryDestinationResult) (events : list Event),
    DEFAULTS.forwardToCompoundDestination message actionType compoundDestination
      customHeaders configuration h
    = (if DEFAULTS.compoundHadRecoverableError results
       then Throw (RecoverableForwardError (thrownErrors events))
       else Normal (delivered events),
       h ++ events)
    /\ List.Forall2 (resultOf message customHeaders configuration)
         compoundDestination results
    /\ List.Forall (carries customHeaders) events
    /\ forwardAddresses events `sublist_of` List.concat compoundDestination
    /\ setRejectCount events = 0%nat
    /\ delivered events = existsb wasSuccessful results
    /\ DEFAULTS.compoundErrors results = thrownErrors events
    /\ (DEFAULTS.compoundHadRecoverableError results = true ->
        exists h' address error,
          transport message h' address customHeaders = Rejected error
          /\ testMessage regexp (errorMessage error) = true)
    /\ ((forall m, regexp m = true) ->
        List.Forall (fun primaryDestination => primaryDestination <> [])
          compoundDestination ->
        DEFAULTS.compoundHadRecoverableError results = false ->
        delivered events = false ->
        compoundDestination = [] /\ events = []).
Proof.
  destruct (promiseAll_events message customHeaders configuration
              compoundDestination 0 h)
    as (results & events & Hrun & Hcar & Hsub & Hrec).
  destruct (promiseAll_primaryPromises message customHeaders configuration
              compoundDestination 0 h)
    as (results' & events' & Hrun' & _ & Hrej & Hdel & Herr & _).
  rewrite Hrun in Hrun'. injection Hrun' as <- Hev. apply app_inv_head in Hev as <-.
  exists results, events. split.
  - unfold DEFAULTS.forwardToCompoundDestination, bind. rewrite Hrun.
    rewrite (compoundWasSuccessful_delivered _ _ Hdel), Herr.
    destruct (DEFAULTS.compoundHadRecoverableError results); reflexivity.
  - pose proof (promiseAll_resultOf _ _ _ _ _ _ _ _ Hrun) as Hres.
    split; [exact Hres|].
    do 6 (split; [assumption|]).
    intros Hall Hne Hnorec Hd.
    destruct Hres as [|pd result cd results Hof Hrest].
    + split; [reflexivity|]. apply sublist_nil_r in Hsub.
      destruct events as [|[a hd o | r] events]; [reflexivity | discriminate |].
      inversion Hcar as [|? ? Hc _]. destruct Hc.
    + exfalso. inversion Hne as [|? ? Hpd _]; subst.
      rewrite Hd in Hdel. symmetry in Hdel. cbn [existsb] in Hdel.
      apply orb_false_iff in Hdel as [Hw _].
      destruct (resultOf_errors _ _ _ _ _ Hof) as (_ & Hexh & Hmatch & _).
      assert (Hr : DEFAULTS.compoundHadRecoverableError (result :: results) = true).
      { apply compoundHadRecoverableError_result. exists result.
        split; [now left|]. split; [exact Hw|]. auto. }
      congruence.
Qed.

End CompoundEvents.

(** A call that throws, and a call that returns. *)
Lemma forwardToCompoundDestination_throw_inv (message : Message)
  (actionType : ActionType) (compoundDestination : list (list string))
  (customHeaders : Headers) (configuration : Configuration) (h h' : list Event)
  (e : Exception) :
  DEFAULTS.forwardToCompoundDestination message actionType compoundDestination
    customHeaders configuration h = (Throw e, h') ->
  exists events,
    h' = h ++ events
    /\ e = RecoverableForwardError (thrownErrors events)
    /\ thrownErrors events <> []
    /\ List.Forall (carries customHeaders) events
    /\ setRejectCount events = 0%nat.
Proof.
  destruct (forwardToCompoundDestination_anatomy message customHeaders configuration
              actionType compoundDestination h)
    as (results & events & Hrun & Hres & Hcar & _ & Hcount & _ & Herr & _ & _).
  rewrite Hrun.
  destruct (DEFAULTS.compoundHadRecoverableError results) eqn:Hrec; [|discriminate].
  intros [= <- <-]. exists events.
  split; [reflexivity|]. split; [reflexivity|]. split; [|auto].
  rewrite <- Herr.
  apply compoundHadRecoverableError_result in Hrec as (result & Hin & _ & Hr).
  destruct (Forall2_In_r _ _ _ _ Hres Hin) as (pd & _ & Hof).
  apply (compoundErrors_In _ result Hin).
  now apply (proj1 (resultOf_errors _ _ _ _ _ Hof)).
Qed.

Lemma forwardToCompoundDestination_normal_inv (message : Message)
  (actionType : ActionType) (compoundDestination : list (list string))
  (customHeaders : Headers) (configuration : Configuration) (h h' : list Event)
  (wasSuccessful : bool) :
  DEFAULTS.forwardToCompoundDestination message actionType compoundDestination
    customHeaders configuration h = (Normal wasSuccessful, h') ->
  exists events,
    h' = h ++ events
    /\ wasSuccessful = delivered events
    /\ List.Forall (carries customHeaders) events
    /\ setRejectCount events = 0%nat.
Proof.
  destruct (forwardToCompoundDestination_anatomy message customHeaders configuration
              actionType compoundDestination h)
    as (results & events & Hrun & _ & Hcar & _ & Hcount & _).
  rewrite Hrun.
  destruct (DEFAULTS.compoundHadRecoverableError results); [discriminate|].
  intros [= <- <-]. exists events. auto.
Qed.

(** X1.  What [forwardToCompoundDestination] throws is a
    [RecoverableForwardError] that carries the errors the failed delivery
    attempts of the call threw, each once and no other, at least one of
    them; its message starts with the fixed prefix.  The errors are collected
    primary by primary, which need not be the order of the attempts: the
    statement is up to a permutation. *)
Theorem forwardToCompoundDestination_throws_the_errors (message : Message)
  (actionType : ActionType) (compoundDestination : list (list string))
  (customHeaders : Headers) (configuration : Configuration) (h : list Event) :
  exists (completion : Completion bool) (events : list Event),
    DEFAULTS.forwardToCompoundDestination message actionType compoundDestination
      customHeaders configuration h
    = (completion, h ++ events)
    /\ match completion with
       | Normal _ => True
       | Throw e =>
           exists errors,
             e = RecoverableForwardError errors
             /\ Permutation errors (thrownErrors events)
             /\ errors <> []
             /\ exists rest,
                  errorMessage e
                  = Some (RECOVERABLE_FORWARD_EXCEPTION_MESSAGE_PREFIX +:+ rest)
       end.
Proof.
  destruct (forwardToCompoundDestination_anatomy message customHeaders configuration
              actionType compoundDestination h)
    as (results & events & Hrun & Hres & _ & _ & _ & _ & Herr & _ & _).
  eexists; exists events. split; [exact Hrun|].
  destruct (DEFAULTS.compoundHadRecoverableError results) eqn:Hrec; [|exact I].
  exists (thrownErrors events).
  split; [reflexivity|]. split; [reflexivity|]. split.
  - rewrite <- Herr.
    apply compoundHadRecoverableError_result in Hrec as (result & Hin & _ & Hr).
    destruct (Forall2_In_r _ _ _ _ Hres Hin) as (pd & _ & Hof).
    apply (compoundErrors_In _ result Hin).
    now apply (proj1 (resultOf_errors _ _ _ _ _ Hof)).
  - cbn [errorMessage]. eexists. reflexivity.
Qed.

(** X2.  When no error the transport rejects with has a message the
    recoverable-error pattern matches, [forwardToCompoundDestination] throws
    nothing: the failures are absorbed and it returns whether some forward
    succeeded. *)
Theorem forwardToCompoundDestination_absorbs_unrecoverable (message : Message)
  (actionType : ActionType) (compoundDestination : list (list string))
  (customHeaders : Headers) (configuration : Configuration) (h : list Event) :
  (forall h' address error,
     transport message h' address customHeaders = Rejected error ->
     testMessage (recoverableForwardImplementationErrorRegExp configuration)
       (errorMessage error) = false) ->
  exists events : list Event,
    DEFAULTS.forwardToCompoundDestination message actionType compoundDestination
      customHeaders configuration h
    = (Normal (delivered events), h ++ events).
Proof.
  intros Hnever.
  destruct (forwardToCompoundDestination_anatomy message customHeaders configuration
              actionType compoundDestination h)
    as (results & events & Hrun & _ & _ & _ & _ & _ & _ & Hrec & _).
  exists events. rewrite Hrun.
  destruct (DEFAULTS.compoundHadRecoverableError results); [|reflexivity].
  destruct (Hrec eq_refl) as (h' & address & error & Ht & Hm).
  rewrite (Hnever _ _ _ Ht) in Hm. discriminate.
Qed.

(** Both backups fail with a message the pattern does not match. *)
Lemma forwardToCompoundDestination_absorbs_unrecoverable_witness :
  let message :=
    {| to := "user@domain.com";
       transport := fun _ _ _ => Rejected (Error "destination address not verified") |} in
  let configuration :=
    {| recoverableForwardImplementationErrorRegExp :=
         fun m => JS.startsWith m "could not send email" |} in
  DEFAULTS.forwardToCompoundDestination message AcceptForwarding
    [["a@email.com"; "b@email.com"]] ("X-My-Email-Forwarding", "pass") configuration []
  = (Normal false,
     [EvForward "a@email.com" ("X-My-Email-Forwarding", "pass")
        (Rejected (Error "destination address not verified"));
      EvForward "b@email.com" ("X-My-Email-Forwarding", "pass")
        (Rejected (Error "destination address not verified"))]).
Proof.
  intros message configuration.
  destruct (forwardToCompoundDestination_absorbs_unrecoverable message AcceptForwarding
              [["a@email.com"; "b@email.com"]] ("X-My-Email-Forwarding", "pass")
              configuration [])
    as [events Hrun].
  - intros h' address error [= <-]. reflexivity.
  - reflexivity.
Defined.

(** X3.  With a recoverable-error pattern that matches every message, as the
    default one does, and primary destinations that each hold an address,
    [forwardToCompoundDestination] returns [false] only for the empty
    compound destination, without any event: otherwise it returns [true]
    after a delivery, or throws. *)
Theorem forwardToCompoundDestination_default_pattern (message : Message)
  (actionType : ActionType) (compoundDestination : list (list string))
  (customHeaders : Headers) (configuration : Configuration) (h : list Event) :
  (forall m, recoverableForwardImplementationErrorRegExp configuration m = true) ->
  List.Forall (fun primaryDestination => primaryDestination <> []) compoundDestination ->
  exists (completion : Completion bool) (events : list Event),
    DEFAULTS.forwardToCompoundDestination message actionType compoundDestination
      customHeaders configuration h
    = (completion, h ++ events)
    /\ match completion with
       | Normal true => delivered events = true
       | Normal false => compoundDestination = [] /\ events = []
       | Throw _ => thrownErrors events <> []
       end.
Proof.
  intros Hall Hne.
  destruct (forwardToCompoundDestination_anatomy message customHeaders configuration
              actionType compoundDestination h)
    as (results & events & Hrun & Hres & _ & _ & _ & _ & Herr & _ & Hdefault).
  eexists; exists events. split; [exact Hrun|].
  destruct (DEFAULTS.compoundHadRecoverableError results) eqn:Hrec.
  - rewrite <- Herr.
    apply compoundHadRecoverableError_result in Hrec as (result & Hin & _ & Hr).
    destruct (Forall2_In_r _ _ _ _ Hres Hin) as (pd & _ & Hof).
    apply (compoundErrors_In _ result Hin).
    now apply (proj1 (resultOf_errors _ _ _ _ _ Hof)).
  - destruct (delivered events) eqn:Hd; [reflexivity | auto].
Qed.

(** The default pattern, one primary destination, every attempt failing. *)
Lemma forwardToCompoundDestination_default_pattern_witness :
  let message :=
    {| to := "user@domain.com";
       transport := fun _ _ _ => Rejected (Error "destination address not verified") |} in
  let configuration :=
    {| recoverableForwardImplementationErrorRegExp := fun _ => true |} in
  exists events,
    DEFAULTS.forwardToCompoundDestination message AcceptForwarding
      [["a@email.com"]] ("X-My-Email-Forwarding", "pass") configuration []
    = (Throw (RecoverableForwardError [Error "destination address not verified"]),
       events)
    /\ thrownErrors events <> [].
Proof.
  intros message configuration.
  destruct (forwardToCompoundDestination_default_pattern message AcceptForwarding
              [["a@email.com"]] ("X-My-Email-Forwarding", "pass") configuration [])
    as (completion & events & Hrun & Hcase).
  - reflexivity.
  - repeat constructor. discriminate.
  - exists events. vm_compute in Hrun. injection Hrun as <- <-.
    split; [reflexivity | exact Hcase].
Defined.

(** ** Invariants of destination validation *)

Section MoreFirstOccurrences.

Lemma NoDup_snoc (seen : list string) (x : string) :
  NoDup seen -> ~ In x seen -> NoDup (seen ++ [x]).
Proof.
  intros Hseen Hx. apply NoDup_app. split; [exact Hseen|]. split.
  - intros y Hy Hyx. apply list_elem_of_In in Hy.
    apply list_elem_of_In in Hyx as [<- | []]. contradiction.
  - apply NoDup_singleton.
Qed.

(** The first occurrences are distinct from each other and from what was
    seen. *)
Lemma NoDup_firstOccurrences (l seen : list string) :
  NoDup seen -> NoDup (seen ++ firstOccurrences seen l).
Proof.
  revert seen. induction l as [|x l IH]; intros seen Hseen; simpl.
  - now rewrite app_nil_r.
  - destruct (in_dec string_dec x seen) as [Hx | Hx]; [now apply IH|].
    change (x :: firstOccurrences (seen ++ [x]) l)
      with ([x] ++ firstOccurrences (seen ++ [x]) l).
    rewrite app_assoc. apply IH. now apply NoDup_snoc.
Qed.

Lemma In_firstOccurrences (l seen : list string) (x : string) :
  In x l -> In x (seen ++ firstOccurrences seen l).
Proof.
  revert seen. induction l as [|y l IH]; intros seen; [intros []|].
  cbn [firstOccurrences].
  destruct (in_dec string_dec y seen) as [Hy | Hy].
  - intros [<- | Hin]; [apply in_or_app; now left | now apply IH].
  - intros Hin.
    change (y :: firstOccurrences (seen ++ [y]) l)
      with ([y] ++ firstOccurrences (seen ++ [y]) l).
    rewrite app_assoc.
    destruct Hin as [<- | Hin]; [|now apply IH].
    apply in_or_app. left. apply in_or_app. right. now left.
Qed.

Lemma In_laterOccurrences (l seen : list string) (x : string) :
  In x (laterOccurrences seen l) -> In x (seen ++ firstOccurrences seen l).
Proof.
  revert seen. induction l as [|y l IH]; intros seen; [intros []|].
  cbn [firstOccurrences laterOccurrences].
  destruct (in_dec string_dec y seen) as [Hy | Hy].
  - intros [<- | Hin]; [apply in_or_app; now left | now apply IH].
  - intros Hin.
    change (y :: firstOccurrences (seen ++ [y]) l)
      with ([y] ++ firstOccurrences (seen ++ [y]) l).
    rewrite app_assoc. now apply IH.
Qed.

Lemma length_first_later (l seen : list string) :
  (length (firstOccurrences seen l) + length (laterOccurrences seen l))%nat = length l.
Proof.
  revert seen. induction l as [|y l IH]; intros seen; [reflexivity|].
  cbn [firstOccurrences laterOccurrences].
  destruct (in_dec string_dec y seen);
    [specialize (IH seen) | specialize (IH (seen ++ [y]))]; simpl; lia.
Qed.

End MoreFirstOccurrences.

(** X4.  [validatePrimaryDestination] sorts the candidates of a primary
    destination text, keeping their order: the ones the address pattern
    accepts are the valid backups, the others are the invalid backups unless
    they are empty, and an empty candidate the pattern refuses is in neither
    list. *)
Theorem validatePrimaryDestination_sorts
  (FORMAT_BACKUP_ADDRESS_SEPARATOR FORMAT_LOCAL_PART_SEPARATOR messageUser : string)
  (formatValidEmailAddressRegExp : string -> bool) (primaryDestinationText : string) :
  let cs := candidates FORMAT_BACKUP_ADDRESS_SEPARATOR FORMAT_LOCAL_PART_SEPARATOR
              messageUser primaryDestinationText in
  let output :=
    Worker.validatePrimaryDestination FORMAT_BACKUP_ADDRESS_SEPARATOR
      FORMAT_LOCAL_PART_SEPARATOR messageUser formatValidEmailAddressRegExp
      primaryDestinationText in
  Worker.pv_validBackup output = List.filter formatValidEmailAddressRegExp cs
  /\ Worker.pv_invalidBackup output
     = List.filter
         (fun c => negb (formatValidEmailAddressRegExp c)
                   && negb (String.eqb c EmptyString)) cs
  /\ (forall c, In c (Worker.pv_validBackup output) ->
                ~ In c (Worker.pv_invalidBackup output))
  /\ ~ In EmptyString (Worker.pv_invalidBackup output).
Proof.
  intros cs output.
  destruct (validatePrimaryDestination_filter FORMAT_BACKUP_ADDRESS_SEPARATOR
              FORMAT_LOCAL_PART_SEPARATOR messageUser formatValidEmailAddressRegExp
              primaryDestinationText) as [Hv Hi].
  fold cs in Hv, Hi. fold output in Hv, Hi. rewrite Hv, Hi.
  split; [reflexivity|]. split; [reflexivity|]. split.
  - intros c Hc Hc'. apply filter_In in Hc as [_ Hc]. apply filter_In in Hc' as [_ Hc'].
    rewrite Hc in Hc'. discriminate.
  - intros H. apply filter_In in H as [_ H].
    rewrite andb_true_iff in H. destruct H as [_ H]. discriminate.
Qed.

(** X5.  Whatever the text, the output of [validateCompoundDestination] keeps
    these invariants: [validBackup] is [validPrimary] flattened; it holds no
    address twice; it holds exactly the valid addresses of the text; every
    address of it is accepted by the address pattern; every duplicate is an
    address of it; and valid backups and duplicates together are as many as
    the valid addresses of the text. *)
Theorem validateCompoundDestination_invariants
  (FORMAT_PRIMARY_ADDRESS_SEPARATOR FORMAT_BACKUP_ADDRESS_SEPARATOR
   FORMAT_LOCAL_PART_SEPARATOR messageUser : string)
  (formatValidEmailAddressRegExp : string -> bool) (compoundDestinationText : string) :
  let addresses :=
    validAddresses FORMAT_PRIMARY_ADDRESS_SEPARATOR FORMAT_BACKUP_ADDRESS_SEPARATOR
      FORMAT_LOCAL_PART_SEPARATOR messageUser formatValidEmailAddressRegExp
      compoundDestinationText in
  let output :=
    Worker.validateCompoundDestination FORMAT_PRIMARY_ADDRESS_SEPARATOR
      FORMAT_BACKUP_ADDRESS_SEPARATOR FORMAT_LOCAL_PART_SEPARATOR messageUser
      formatValidEmailAddressRegExp compoundDestinationText in
  Worker.validBackup output = List.concat (Worker.validPrimary output)
  /\ NoDup (Worker.validBackup output)
  /\ (forall a, In a (Worker.validBackup output) <-> In a (List.concat addresses))
  /\ (forall a, In a (Worker.validBackup output) ->
                formatValidEmailAddressRegExp a = true)
  /\ (forall a, In a (Worker.duplicateBackup output) -> In a (Worker.validBackup output))
  /\ (length (Worker.validBackup output) + length (Worker.duplicateBackup output))%nat
     = length (List.concat addresses).
Proof.
  intros addresses output.
  assert (Hflat : Worker.validBackup output = List.concat (Worker.validPrimary output)).
  { subst output. rewrite validateCompoundDestination_spec.
    cbn [Worker.validBackup Worker.validPrimary].
    now rewrite concat_nonEmpty, concat_survivors. }
  split; [exact Hflat|].
  split; [|split; [|split; [|split]]].
  - subst output. rewrite validateCompoundDestination_spec. cbn [Worker.validBackup].
    apply (NoDup_firstOccurrences _ []). constructor.
  - subst output. rewrite validateCompoundDestination_spec. cbn [Worker.validBackup].
    fold addresses. intros a. split.
    + intros H. now apply firstOccurrences_not_seen in H.
    + intros H. exact (In_firstOccurrences _ [] _ H).
  - intros a Ha. rewrite Hflat in Ha. subst output.
    exact (validPrimary_valid _ _ _ _ _ _ _ Ha).
  - subst output. rewrite validateCompoundDestination_spec.
    cbn [Worker.validBackup Worker.duplicateBackup]. fold addresses.
    intros a H. exact (In_laterOccurrences _ [] _ H).
  - subst output. rewrite validateCompoundDestination_spec.
    cbn [Worker.validBackup Worker.duplicateBackup]. fold addresses.
    apply length_first_later.
Qed.

(** The addresses of [validPrimary], flattened, are distinct. *)
Lemma NoDup_validPrimary
  (FORMAT_PRIMARY_ADDRESS_SEPARATOR FORMAT_BACKUP_ADDRESS_SEPARATOR
   FORMAT_LOCAL_PART_SEPARATOR messageUser : string)
  (formatValidEmailAddressRegExp : string -> bool) (compoundDestinationText : string) :
  NoDup (List.concat
           (Worker.validPrimary
              (Worker.validateCompoundDestination FORMAT_PRIMARY_ADDRESS_SEPARATOR
                 FORMAT_BACKUP_ADDRESS_SEPARATOR FORMAT_LOCAL_PART_SEPARATOR messageUser
                 formatValidEmailAddressRegExp compoundDestinationText))).
Proof.
  rewrite validateCompoundDestination_spec. cbn [Worker.validPrimary].
  rewrite concat_nonEmpty, concat_survivors.
  apply (NoDup_firstOccurrences _ []). constructor.
Qed.

Lemma nonEmpty_validPrimary
  (FORMAT_PRIMARY_ADDRESS_SEPARATOR FORMAT_BACKUP_ADDRESS_SEPARATOR
   FORMAT_LOCAL_PART_SEPARATOR messageUser : string)
  (formatValidEmailAddressRegExp : string -> bool) (compoundDestinationText : string) :
  List.Forall (fun primaryDestination => primaryDestination <> [])
    (Worker.validPrimary
       (Worker.validateCompoundDestination FORMAT_PRIMARY_ADDRESS_SEPARATOR
          FORMAT_BACKUP_ADDRESS_SEPARATOR FORMAT_LOCAL_PART_SEPARATOR messageUser
          formatValidEmailAddressRegExp compoundDestinationText)).
Proof.
  rewrite validateCompoundDestination_spec. cbn [Worker.validPrimary].
  apply List.Forall_forall. intros p Hp. apply filter_In in Hp as [_ Hp].
  destruct p; [discriminate | congruence].
Qed.

(** ** The anatomy of an invocation *)

(** The invocation throws before any event (three empty groups of events). *)
Ltac ends_before_any_group :=
  eexists; exists [], [], []; rewrite !app_nil_r;
  split; [reflexivity|];
  split; [constructor|]; split; [constructor|]; split; [now left|];
  split; [reflexivity|]; split; [discriminate|];
  split; [intros; apply sublist_nil_l|]; split; [intros; apply sublist_nil_l|];
  intros; split; intros Hne; now destruct Hne.

Section Anatomy.

Variable RegExp : string -> option (string -> bool).
Variable HeadersTypeError : string -> string -> option string.
Variable message : Message.
Variable environment : Environment.

Local Abbreviation messageUser :=
  (fst (DEFAULTS.addressLocalParts (Worker.messageLocalPart message)
          (FORMAT_LOCAL_PART_SEPARATOR environment))).
Local Abbreviation messageSubaddress :=
  (snd (DEFAULTS.addressLocalParts (Worker.messageLocalPart message)
          (FORMAT_LOCAL_PART_SEPARATOR environment))).
Local Abbreviation thePassHeaders :=
  (JS.trim (CUSTOM_HEADER environment), JS.trim (CUSTOM_HEADER_PASS environment)).
Local Abbreviation theFailHeaders :=
  (JS.trim (CUSTOM_HEADER environment), JS.trim (CUSTOM_HEADER_FAIL environment)).
Local Abbreviation allowed :=
  (Worker.messageUserIsAllowed (FORMAT_PRIMARY_ADDRESS_SEPARATOR environment)
     (Worker.userDestinationWithRejectTreatment environment messageUser)
     (Worker.globalUsers environment) messageUser
   && Worker.messageSubaddressIsAllowed (FORMAT_PRIMARY_ADDRESS_SEPARATOR environment)
        (FORMAT_LOCAL_PART_SEPARATOR environment)
        (Worker.userSubaddresses environment messageUser) messageSubaddress).
Local Abbreviation rejectTreatment :=
  (Worker.userRejectTreatment (FORMAT_REJECT_SEPARATOR environment)
     (Worker.userDestinationWithRejectTreatment environment messageUser)
     (Worker.globalRejectTreatment environment)).
Local Abbreviation rejectReason :=
  (Worker.fullRejectReason
     (Worker.userRejectReason rejectTreatment (Worker.globalRejectTreatment environment)
        (REJECT_TREATMENT environment))
     (Worker.messageLocalPart message)).
Local Abbreviation validate validAddress :=
  (Worker.validateCompoundDestination (FORMAT_PRIMARY_ADDRESS_SEPARATOR environment)
     (FORMAT_BACKUP_ADDRESS_SEPARATOR environment)
     (FORMAT_LOCAL_PART_SEPARATOR environment) messageUser validAddress).

(** One invocation, event group by event group: the forwards of the accept
    forward, those of the reject forward, and the direct reject. *)
Lemma email_anatomy (h : list Event) :
  exists (completion : Completion unit) (ev1 ev2 ev3 : list Event),
    Worker.email RegExp HeadersTypeError message environment h
    = (completion, h ++ ev1 ++ ev2 ++ ev3)
    /\ List.Forall (carries thePassHeaders) ev1
    /\ List.Forall (carries theFailHeaders) ev2
    /\ (ev3 = []
        \/ (ev3 = [EvSetReject rejectReason] /\ completion = Normal tt
            /\ delivered ev2 = false))
    /\ (allowed = false -> ev1 = [])
    /\ (delivered ev1 = true -> ev2 = [] /\ ev3 = [])
    /\ (forall validAddress destination,
          RegExp (FORMAT_VALID_EMAIL_ADDRESS_REGEXP environment) = Some validAddress ->
          Worker.userDestination (FORMAT_REJECT_SEPARATOR environment)
            (Worker.userDestinationWithRejectTreatment environment messageUser)
            (Worker.globalDestination environment) = Normal destination ->
          forwardAddresses ev1
            `sublist_of` List.concat (Worker.validPrimary (validate validAddress destination)))
    /\ (forall validAddress,
          RegExp (FORMAT_VALID_EMAIL_ADDRESS_REGEXP environment) = Some validAddress ->
          forwardAddresses ev2
            `sublist_of`
            List.concat (Worker.validPrimary (validate validAddress rejectTreatment)))
    /\ (forall recoverable,
          RegExp (CLOUDFLARE_RECOVERABLE_FORWARDING_ERROR_REGEXP environment)
          = Some recoverable ->
          (forall m, recoverable m = true) ->
          (ev1 <> [] -> ev2 = [] /\ ev3 = []) /\ (ev2 <> [] -> ev3 = [])).
Proof.
  unfold Worker.email, Worker.newRegExp, Worker.validateCustomHeader.
  unfold bind at 1.
  destruct (RegExp (CLOUDFLARE_RECOVERABLE_FORWARDING_ERROR_REGEXP environment))
    as [recoverable|]; cbn [ret throw]; [|ends_before_any_group].
  unfold bind at 1.
  destruct (RegExp (FORMAT_VALID_EMAIL_ADDRESS_REGEXP environment))
    as [validAddress|]; cbn [ret throw]; [|ends_before_any_group].
  unfold bind at 1.
  destruct (RegExp (FORMAT_VALID_CUSTOM_HEADER_REGEXP environment))
    as [validHeader|]; cbn [ret throw]; [|ends_before_any_group].
  unfold bind at 1.
  destruct (validHeader (JS.trim (CUSTOM_HEADER environment))); cbn [ret throw];
    [|ends_before_any_group].
  destruct (DEFAULTS.addressLocalParts (Worker.messageLocalPart message)
              (FORMAT_LOCAL_PART_SEPARATOR environment))
    as [user subaddress] eqn:Hparts.
  cbn [fst snd].
  unfold bind at 1, Worker.liftCompletion.
  destruct (Worker.userDestination _ _ _) as [theUserDestination | e];
    [|ends_before_any_group].
  set (configuration :=
         {| recoverableForwardImplementationErrorRegExp := recoverable |}).
  set (validated :=
         Worker.validateCompoundDestination (FORMAT_PRIMARY_ADDRESS_SEPARATOR environment)
           (FORMAT_BACKUP_ADDRESS_SEPARATOR environment)
           (FORMAT_LOCAL_PART_SEPARATOR environment) user validAddress).
  set (treatment :=
         Worker.userRejectTreatment (FORMAT_REJECT_SEPARATOR environment)
           (Worker.userDestinationWithRejectTreatment environment user)
           (Worker.globalRejectTreatment environment)).
  set (reason := Worker.fullRejectReason _ _).
  unfold bind at 1.
  (* the accept forward *)
  destruct (Worker.messageUserIsAllowed _ _ _ _ && Worker.messageSubaddressIsAllowed _ _ _ _)
    eqn:Hallowed.
  - rewrite newHeaders_bind.
    destruct (HeadersTypeError _ _) as [m|]; [ends_before_any_group|]. cbn beta.
    destruct (forwardToCompoundDestination_anatomy message thePassHeaders configuration
                AcceptForwarding
                (Worker.validPrimary (validated theUserDestination)) h)
      as (results1 & ev1 & Hrun1 & _ & Hcar1 & Hsub1 & _ & _ & _ & _ & Hdef1).
    rewrite Hrun1.
    destruct (DEFAULTS.compoundHadRecoverableError results1) eqn:Hrec1.
    { (* the accept forward throws *)
      eexists; exists ev1, [], []. rewrite !app_nil_r.
      split; [reflexivity|]. split; [exact Hcar1|]. split; [constructor|].
      split; [now left|]. split; [discriminate|]. split; [auto|].
      split; [intros ? ? [= <-] [= <-]; exact Hsub1|].
      split; [intros; apply sublist_nil_l|]. intros. split; intros; split; reflexivity. }
    destruct (delivered ev1) eqn:Hdel1; cbn [negb].
    { (* the accept forward succeeds *)
      eexists; exists ev1, [], []. rewrite !app_nil_r.
      split; [reflexivity|]. split; [exact Hcar1|]. split; [constructor|].
      split; [now left|]. split; [discriminate|]. split; [auto|].
      split; [intros ? ? [= <-] [= <-]; exact Hsub1|].
      split; [intros; apply sublist_nil_l|]. intros. split; intros; split; reflexivity. }
    (* the reject forward, after an accept forward that delivered nothing *)
    unfold bind at 1.
    destruct (0 <? length (Worker.validPrimary (validated treatment)))%nat
      eqn:Hany.
    + assert (Hempty1 : (forall m, recoverable m = true) -> ev1 = []).
      { intros Hall. apply (Hdef1 Hall); [apply nonEmpty_validPrimary | auto | auto]. }
      rewrite newHeaders_bind.
      destruct (HeadersTypeError _ _) as [m|]; cbn beta.
      { (* the fail headers are refused *)
        eexists; exists ev1, [], []. rewrite !app_nil_r.
        split; [reflexivity|]. split; [exact Hcar1|]. split; [constructor|].
        split; [now left|]. split; [discriminate|]. split; [auto|].
        split; [intros ? ? [= <-] [= <-]; exact Hsub1|].
        split; [intros; apply sublist_nil_l|].
        intros. split; intros; split; reflexivity. }
      destruct (forwardToCompoundDestination_anatomy message theFailHeaders configuration
                  RejectForwarding
                  (Worker.validPrimary (validated treatment)) (h ++ ev1))
        as (results2 & ev2 & Hrun2 & _ & Hcar2 & Hsub2 & _ & _ & _ & _ & Hdef2).
      rewrite Hrun2.
      destruct (DEFAULTS.compoundHadRecoverableError results2) eqn:Hrec2;
        [|destruct (delivered ev2) eqn:Hdel2; cbn [negb]].
      * eexists; exists ev1, ev2, []. rewrite !app_nil_r, <- !app_assoc.
        split; [reflexivity|]. split; [exact Hcar1|]. split; [exact Hcar2|].
        split; [now left|]. split; [discriminate|]. split; [congruence|].
        split; [intros ? ? [= <-] [= <-]; exact Hsub1|].
        split; [intros ? [= <-]; exact Hsub2|].
        intros ? [= <-] Hall. split; [intros Hne; destruct (Hne (Hempty1 Hall)) | auto].
      * eexists; exists ev1, ev2, []. rewrite !app_nil_r, <- !app_assoc.
        split; [reflexivity|]. split; [exact Hcar1|]. split; [exact Hcar2|].
        split; [now left|]. split; [discriminate|]. split; [congruence|].
        split; [intros ? ? [= <-] [= <-]; exact Hsub1|].
        split; [intros ? [= <-]; exact Hsub2|].
        intros ? [= <-] Hall. split; [intros Hne; destruct (Hne (Hempty1 Hall)) | auto].
      * unfold setReject.
        eexists; exists ev1, ev2, [EvSetReject reason].
        rewrite <- !app_assoc.
        split; [reflexivity|]. split; [exact Hcar1|]. split; [exact Hcar2|].
        split; [right; auto|]. split; [discriminate|]. split; [congruence|].
        split; [intros ? ? [= <-] [= <-]; exact Hsub1|].
        split; [intros ? [= <-]; exact Hsub2|].
        intros ? [= <-] Hall. split; [intros Hne; destruct (Hne (Hempty1 Hall))|].
        intros Hne. exfalso. apply Hne.
        apply (Hdef2 Hall); [apply nonEmpty_validPrimary | auto | auto].
    + cbn [ret negb]. unfold setReject.
      assert (Hempty1 : (forall m, recoverable m = true) -> ev1 = []).
      { intros Hall. apply (Hdef1 Hall); [apply nonEmpty_validPrimary | auto | auto]. }
      eexists; exists ev1, [], [EvSetReject reason].
      cbn [app]. rewrite <- !app_assoc.
      split; [reflexivity|]. split; [exact Hcar1|]. split; [constructor|].
      split; [right; auto|]. split; [discriminate|]. split; [congruence|].
      split; [intros ? ? [= <-] [= <-]; exact Hsub1|].
      split; [intros; apply sublist_nil_l|].
      intros ? [= <-] Hall. split; [intros Hne; destruct (Hne (Hempty1 Hall))|].
      intros Hne. now destruct Hne.
  - (* the message user or the subaddress is not allowed *)
    cbn [ret negb]. unfold bind at 1.
    destruct (0 <? length (Worker.validPrimary (validated treatment)))%nat
      eqn:Hany.
    + rewrite newHeaders_bind.
      destruct (HeadersTypeError _ _) as [m|]; [ends_before_any_group|]. cbn beta.
      destruct (forwardToCompoundDestination_anatomy message theFailHeaders configuration
                  RejectForwarding
                  (Worker.validPrimary (validated treatment)) h)
        as (results2 & ev2 & Hrun2 & _ & Hcar2 & Hsub2 & _ & _ & _ & _ & Hdef2).
      rewrite Hrun2.
      destruct (DEFAULTS.compoundHadRecoverableError results2) eqn:Hrec2;
        [|destruct (delivered ev2) eqn:Hdel2; cbn [negb]].
      * eexists; exists [], ev2, []. rewrite !app_nil_r. cbn [app].
        split; [reflexivity|]. split; [constructor|]. split; [exact Hcar2|].
        split; [now left|]. split; [reflexivity|]. split; [discriminate|].
        split; [intros; apply sublist_nil_l|].
        split; [intros ? [= <-]; exact Hsub2|].
        intros. split; [intros Hne; now destruct Hne | auto].
      * eexists; exists [], ev2, []. rewrite !app_nil_r. cbn [app].
        split; [reflexivity|]. split; [constructor|]. split; [exact Hcar2|].
        split; [now left|]. split; [reflexivity|]. split; [discriminate|].
        split; [intros; apply sublist_nil_l|].
        split; [intros ? [= <-]; exact Hsub2|].
        intros. split; [intros Hne; now destruct Hne | auto].
      * unfold setReject.
        eexists; exists [], ev2, [EvSetReject reason].
        cbn [app]. rewrite <- app_assoc.
        split; [reflexivity|]. split; [constructor|]. split; [exact Hcar2|].
        split; [right; auto|]. split; [reflexivity|]. split; [discriminate|].
        split; [intros; apply sublist_nil_l|].
        split; [intros ? [= <-]; exact Hsub2|].
        intros ? [= <-] Hall. split; [intros Hne; now destruct Hne|].
        intros Hne. exfalso. apply Hne.
        apply (Hdef2 Hall); [apply nonEmpty_validPrimary | auto | auto].
    + cbn [ret negb]. unfold setReject.
      eexists; exists [], [], [EvSetReject reason].
      cbn [app].
      split; [reflexivity|]. split; [constructor|]. split; [constructor|].
      split; [right; auto|]. split; [reflexivity|]. split; [discriminate|].
      split; [intros; apply sublist_nil_l|]. split; [intros; apply sublist_nil_l|].
      intros. split; intros Hne; now destruct Hne.
Qed.

End Anatomy.

Section Setup.

Variable RegExp : string -> option (string -> bool).
Variable HeadersTypeError : string -> string -> option string.
Variable message : Message.
Variable environment : Environment.

(** A pattern that does not compile ends the invocation at once. *)
Lemma email_pattern_refused (h : list Event) :
  RegExp (CLOUDFLARE_RECOVERABLE_FORWARDING_ERROR_REGEXP environment) = None
  \/ RegExp (FORMAT_VALID_EMAIL_ADDRESS_REGEXP environment) = None
  \/ RegExp (FORMAT_VALID_CUSTOM_HEADER_REGEXP environment) = None ->
  exists m,
    Worker.email RegExp HeadersTypeError message environment h
    = (Throw (SyntaxError m), h).
Proof.
  unfold Worker.email, Worker.newRegExp. intros Hnone.
  unfold bind at 1.
  destruct (RegExp (CLOUDFLARE_RECOVERABLE_FORWARDING_ERROR_REGEXP environment));
    cbn [ret throw]; [|eauto].
  unfold bind at 1.
  destruct (RegExp (FORMAT_VALID_EMAIL_ADDRESS_REGEXP environment));
    cbn [ret throw]; [|eauto].
  unfold bind at 1.
  destruct (RegExp (FORMAT_VALID_CUSTOM_HEADER_REGEXP environment));
    cbn [ret throw]; [|eauto].
  destruct Hnone as [H | [H | H]]; discriminate.
Qed.

(** So does a custom header name the header pattern refuses. *)
Lemma email_header_refused (h : list Event)
  (recoverable validAddress validHeader : string -> bool) :
  RegExp (CLOUDFLARE_RECOVERABLE_FORWARDING_ERROR_REGEXP environment) = Some recoverable ->
  RegExp (FORMAT_VALID_EMAIL_ADDRESS_REGEXP environment) = Some validAddress ->
  RegExp (FORMAT_VALID_CUSTOM_HEADER_REGEXP environment) = Some validHeader ->
  validHeader (JS.trim (CUSTOM_HEADER environment)) = false ->
  Worker.email RegExp HeadersTypeError message environment h
  = (Throw (ThrownString ("Invalid custom header " +:+ JS.trim (CUSTOM_HEADER environment))),
     h).
Proof.
  intros H1 H2 H3 Hheader.
  unfold Worker.email, Worker.newRegExp, Worker.validateCustomHeader.
  unfold bind at 1. rewrite H1. cbn [ret].
  unfold bind at 1. rewrite H2. cbn [ret].
  unfold bind at 1. rewrite H3. cbn [ret].
  unfold bind at 1. rewrite Hheader. reflexivity.
Qed.

(** And so does a stored user value of which [.at(0)] is [undefined]. *)
Lemma email_no_destination (h : list Event) (e : Exception) :
  Worker.userDestination (FORMAT_REJECT_SEPARATOR environment)
    (Worker.userDestinationWithRejectTreatment environment
       (fst (DEFAULTS.addressLocalParts (Worker.messageLocalPart message)
               (FORMAT_LOCAL_PART_SEPARATOR environment))))
    (Worker.globalDestination environment)
  = Throw e ->
  exists e', Worker.email RegExp HeadersTypeError message environment h = (Throw e', h).
Proof.
  intros Hthrow.
  unfold Worker.email, Worker.newRegExp, Worker.validateCustomHeader.
  unfold bind at 1.
  destruct (RegExp (CLOUDFLARE_RECOVERABLE_FORWARDING_ERROR_REGEXP environment));
    cbn [ret throw]; [|eauto].
  unfold bind at 1.
  destruct (RegExp (FORMAT_VALID_EMAIL_ADDRESS_REGEXP environment));
    cbn [ret throw]; [|eauto].
  unfold bind at 1.
  destruct (RegExp (FORMAT_VALID_CUSTOM_HEADER_REGEXP environment)) as [validHeader|];
    cbn [ret throw]; [|eauto].
  unfold bind at 1.
  destruct (validHeader (JS.trim (CUSTOM_HEADER environment))); cbn [ret throw]; [|eauto].
  destruct (DEFAULTS.addressLocalParts (Worker.messageLocalPart message)
              (FORMAT_LOCAL_PART_SEPARATOR environment))
    as [user subaddress].
  cbn [fst] in Hthrow.
  unfold bind at 1, Worker.liftCompletion. rewrite Hthrow. eauto.
Qed.

(** Without a compiled address pattern or a user destination, no event. *)
Lemma email_groups_empty (h : list Event) (completion : Completion unit)
  (ev1 ev2 ev3 : list Event) :
  Worker.email RegExp HeadersTypeError message environment h
  = (completion, h ++ ev1 ++ ev2 ++ ev3) ->
  RegExp (FORMAT_VALID_EMAIL_ADDRESS_REGEXP environment) = None
  \/ (exists e,
        Worker.userDestination (FORMAT_REJECT_SEPARATOR environment)
          (Worker.userDestinationWithRejectTreatment environment
             (fst (DEFAULTS.addressLocalParts (Worker.messageLocalPart message)
                     (FORMAT_LOCAL_PART_SEPARATOR environment))))
          (Worker.globalDestination environment)
        = Throw e) ->
  ev1 = [] /\ ev2 = [] /\ ev3 = [].
Proof.
  intros Hrun Hsetup.
  assert (Hh : exists e, Worker.email RegExp HeadersTypeError message environment h
                         = (Throw e, h)).
  { destruct Hsetup as [Hnone | [e He]].
    - destruct (email_pattern_refused h) as [m Hm]; eauto.
    - exact (email_no_destination h e He). }
  destruct Hh as [e He]. rewrite He in Hrun. injection Hrun as _ Hev.
  rewrite <- (app_nil_r h) in Hev at 1. apply app_inv_head in Hev.
  symmetry in Hev. apply app_eq_nil in Hev as [-> Hev].
  apply app_eq_nil in Hev as [-> ->]. auto.
Qed.

End Setup.

(** X6.  A pattern that does not compile, or a custom header name the header
    pattern refuses, ends the invocation before anything happens: [email]
    throws (a [SyntaxError], or the string naming the header) and the message
    is neither forwarded nor rejected. *)
Theorem email_setup_error (RegExp : string -> option (string -> bool))
  (HeadersTypeError : string -> string -> option string)
  (message : Message) (environment : Environment) (h : list Event) :
  RegExp (CLOUDFLARE_RECOVERABLE_FORWARDING_ERROR_REGEXP environment) = None
  \/ RegExp (FORMAT_VALID_EMAIL_ADDRESS_REGEXP environment) = None
  \/ RegExp (FORMAT_VALID_CUSTOM_HEADER_REGEXP environment) = None
  \/ (exists validHeader,
        RegExp (FORMAT_VALID_CUSTOM_HEADER_REGEXP environment) = Some validHeader
        /\ validHeader (JS.trim (CUSTOM_HEADER environment)) = false) ->
  exists e,
    Worker.email RegExp HeadersTypeError message environment h = (Throw e, h)
    /\ ((exists m, e = SyntaxError m)
        \/ e = ThrownString
                 ("Invalid custom header " +:+ JS.trim (CUSTOM_HEADER environment))).
Proof.
  intros Hsetup.
  destruct (RegExp (CLOUDFLARE_RECOVERABLE_FORWARDING_ERROR_REGEXP environment))
    as [recoverable|] eqn:H1;
    [|destruct (email_pattern_refused RegExp HeadersTypeError message
                 environment h) as [m Hm]; eauto 6].
  destruct (RegExp (FORMAT_VALID_EMAIL_ADDRESS_REGEXP environment))
    as [validAddress|] eqn:H2;
    [|destruct (email_pattern_refused RegExp HeadersTypeError message
                 environment h) as [m Hm]; eauto 6].
  destruct (RegExp (FORMAT_VALID_CUSTOM_HEADER_REGEXP environment))
    as [validHeader|] eqn:H3;
    [|destruct (email_pattern_refused RegExp HeadersTypeError message
                 environment h) as [m Hm]; eauto 6].
  destruct Hsetup as [H | [H | [H | (validHeader' & [= <-] & Hheader)]]];
    try discriminate.
  eexists. split; [|right; reflexivity].
  exact (email_header_refused RegExp HeadersTypeError message environment h _ _ _
           H1 H2 H3 Hheader).
Qed.

(** A custom header name without the [X-] the default pattern asks for. *)
Lemma email_setup_error_witness :
  let environment :=
    withStore
      {| USE_STORED_ADDRESS_CONFIGURATION := "false";
         USE_STORED_USER_CONFIGURATION := "true";
         DESTINATION := "user1@email.com";
         REJECT_TREATMENT := DEFAULTS.REJECT_TREATMENT;
         SUBADDRESSES := "*";
         USERS := "user1";
         CLOUDFLARE_RECOVERABLE_FORWARDING_ERROR_REGEXP := ".*";
         FORMAT_PRIMARY_ADDRESS_SEPARATOR := ",";
         FORMAT_BACKUP_ADDRESS_SEPARATOR := ":";
         FORMAT_LOCAL_PART_SEPARATOR := "+";
         FORMAT_REJECT_SEPARATOR := ";";
         FORMAT_VALID_CUSTOM_HEADER_REGEXP := "X-.*";
         FORMAT_VALID_EMAIL_ADDRESS_REGEXP := "@";
         CUSTOM_HEADER := " My-Email-Forwarding ";
         CUSTOM_HEADER_FAIL := "fail";
         CUSTOM_HEADER_PASS := "pass";
         MAP := ∅ |} ∅ in
  Worker.email sampleRegExp sampleHeaders
    {| to := "user1@domain.com"; transport := fun _ _ _ => Resolved |} environment []
  = (Throw (ThrownString "Invalid custom header My-Email-Forwarding"), []).
Proof.
  intros environment.
  destruct (email_setup_error sampleRegExp sampleHeaders
              {| to := "user1@domain.com"; transport := fun _ _ _ => Resolved |}
              environment [])
    as (e & Hrun & He).
  - right; right; right. eexists. split; reflexivity.
  - rewrite Hrun. vm_compute in Hrun. injection Hrun as <-. reflexivity.
Defined.

Section Disposed.

Variable RegExp : string -> option (string -> bool).
Variable HeadersTypeError : string -> string -> option string.
Variable message : Message.
Variable environment : Environment.

(** The anatomy, in the vocabulary of the properties. *)
Lemma email_groups (h : list Event) :
  exists (completion : Completion unit) (ev1 ev2 ev3 : list Event),
    Worker.email RegExp HeadersTypeError message environment h
    = (completion, h ++ ev1 ++ ev2 ++ ev3)
    /\ List.Forall (carries (passHeaders environment)) ev1
    /\ List.Forall (carries (failHeaders environment)) ev2
    /\ (ev3 = []
        \/ (ev3 = [EvSetReject (fullRejectReasonOf message environment)]
            /\ completion = Normal tt /\ delivered ev2 = false))
    /\ (acceptIsAllowed message environment = false -> ev1 = [])
    /\ (delivered ev1 = true -> ev2 = [] /\ ev3 = [])
    /\ NoDup (forwardAddresses ev1)
    /\ NoDup (forwardAddresses ev2)
    /\ (forall validAddress,
          RegExp (FORMAT_VALID_EMAIL_ADDRESS_REGEXP environment) = Some validAddress ->
          forall a, In a (forwardAddresses ev1 ++ forwardAddresses ev2) ->
                    validAddress a = true)
    /\ (forall recoverable,
          RegExp (CLOUDFLARE_RECOVERABLE_FORWARDING_ERROR_REGEXP environment)
          = Some recoverable ->
          (forall m, recoverable m = true) ->
          (ev1 <> [] -> ev2 = [] /\ ev3 = []) /\ (ev2 <> [] -> ev3 = [])).
Proof.
  destruct (email_anatomy RegExp HeadersTypeError message environment h)
    as (completion & ev1 & ev2 & ev3 & Hrun & Hcar1 & Hcar2 & Hev3 & Hno & Hdel
        & Hsub1 & Hsub2 & Hdef).
  exists completion, ev1, ev2, ev3.
  split; [exact Hrun|]. split; [exact Hcar1|]. split; [exact Hcar2|].
  split; [exact Hev3|]. split; [exact Hno|]. split; [exact Hdel|].
  destruct (RegExp (FORMAT_VALID_EMAIL_ADDRESS_REGEXP environment))
    as [validAddress|] eqn:Hpattern.
  2:{ destruct (email_groups_empty RegExp HeadersTypeError message environment h _ _ _ _ Hrun)
        as (-> & -> & ->); [now left|].
      split; [constructor|]. split; [constructor|].
      split; [intros ? [=]|]. exact Hdef. }
  specialize (Hsub2 validAddress eq_refl).
  assert (Hvalid2 : forall a, In a (forwardAddresses ev2) -> validAddress a = true).
  { intros a Ha. apply list_elem_of_In in Ha.
    pose proof (elem_of_sublist _ _ _ Ha Hsub2) as Hin.
    apply list_elem_of_In in Hin. exact (validPrimary_valid _ _ _ _ _ _ _ Hin). }
  destruct (Worker.userDestination (FORMAT_REJECT_SEPARATOR environment)
              (Worker.userDestinationWithRejectTreatment environment
                 (fst (DEFAULTS.addressLocalParts (Worker.messageLocalPart message)
                         (FORMAT_LOCAL_PART_SEPARATOR environment))))
              (Worker.globalDestination environment))
    as [destination | e] eqn:Hdest.
  2:{ destruct (email_groups_empty RegExp HeadersTypeError message environment h _ _ _ _ Hrun)
        as (-> & -> & ->); [right; eauto|].
      split; [constructor|]. split; [constructor|].
      split; [intros ? _ ? []|]. exact Hdef. }
  specialize (Hsub1 validAddress destination eq_refl eq_refl).
  split; [exact (sublist_NoDup _ _ (NoDup_validPrimary _ _ _ _ _ _) Hsub1)|].
  split; [exact (sublist_NoDup _ _ (NoDup_validPrimary _ _ _ _ _ _) Hsub2)|].
  split; [|exact Hdef].
  intros ? [= <-] a Ha. apply in_app_or in Ha as [Ha | Ha]; [|exact (Hvalid2 a Ha)].
  apply list_elem_of_In in Ha.
  pose proof (elem_of_sublist _ _ _ Ha Hsub1) as Hin.
  apply list_elem_of_In in Hin. exact (validPrimary_valid _ _ _ _ _ _ _ Hin).
Qed.

End Disposed.

(** ** Properties of every invocation *)

Lemma In_forwardAddresses (events : list Event) (a : string) (headers : Headers)
  (outcome : Settled) :
  In (EvForward a headers outcome) events -> In a (forwardAddresses events).
Proof.
  intros Hin. unfold forwardAddresses. apply in_flat_map.
  exists (EvForward a headers outcome). split; [exact Hin | now left].
Qed.

Lemma carries_setRejectCount (headers : Headers) (events : list Event) :
  List.Forall (carries headers) events -> setRejectCount events = 0%nat.
Proof.
  induction 1 as [|[a hd o | r] events Hc _ IH]; [reflexivity | exact IH | destruct Hc].
Qed.

(** X7.  The events of one invocation come in three groups, in this order:
    forwards that carry the custom header with its pass value (the accept
    forward), forwards that carry it with its fail value (the reject
    forward), and at most one [setReject], with the full reject reason.
    Within a group no address is attempted twice. *)
Theorem email_event_groups (RegExp : string -> option (string -> bool))
  (HeadersTypeError : string -> string -> option string)
  (message : Message) (environment : Environment) (h : list Event) :
  exists (completion : Completion unit) (ev1 ev2 ev3 : list Event),
    Worker.email RegExp HeadersTypeError message environment h
    = (completion, h ++ ev1 ++ ev2 ++ ev3)
    /\ List.Forall (carries (passHeaders environment)) ev1
    /\ List.Forall (carries (failHeaders environment)) ev2
    /\ (ev3 = [] \/ ev3 = [EvSetReject (fullRejectReasonOf message environment)])
    /\ NoDup (forwardAddresses ev1)
    /\ NoDup (forwardAddresses ev2).
Proof.
  destruct (email_groups RegExp HeadersTypeError message environment h)
    as (completion & ev1 & ev2 & ev3 & Hrun & Hcar1 & Hcar2 & Hev3 & _ & _
        & Hnd1 & Hnd2 & _).
  exists completion, ev1, ev2, ev3. repeat (split; [assumption|]).
  split; [|split; assumption].
  destruct Hev3 as [-> | [-> _]]; auto.
Qed.

(** X8.  [email] forwards only to addresses the compiled address pattern
    accepts. *)
Theorem email_forwards_only_to_valid_addresses
  (RegExp : string -> option (string -> bool))
  (HeadersTypeError : string -> string -> option string) (message : Message)
  (environment : Environment) (h : list Event) (validAddress : string -> bool) :
  RegExp (FORMAT_VALID_EMAIL_ADDRESS_REGEXP environment) = Some validAddress ->
  exists (completion : Completion unit) (events : list Event),
    Worker.email RegExp HeadersTypeError message environment h = (completion, h ++ events)
    /\ forall address headers outcome,
         In (EvForward address headers outcome) events -> validAddress address = true.
Proof.
  intros Hpattern.
  destruct (email_groups RegExp HeadersTypeError message environment h)
    as (completion & ev1 & ev2 & ev3 & Hrun & _ & _ & Hev3 & _ & _ & _ & _ & Hvalid & _).
  exists completion, (ev1 ++ ev2 ++ ev3). split; [exact Hrun|].
  intros address headers outcome Hin. apply (Hvalid validAddress Hpattern).
  apply in_app_or in Hin as [Hin | Hin];
    [apply in_or_app; left; exact (In_forwardAddresses _ _ _ _ Hin)|].
  apply in_app_or in Hin as [Hin | Hin];
    [apply in_or_app; right; exact (In_forwardAddresses _ _ _ _ Hin)|].
  destruct Hev3 as [-> | [-> _]]; [destruct Hin|].
  destruct Hin as [Hin | []]. discriminate.
Qed.

(** A destination with an invalid backup in the first place. *)
Lemma email_forwards_only_to_valid_addresses_witness :
  let environment :=
    configured "no-address:user1@email.com" DEFAULTS.REJECT_TREATMENT "*" "user1"
      "false" ∅ in
  let message := {| to := "user1@domain.com"; transport := fun _ _ _ => Resolved |} in
  exists completion events,
    Worker.email sampleRegExp sampleHeaders message environment [] = (completion, events)
    /\ events = [EvForward "user1@email.com" ("X-My-Email-Forwarding", "pass") Resolved]
    /\ forall address headers outcome,
         In (EvForward address headers outcome) events ->
         JS.includes address "@" = true.
Proof.
  intros environment message.
  destruct (email_forwards_only_to_valid_addresses sampleRegExp sampleHeaders message
              environment []
              (fun text => JS.includes text "@") eq_refl)
    as (completion & events & Hrun & Hvalid).
  exists completion, events. split; [exact Hrun|]. split; [|exact Hvalid].
  vm_compute in Hrun. now injection Hrun as _ <-.
Defined.

(** X9.  When the message user or the subaddress is not allowed, no accept
    forward is attempted: every forward of the invocation carries the custom
    header with its fail value, and what follows them is at most the direct
    reject. *)
Theorem email_not_allowed_no_accept_forward
  (RegExp : string -> option (string -> bool))
  (HeadersTypeError : string -> string -> option string) (message : Message)
  (environment : Environment) (h : list Event) :
  acceptIsAllowed message environment = false ->
  exists (completion : Completion unit) (ev2 ev3 : list Event),
    Worker.email RegExp HeadersTypeError message environment h
    = (completion, h ++ ev2 ++ ev3)
    /\ List.Forall (carries (failHeaders environment)) ev2
    /\ (ev3 = [] \/ ev3 = [EvSetReject (fullRejectReasonOf message environment)]).
Proof.
  intros Hnot.
  destruct (email_groups RegExp HeadersTypeError message environment h)
    as (completion & ev1 & ev2 & ev3 & Hrun & _ & Hcar2 & Hev3 & Hno & _).
  rewrite (Hno Hnot) in Hrun. cbn [app] in Hrun.
  exists completion, ev2, ev3. split; [exact Hrun|]. split; [exact Hcar2|].
  destruct Hev3 as [-> | [-> _]]; auto.
Qed.

(** A recipient that is not among the users, and a reject treatment that
    forwards. *)
Lemma email_not_allowed_no_accept_forward_witness :
  let environment :=
    configured "user1@email.com" "+spam@email.com" "*" "user1" "false" ∅ in
  let message := {| to := "user2@domain.com"; transport := fun _ _ _ => Resolved |} in
  acceptIsAllowed message environment = false
  /\ exists completion ev2 ev3,
       Worker.email sampleRegExp sampleHeaders message environment []
       = (completion, ev2 ++ ev3)
       /\ ev2 ++ ev3
          = [EvForward "user2+spam@email.com" ("X-My-Email-Forwarding", "fail") Resolved]
       /\ List.Forall (carries (failHeaders environment)) ev2.
Proof.
  intros environment message.
  assert (Hnot : acceptIsAllowed message environment = false) by (vm_compute; reflexivity).
  split; [exact Hnot|].
  destruct (email_not_allowed_no_accept_forward sampleRegExp sampleHeaders message
              environment [] Hnot)
    as (completion & ev2 & ev3 & Hrun & Hcar & _).
  exists completion, ev2, ev3. split; [exact Hrun|]. split; [|exact Hcar].
  assert (Hvalue :
    Worker.email sampleRegExp sampleHeaders message environment []
    = (Normal tt,
       [EvForward "user2+spam@email.com" ("X-My-Email-Forwarding", "fail") Resolved]))
    by (vm_compute; reflexivity).
  rewrite Hvalue in Hrun. injection Hrun as _ Hev. symmetry. exact Hev.
Defined.

(** X10.  A delivery is final: after an accept forward that delivered the
    message there is no reject forward and no direct reject, and after a
    reject forward that delivered it there is no direct reject. *)
Theorem email_delivery_is_final (RegExp : string -> option (string -> bool))
  (HeadersTypeError : string -> string -> option string)
  (message : Message) (environment : Environment) (h : list Event) :
  exists (completion : Completion unit) (ev1 ev2 ev3 : list Event),
    Worker.email RegExp HeadersTypeError message environment h
    = (completion, h ++ ev1 ++ ev2 ++ ev3)
    /\ List.Forall (carries (passHeaders environment)) ev1
    /\ List.Forall (carries (failHeaders environment)) ev2
    /\ setRejectCount ev3 = length ev3
    /\ (delivered ev1 = true -> ev2 = [] /\ ev3 = [])
    /\ (delivered ev2 = true -> ev3 = []).
Proof.
  destruct (email_groups RegExp HeadersTypeError message environment h)
    as (completion & ev1 & ev2 & ev3 & Hrun & Hcar1 & Hcar2 & Hev3 & _ & Hdel & _).
  exists completion, ev1, ev2, ev3. repeat (split; [assumption|]).
  split; [destruct Hev3 as [-> | [-> _]]; reflexivity|].
  split; [exact Hdel|].
  intros Hd. destruct Hev3 as [-> | (_ & _ & Hnd)]; [reflexivity | congruence].
Qed.

(** X11.  With a recoverable-error pattern that matches every message, as
    the default one does, an invocation that attempts any forward never
    rejects the message: either its only event is the direct reject, or
    [setReject] is not called. *)
Theorem email_default_pattern_rejects_only_unattempted
  (RegExp : string -> option (string -> bool))
  (HeadersTypeError : string -> string -> option string) (message : Message)
  (environment : Environment) (h : list Event) (recoverable : string -> bool) :
  RegExp (CLOUDFLARE_RECOVERABLE_FORWARDING_ERROR_REGEXP environment) = Some recoverable ->
  (forall m, recoverable m = true) ->
  exists (completion : Completion unit) (events : list Event),
    Worker.email RegExp HeadersTypeError message environment h = (completion, h ++ events)
    /\ (events = [EvSetReject (fullRejectReasonOf message environment)]
        \/ setRejectCount events = 0%nat).
Proof.
  intros Hpattern Hall.
  destruct (email_groups RegExp HeadersTypeError message environment h)
    as (completion & ev1 & ev2 & ev3 & Hrun & Hcar1 & Hcar2 & Hev3 & _ & _ & _ & _ & _
        & Hdef).
  destruct (Hdef recoverable Hpattern Hall) as [H1 H2].
  exists completion, (ev1 ++ ev2 ++ ev3). split; [exact Hrun|].
  destruct Hev3 as [-> | [-> _]].
  - right. rewrite app_nil_r, setRejectCount_app,
      (carries_setRejectCount _ _ Hcar1), (carries_setRejectCount _ _ Hcar2).
    reflexivity.
  - left. destruct ev1 as [|ev ev1].
    + destruct ev2 as [|ev ev2]; [reflexivity|].
      assert (Hne : ev :: ev2 <> []) by discriminate.
      specialize (H2 Hne). discriminate.
    + assert (Hne : ev :: ev1 <> []) by discriminate.
      destruct (H1 Hne) as [_ H]. discriminate.
Qed.

(** The default pattern and a destination that fails: the handler throws
    rather than rejecting. *)
Lemma email_default_pattern_rejects_only_unattempted_witness :
  let environment :=
    configured "user1@email.com" DEFAULTS.REJECT_TREATMENT "*" "user1" "false" ∅ in
  let message :=
    {| to := "user1@domain.com";
       transport := fun _ _ _ => Rejected (Error "destination address not verified") |} in
  exists completion events,
    Worker.email sampleRegExp sampleHeaders message environment [] = (completion, events)
    /\ completion
       = Throw (RecoverableForwardError [Error "destination address not verified"])
    /\ setRejectCount events = 0%nat.
Proof.
  intros environment message.
  destruct (email_default_pattern_rejects_only_unattempted sampleRegExp sampleHeaders message
              environment [] (fun _ => true) eq_refl (fun _ => eq_refl))
    as (completion & events & Hrun & Hcase).
  exists completion, events. split; [exact Hrun|].
  vm_compute in Hrun. injection Hrun as <- <-. split; reflexivity.
Defined.

(** ** Splitting on a separator of one code unit *)

Section SplitChar.

Variable c : ascii.

Local Abbreviation sep := (String c EmptyString).

Lemma hasChar_append (a b : string) :
  hasChar c (a +:+ b) = hasChar c a || hasChar c b.
Proof.
  induction a as [|d a IH]; [reflexivity|].
  rewrite append_cons. cbn [hasChar]. now rewrite IH, orb_assoc.
Qed.

Lemma prefix_char (s : string) :
  String.prefix sep s = match s with
                        | EmptyString => false
                        | String d _ => Ascii.eqb c d
                        end.
Proof.
  destruct s as [|d s]; [reflexivity|]. cbn [String.prefix].
  destruct (ascii_dec c d) as [-> | Hne].
  - rewrite Ascii.eqb_refl. now destruct s.
  - apply Ascii.eqb_neq in Hne. now rewrite Hne.
Qed.

(** A string without the separator is one piece. *)
Lemma splitFrom_absent (s cur : string) :
  hasChar c s = false -> JS.splitFrom sep s 0 cur = [cur +:+ s].
Proof.
  revert cur. induction s as [|d s IH]; intros cur Hs.
  - simpl. now rewrite append_empty_r.
  - cbn [hasChar] in Hs. apply orb_false_iff in Hs as [Hd Hs].
    cbn [JS.splitFrom]. rewrite prefix_char, Hd, (IH _ Hs), append_assoc.
    reflexivity.
Qed.

(** The first piece ends at the first separator. *)
Lemma splitFrom_here (x rest cur : string) :
  hasChar c x = false ->
  JS.splitFrom sep (x +:+ String c rest) 0 cur
  = (cur +:+ x) :: JS.splitFrom sep rest 0 EmptyString.
Proof.
  revert cur. induction x as [|d x IH]; intros cur Hx.
  - rewrite append_empty_l. cbn [JS.splitFrom]. rewrite prefix_char, Ascii.eqb_refl.
    now rewrite append_empty_r.
  - cbn [hasChar] in Hx. apply orb_false_iff in Hx as [Hd Hx].
    rewrite append_cons. cbn [JS.splitFrom]. rewrite prefix_char, Hd, (IH _ Hx).
    now rewrite append_assoc.
Qed.

Lemma split_absent (s : string) : hasChar c s = false -> JS.split s sep = [s].
Proof. intros Hs. unfold JS.split. now rewrite splitFrom_absent. Qed.

Lemma split_here (x rest : string) :
  hasChar c x = false ->
  JS.split (x +:+ String c rest) sep = x :: JS.split rest sep.
Proof. intros Hx. unfold JS.split. now rewrite splitFrom_here. Qed.

(** Where a code unit occurs, it occurs for a first time. *)
Lemma hasChar_first (s : string) :
  hasChar c s = true ->
  exists x rest, s = x +:+ String c rest /\ hasChar c x = false.
Proof.
  induction s as [|d s IH]; [discriminate|]. cbn [hasChar].
  destruct (Ascii.eqb_spec c d) as [<- | Hne].
  - intros _. exists "", s. split; reflexivity.
  - cbn [orb]. intros Hs. destruct (IH Hs) as (x & rest & -> & Hx).
    exists (String d x), rest. split; [reflexivity|]. cbn [hasChar].
    apply Ascii.eqb_neq in Hne. now rewrite Hne.
Qed.

(** Joining pieces that hold no separator and splitting again gives the
    pieces back. *)
Lemma split_join (pieces : list string) :
  pieces <> [] ->
  List.Forall (fun piece => hasChar c piece = false) pieces ->
  JS.split (JS.join sep pieces) sep = pieces.
Proof.
  induction pieces as [|piece pieces IH]; [contradiction|].
  intros _ Hall. inversion Hall as [|? ? Hpiece Hrest]; subst.
  destruct pieces as [|next pieces].
  - cbn [JS.join]. now apply split_absent.
  - change (JS.join sep (piece :: next :: pieces))
      with (piece +:+ sep +:+ JS.join sep (next :: pieces)).
    change (sep +:+ JS.join sep (next :: pieces))
      with (String c (JS.join sep (next :: pieces))).
    rewrite (split_here _ _ Hpiece), IH; [reflexivity | discriminate | exact Hrest].
Qed.

End SplitChar.

(** ** The local part of the recipient *)

(** X12.  The local part [email] takes from the recipient address holds no
    at sign: it is the whole address when the address holds none, and else
    what stands before its first at sign. *)
Theorem messageLocalPart_before_at (message : Message) :
  JS.includes (Worker.messageLocalPart message) "@" = false
  /\ ((JS.includes (to message) "@" = false
       /\ Worker.messageLocalPart message = to message)
      \/ exists rest, to message = Worker.messageLocalPart message +:+ "@" +:+ rest).
Proof.
  unfold Worker.messageLocalPart. rewrite !includes_char.
  destruct (hasChar "@" (to message)) eqn:Hat.
  - destruct (hasChar_first _ _ Hat) as (x & rest & Hto & Hx).
    rewrite Hto, (split_here _ _ _ Hx). split; [exact Hx|]. right. now exists rest.
  - rewrite (split_absent _ _ Hat). split; [exact Hat|]. left. auto.
Qed.





(** ** The stored value of a user *)

(** [userDestination] throws only on the empty stored value split on the
    empty separator. *)
Lemma userDestination_throw_inv (FORMAT_REJECT_SEPARATOR : string)
  (stored : option string) (globalDestination : string) (e : Exception) :
  Worker.userDestination FORMAT_REJECT_SEPARATOR stored globalDestination = Throw e ->
  e = TypeError "Cannot read properties of undefined (reading 'trim')"
  /\ FORMAT_REJECT_SEPARATOR = EmptyString /\ stored = Some EmptyString.
Proof.
  unfold Worker.userDestination. destruct stored as [v|]; [|discriminate].
  destruct (JS.at_ (JS.split v FORMAT_REJECT_SEPARATOR) 0) as [first|] eqn:Hat;
    [discriminate|].
  intros [= <-]. split; [reflexivity|].
  unfold JS.at_ in Hat.
  destruct (JS.split v FORMAT_REJECT_SEPARATOR) as [|piece pieces] eqn:Hsplit;
    [|discriminate].
  destruct FORMAT_REJECT_SEPARATOR as [|c sep].
  - split; [reflexivity|]. destruct v; [reflexivity | discriminate].
  - now destruct (split_nonempty v (String c sep)).
Qed.

(** X14.  [userDestination] throws in one case only: the store holds the
    empty string for the user and the reject separator is configured empty,
    so that the split gives no piece at all.  With any other separator or
    value it returns a destination. *)
Theorem userDestination_throws_iff (FORMAT_REJECT_SEPARATOR : string)
  (stored : option string) (globalDestination : string) :
  (exists e,
     Worker.userDestination FORMAT_REJECT_SEPARATOR stored globalDestination = Throw e)
  <-> FORMAT_REJECT_SEPARATOR = EmptyString /\ stored = Some EmptyString.
Proof.
  split.
  - intros [e He]. now destruct (userDestination_throw_inv _ _ _ _ He) as (_ & ? & ?).
  - intros [-> ->]. eexists. reflexivity.
Qed.

(** X15.  A stored user value [destination;treatment], the separator being
    one code unit that occurs in neither part, gives the two parts back
    trimmed; an empty part defers to the global value.  Without a separator
    the value is the destination and the reject treatment is the global
    one; what follows a second separator is ignored. *)
Theorem stored_user_value_parts (c : ascii)
  (destination treatment more globalDestination globalRejectTreatment : string) :
  hasChar c destination = false ->
  hasChar c treatment = false ->
  let separator := String c EmptyString in
  (Worker.userDestination separator (Some destination) globalDestination
   = Normal (Worker.orElse (Some (JS.trim destination)) globalDestination)
   /\ Worker.userRejectTreatment separator (Some destination) globalRejectTreatment
      = globalRejectTreatment)
  /\ (Worker.userDestination separator
        (Some (destination +:+ separator +:+ treatment)) globalDestination
      = Normal (Worker.orElse (Some (JS.trim destination)) globalDestination)
      /\ Worker.userRejectTreatment separator
           (Some (destination +:+ separator +:+ treatment)) globalRejectTreatment
         = Worker.orElse (Some (JS.trim treatment)) globalRejectTreatment)
  /\ (Worker.userDestination separator
        (Some (destination +:+ separator +:+ treatment +:+ separator +:+ more))
        globalDestination
      = Normal (Worker.orElse (Some (JS.trim destination)) globalDestination)
      /\ Worker.userRejectTreatment separator
           (Some (destination +:+ separator +:+ treatment +:+ separator +:+ more))
           globalRejectTreatment
         = Worker.orElse (Some (JS.trim treatment)) globalRejectTreatment).
Proof.
  intros Hd Ht separator. subst separator.
  unfold Worker.userDestination, Worker.userRejectTreatment.
  change (String c "" +:+ treatment +:+ String c "" +:+ more)
    with (String c (treatment +:+ String c more)).
  change (String c "" +:+ treatment) with (String c treatment).
  cbn [mbind option_bind].
  rewrite (split_absent _ _ Hd).
  rewrite !(split_here _ _ _ Hd).
  rewrite (split_here _ _ _ Ht).
  rewrite (split_absent _ _ Ht).
  repeat split.
Qed.

Lemma stored_user_value_parts_witness :
  Worker.userDestination ";" (Some "user1@email.com; No such recipient") "global@email.com"
  = Normal "user1@email.com"
  /\ Worker.userRejectTreatment ";" (Some "user1@email.com; No such recipient") ""
     = "No such recipient".
Proof.
  destruct (stored_user_value_parts ";" "user1@email.com" " No such recipient" ""
              "global@email.com" "" eq_refl eq_refl)
    as (_ & (Hdestination & Htreatment) & _).
  split; [exact Hdestination | exact Htreatment].
Defined.

(** ** What an invocation throws *)

(** X16.  A [RecoverableForwardError] that [email] throws is that of the
    accept forward or that of the reject forward, and carries the errors of
    that forward alone, each once, at least one of them: the errors of an
    accept forward that failed before the reject forward threw are not in it.
    The message has not been rejected, and nothing was delivered before the
    forward that threw. *)
Theorem email_recoverable_error_of_one_forward
  (RegExp : string -> option (string -> bool))
  (HeadersTypeError : string -> string -> option string)
  (message : Message) (environment : Environment) (h h' : list Event)
  (errors : list Exception) :
  Worker.email RegExp HeadersTypeError message environment h
  = (Throw (RecoverableForwardError errors), h') ->
  exists before events,
    h' = h ++ before ++ events
    /\ Permutation errors (thrownErrors events)
    /\ errors <> []
    /\ setRejectCount (before ++ events) = 0%nat
    /\ delivered before = false
    /\ List.Forall (carries (passHeaders environment)) before
    /\ ((before = [] /\ List.Forall (carries (passHeaders environment)) events)
        \/ List.Forall (carries (failHeaders environment)) events).
Proof.
  unfold Worker.email, Worker.newRegExp, Worker.validateCustomHeader.
  unfold bind at 1.
  destruct (RegExp (CLOUDFLARE_RECOVERABLE_FORWARDING_ERROR_REGEXP environment))
    as [recoverable|]; cbn [ret throw]; [|discriminate].
  unfold bind at 1.
  destruct (RegExp (FORMAT_VALID_EMAIL_ADDRESS_REGEXP environment))
    as [validAddress|]; cbn [ret throw]; [|discriminate].
  unfold bind at 1.
  destruct (RegExp (FORMAT_VALID_CUSTOM_HEADER_REGEXP environment))
    as [validHeader|]; cbn [ret throw]; [|discriminate].
  unfold bind at 1.
  destruct (validHeader (JS.trim (CUSTOM_HEADER environment))); cbn [ret throw];
    [|discriminate].
  destruct (DEFAULTS.addressLocalParts (Worker.messageLocalPart message)
              (FORMAT_LOCAL_PART_SEPARATOR environment))
    as [user subaddress] eqn:Hparts.
  unfold bind at 1, Worker.liftCompletion.
  destruct (Worker.userDestination _ _ _) as [theUserDestination | e0] eqn:Hdestination.
  2:{ intros Hthrow. injection Hthrow as -> _.
      now destruct (userDestination_throw_inv _ _ _ _ Hdestination). }
  set (configuration :=
         {| recoverableForwardImplementationErrorRegExp := recoverable |}).
  set (validated :=
         Worker.validateCompoundDestination (FORMAT_PRIMARY_ADDRESS_SEPARATOR environment)
           (FORMAT_BACKUP_ADDRESS_SEPARATOR environment)
           (FORMAT_LOCAL_PART_SEPARATOR environment) user validAddress).
  set (treatment :=
         Worker.userRejectTreatment (FORMAT_REJECT_SEPARATOR environment)
           (Worker.userDestinationWithRejectTreatment environment user)
           (Worker.globalRejectTreatment environment)).
  set (reason := Worker.fullRejectReason _ _).
  (* the reject forward, after the events [ev1] without a delivery *)
  assert (Hreject : forall ev1,
    delivered ev1 = false -> setRejectCount ev1 = 0%nat ->
    List.Forall (carries (passHeaders environment)) ev1 ->
    (rejectForwardWasSuccessful <-
       (if (0 <? length (Worker.validPrimary (validated treatment)))%nat
        then (rejectHeaders <-
                Worker.newHeaders HeadersTypeError (JS.trim (CUSTOM_HEADER environment))
                  (JS.trim (CUSTOM_HEADER_FAIL environment)) ;;
              DEFAULTS.forwardToCompoundDestination message RejectForwarding
                (Worker.validPrimary (validated treatment)) rejectHeaders configuration)
        else ret false) ;;
     if negb rejectForwardWasSuccessful then setReject reason else ret tt)%async
      (h ++ ev1)
    = (Throw (RecoverableForwardError errors), h') ->
    exists before events,
      h' = h ++ before ++ events
      /\ Permutation errors (thrownErrors events)
      /\ errors <> []
      /\ setRejectCount (before ++ events) = 0%nat
      /\ delivered before = false
      /\ List.Forall (carries (passHeaders environment)) before
      /\ ((before = [] /\ List.Forall (carries (passHeaders environment)) events)
          \/ List.Forall (carries (failHeaders environment)) events)).
  { intros ev1 Hdel1 Hcount1 Hcar1. unfold bind at 1.
    destruct (0 <? length (Worker.validPrimary (validated treatment)))%nat;
      [|cbn [ret negb]; discriminate].
    rewrite newHeaders_bind.
    destruct (HeadersTypeError _ _) as [m|]; [discriminate|]. cbn beta.
    destruct (DEFAULTS.forwardToCompoundDestination _ _ _ _ _ _)
      as [[rejected | e] h2] eqn:Hrun2.
    - destruct rejected; cbn [negb ret]; discriminate.
    - intros Hthrow. injection Hthrow as -> ->.
      apply forwardToCompoundDestination_throw_inv in Hrun2
        as (ev2 & -> & [= ->] & Hne & Hcar2 & Hcount2).
      exists ev1, ev2. rewrite <- app_assoc, setRejectCount_app, Hcount1, Hcount2.
      split; [reflexivity|]. split; [reflexivity|]. split; [exact Hne|].
      split; [reflexivity|]. split; [exact Hdel1|]. split; [exact Hcar1|].
      right. exact Hcar2. }
  unfold bind at 1.
  destruct (Worker.messageUserIsAllowed _ _ _ _ && Worker.messageSubaddressIsAllowed _ _ _ _).
  - rewrite newHeaders_bind.
    destruct (HeadersTypeError _ _) as [m|]; [discriminate|]. cbn beta.
    destruct (DEFAULTS.forwardToCompoundDestination _ _ _ _ _ _)
      as [[accepted | e] h1] eqn:Hrun1.
    + apply forwardToCompoundDestination_normal_inv in Hrun1
        as (ev1 & -> & -> & Hcar1 & Hcount1).
      destruct (delivered ev1) eqn:Hdel1; cbn [negb]; [discriminate|].
      now apply Hreject.
    + intros Hthrow. injection Hthrow as -> ->.
      apply forwardToCompoundDestination_throw_inv in Hrun1
        as (ev1 & -> & [= ->] & Hne & Hcar1 & Hcount1).
      exists [], ev1. cbn [app].
      split; [reflexivity|]. split; [reflexivity|]. split; [exact Hne|].
      split; [exact Hcount1|]. split; [reflexivity|]. split; [constructor|].
      left. split; [reflexivity | exact Hcar1].
  - cbn [ret negb]. intros Hthrow.
    apply (Hreject []); [reflexivity | reflexivity | constructor |].
    now rewrite app_nil_r.
Qed.

(** The accept forward fails with an error that is not recoverable, and the
    reject forward with one that is. *)
Lemma email_recoverable_error_of_one_forward_witness :
  let environment :=
    {| USE_STORED_ADDRESS_CONFIGURATION := "false";
       USE_STORED_USER_CONFIGURATION := "false";
       DESTINATION := "user1@email.com";
       REJECT_TREATMENT := "postmaster@email.com";
       SUBADDRESSES := "*";
       USERS := "user1";
       CLOUDFLARE_RECOVERABLE_FORWARDING_ERROR_REGEXP := "@";
       FORMAT_PRIMARY_ADDRESS_SEPARATOR := ",";
       FORMAT_BACKUP_ADDRESS_SEPARATOR := ":";
       FORMAT_LOCAL_PART_SEPARATOR := "+";
       FORMAT_REJECT_SEPARATOR := ";";
       FORMAT_VALID_CUSTOM_HEADER_REGEXP := "X-.*";
       FORMAT_VALID_EMAIL_ADDRESS_REGEXP := "@";
       CUSTOM_HEADER := "X-My-Email-Forwarding";
       CUSTOM_HEADER_FAIL := "fail";
       CUSTOM_HEADER_PASS := "pass";
       MAP := ∅ |} in
  let message :=
    {| to := "user1@domain.com";
       transport := fun _ address _ =>
         if String.eqb address "user1@email.com"
         then Rejected (Error "mailbox unavailable")
         else Rejected (Error "retry postmaster@email.com later") |} in
  let h' :=
    [EvForward "user1@email.com" ("X-My-Email-Forwarding", "pass")
       (Rejected (Error "mailbox unavailable"));
     EvForward "postmaster@email.com" ("X-My-Email-Forwarding", "fail")
       (Rejected (Error "retry postmaster@email.com later"))] in
  Worker.email sampleRegExp sampleHeaders message environment []
  = (Throw (RecoverableForwardError [Error "retry postmaster@email.com later"]), h')
  /\ exists before events,
       h' = [] ++ before ++ events
       /\ Permutation [Error "retry postmaster@email.com later"] (thrownErrors events)
       /\ delivered before = false.
Proof.
  intros environment message h'.
  assert (Hrun : Worker.email sampleRegExp sampleHeaders message environment []
                 = (Throw (RecoverableForwardError
                             [Error "retry postmaster@email.com later"]), h'))
    by (vm_compute; reflexivity).
  split; [exact Hrun|].
  destruct (email_recoverable_error_of_one_forward sampleRegExp sampleHeaders message
              environment [] h' _ Hrun)
    as (before & events & Hevents & Hperm & _ & _ & Hdel & _).
  exists before, events. auto.
Defined.

(** ** The store *)

Section StoreSwitchedOff.

Variable environment : Environment.
Variable store : gmap string string.

Hypothesis address_off : Worker.useStoredAddressConfiguration environment = false.
Hypothesis user_off : Worker.useStoredUserConfiguration environment = false.

Lemma globalDestination_withStore :
  Worker.globalDestination (withStore environment store)
  = Worker.globalDestination environment.
Proof.
  unfold Worker.globalDestination.
  change (Worker.useStoredAddressConfiguration (withStore environment store))
    with (Worker.useStoredAddressConfiguration environment).
  now rewrite address_off.
Qed.

Lemma globalRejectTreatment_withStore :
  Worker.globalRejectTreatment (withStore environment store)
  = Worker.globalRejectTreatment environment.
Proof.
  unfold Worker.globalRejectTreatment.
  change (Worker.useStoredAddressConfiguration (withStore environment store))
    with (Worker.useStoredAddressConfiguration environment).
  now rewrite address_off.
Qed.

Lemma globalSubaddresses_withStore :
  Worker.globalSubaddresses (withStore environment store)
  = Worker.globalSubaddresses environment.
Proof.
  unfold Worker.globalSubaddresses.
  change (Worker.useStoredAddressConfiguration (withStore environment store))
    with (Worker.useStoredAddressConfiguration environment).
  now rewrite address_off.
Qed.

Lemma globalUsers_withStore :
  Worker.globalUsers (withStore environment store) = Worker.globalUsers environment.
Proof.
  unfold Worker.globalUsers.
  change (Worker.useStoredAddressConfiguration (withStore environment store))
    with (Worker.useStoredAddressConfiguration environment).
  now rewrite address_off.
Qed.

Lemma userDestinationWithRejectTreatment_withStore (messageUser : string) :
  Worker.userDestinationWithRejectTreatment (withStore environment store) messageUser
  = Worker.userDestinationWithRejectTreatment environment messageUser.
Proof.
  unfold Worker.userDestinationWithRejectTreatment.
  change (Worker.useStoredUserConfiguration (withStore environment store))
    with (Worker.useStoredUserConfiguration environment).
  now rewrite user_off.
Qed.

Lemma userSubaddresses_withStore (messageUser : string) :
  Worker.userSubaddresses (withStore environment store) messageUser
  = Worker.userSubaddresses environment messageUser.
Proof.
  unfold Worker.userSubaddresses.
  change (Worker.useStoredUserConfiguration (withStore environment store))
    with (Worker.useStoredUserConfiguration environment).
  rewrite user_off, globalSubaddresses_withStore. reflexivity.
Qed.

End StoreSwitchedOff.

(** X17.  With stored address configuration and stored user configuration
    both switched off (neither flag reads [true] or [1] once trimmed and
    lower-cased), [email] does not depend on the store: whatever it holds,
    the invocation ends the same way after the same events. *)
Theorem email_ignores_store_when_switched_off
  (RegExp : string -> option (string -> bool))
  (HeadersTypeError : string -> string -> option string) (message : Message)
  (environment : Environment) (store : gmap string string) (h : list Event) :
  Worker.booleanFromString (USE_STORED_ADDRESS_CONFIGURATION environment) = false ->
  Worker.booleanFromString (USE_STORED_USER_CONFIGURATION environment) = false ->
  Worker.email RegExp HeadersTypeError message (withStore environment store) h
  = Worker.email RegExp HeadersTypeError message environment h.
Proof.
  intros Haddress Huser. unfold Worker.email.
  rewrite !(globalDestination_withStore environment store Haddress),
    !(globalRejectTreatment_withStore environment store Haddress),
    !(globalUsers_withStore environment store Haddress).
  cbn [withStore CLOUDFLARE_RECOVERABLE_FORWARDING_ERROR_REGEXP
       FORMAT_VALID_EMAIL_ADDRESS_REGEXP FORMAT_VALID_CUSTOM_HEADER_REGEXP
       CUSTOM_HEADER CUSTOM_HEADER_FAIL CUSTOM_HEADER_PASS
       FORMAT_LOCAL_PART_SEPARATOR FORMAT_PRIMARY_ADDRESS_SEPARATOR
       FORMAT_BACKUP_ADDRESS_SEPARATOR FORMAT_REJECT_SEPARATOR REJECT_TREATMENT].
  destruct (DEFAULTS.addressLocalParts (Worker.messageLocalPart message)
              (FORMAT_LOCAL_PART_SEPARATOR environment))
    as [user subaddress].
  rewrite !(userDestinationWithRejectTreatment_withStore environment store Huser),
    !(userSubaddresses_withStore environment store Haddress Huser).
  reflexivity.
Qed.

(** A store that holds a destination for the user, and is not read. *)
Lemma email_ignores_store_when_switched_off_witness :
  let environment :=
    withStoredConfiguration
      (configured "user1@email.com" "" "*" "user1" "false" ∅) " False " "0" in
  let store : gmap string string := {[ "user1" := "other@email.com" ]} in
  let message := {| to := "user1@domain.com"; transport := fun _ _ _ => Resolved |} in
  Worker.email sampleRegExp sampleHeaders message (withStore environment store) []
  = Worker.email sampleRegExp sampleHeaders message environment []
  /\ forwardAddresses
       (snd (Worker.email sampleRegExp sampleHeaders message (withStore environment store) []))
     = ["user1@email.com"].
Proof.
  intros environment store message.
  pose proof (email_ignores_store_when_switched_off sampleRegExp sampleHeaders message
                environment
                store [] eq_refl eq_refl) as Hsame.
  split; [exact Hsame|]. rewrite Hsame. vm_compute. reflexivity.
Defined.

(** ** The parts of a local part *)

Lemma toLowerCase_idempotent (s : string) :
  JS.toLowerCase (JS.toLowerCase s) = JS.toLowerCase s.
Proof.
  induction s as [|c s IH]; [reflexivity|]. cbn [JS.toLowerCase].
  now rewrite toLowerChar_idempotent, IH.
Qed.

(** A string is in lower case when both halves are. *)
Lemma toLowerCase_fixed_append (a b : string) :
  JS.toLowerCase (a +:+ b) = a +:+ b
  <-> JS.toLowerCase a = a /\ JS.toLowerCase b = b.
Proof.
  induction a as [|c a IH].
  - rewrite append_empty_l. split; [auto | now intros [_ ?]].
  - rewrite append_cons. cbn [JS.toLowerCase]. split.
    + intros [= Hc Hrest]. apply IH in Hrest as [Ha Hb]. now rewrite Hc, Ha.
    + intros [[= Hc Ha] Hb]. rewrite Hc. f_equal. apply IH. auto.
Qed.

(** The two cases of [addressLocalParts]. *)
Lemma addressLocalParts_cases (localPart sep : string) :
  let lower := JS.toLowerCase localPart in
  (absent sep lower /\ DEFAULTS.addressLocalParts localPart sep = (lower, EmptyString))
  \/ (exists user subaddress,
        lower = user +:+ sep +:+ subaddress
        /\ DEFAULTS.addressLocalParts localPart sep = (user, subaddress)
        /\ forall pre post, lower = pre +:+ sep +:+ post ->
                            (String.length user <= String.length pre)%nat).
Proof.
  intros lower. unfold DEFAULTS.addressLocalParts. fold lower. unfold JS.indexOf.
  destruct (indexOfFrom_spec sep lower 0) as [[Hm Habs] | (u & sub & Hs & Hi & Hmin)].
  - left. rewrite Hm. split; [exact Habs | reflexivity].
  - right. exists u, sub. split; [exact Hs|]. split; [|exact Hmin].
    rewrite Hi. destruct (Z.leb_spec 0 (0 + Z.of_nat (String.length u))); [|lia].
    rewrite Z.add_0_l. f_equal.
    + rewrite Hs. apply slice_head.
    + rewrite Hs at 1. rewrite <- append_assoc, <- Nat2Z.inj_add, <- length_append.
      apply slice_tail.
Qed.

(** A string in lower case without the separator is its own user part. *)
Lemma addressLocalParts_fixed (user sep : string) :
  JS.toLowerCase user = user -> absent sep user ->
  DEFAULTS.addressLocalParts user sep = (user, EmptyString).
Proof.
  intros Hlower Habsent.
  destruct (addressLocalParts_cases user sep) as [[_ Hparts] | (u & sub & Hs & _)].
  - now rewrite Hparts, Hlower.
  - rewrite Hlower in Hs. destruct (Habsent _ _ Hs).
Qed.

(** X18.  The parts [addressLocalParts] returns are in lower case, and with
    a separator that is not empty the user part holds no separator: splitting
    the user part again gives it back with an empty subaddress. *)
Theorem addressLocalParts_normal_form (localPart sep : string) :
  sep <> EmptyString ->
  let user := fst (DEFAULTS.addressLocalParts localPart sep) in
  let subaddress := snd (DEFAULTS.addressLocalParts localPart sep) in
  JS.toLowerCase user = user
  /\ JS.toLowerCase subaddress = subaddress
  /\ absent sep user
  /\ DEFAULTS.addressLocalParts user sep = (user, EmptyString).
Proof.
  intros Hsep user subaddress. subst user subaddress.
  pose proof (toLowerCase_idempotent localPart) as Hlower.
  destruct (addressLocalParts_cases localPart sep)
    as [[Habsent Hparts] | (u & sub & Hs & Hparts & Hmin)];
    rewrite Hparts; cbn [fst snd].
  - split; [exact Hlower|]. split; [reflexivity|]. split; [exact Habsent|].
    now apply addressLocalParts_fixed.
  - rewrite Hs in Hlower.
    apply toLowerCase_fixed_append in Hlower as [Hu Hrest].
    apply toLowerCase_fixed_append in Hrest as [_ Hsub].
    assert (Habsent : absent sep u).
    { intros pre post Hu'.
      assert (Hlength : (String.length u <= String.length pre)%nat).
      { apply (Hmin pre (post +:+ sep +:+ sub)).
        rewrite Hs, Hu', !append_assoc. reflexivity. }
      rewrite Hu', !length_append in Hlength.
      destruct sep; [contradiction | simpl in Hlength; lia]. }
    split; [exact Hu|]. split; [exact Hsub|]. split; [exact Habsent|].
    now apply addressLocalParts_fixed.
Qed.

Lemma addressLocalParts_normal_form_witness :
  DEFAULTS.addressLocalParts "User1+SubA+subB" "+" = ("user1", "suba+subb")
  /\ DEFAULTS.addressLocalParts "user1" "+" = ("user1", "").
Proof.
  assert (Hseparator : "+" <> "") by discriminate.
  destruct (addressLocalParts_normal_form "User1+SubA+subB" "+" Hseparator)
    as (_ & _ & _ & Hfixed).
  split; [reflexivity | exact Hfixed].
Defined.

(** ** The image of a compound destination, validated again *)

(** Addresses that are new are all first occurrences. *)
Lemma firstOccurrences_fresh (l seen : list string) :
  NoDup l -> (forall x, In x l -> ~ In x seen) ->
  firstOccurrences seen l = l /\ laterOccurrences seen l = [].
Proof.
  revert seen. induction l as [|x l IH]; intros seen Hnodup Hfresh; [auto|].
  inversion Hnodup as [|? ? Hx Hl]; subst.
  cbn [firstOccurrences laterOccurrences].
  destruct (in_dec string_dec x seen) as [Hseen | _].
  - destruct (Hfresh x); [now left | exact Hseen].
  - destruct (IH (seen ++ [x]) Hl) as [Hfirst Hlater].
    + intros y Hy Hin. apply in_app_or in Hin as [Hin | [<- | []]].
      * apply (Hfresh y); [now right | exact Hin].
      * apply Hx, list_elem_of_In, Hy.
    + now rewrite Hfirst, Hlater.
Qed.

Lemma survivors_fresh (primaries : list (list string)) (seen : list string) :
  NoDup (List.concat primaries) ->
  (forall x, In x (List.concat primaries) -> ~ In x seen) ->
  survivors seen primaries = primaries.
Proof.
  revert seen. induction primaries as [|p primaries IH]; intros seen Hnodup Hfresh;
    [reflexivity|].
  cbn [List.concat] in Hnodup, Hfresh. cbn [survivors].
  apply NoDup_app in Hnodup as (Hp & Hdisjoint & Hrest).
  destruct (firstOccurrences_fresh p seen Hp) as [Hfirst _].
  { intros x Hx. apply Hfresh, in_or_app. now left. }
  rewrite Hfirst. f_equal. apply IH; [exact Hrest|].
  intros x Hx Hin. apply in_app_or in Hin as [Hin | Hin].
  - apply (Hfresh x); [apply in_or_app; now right | exact Hin].
  - apply (Hdisjoint x); now apply list_elem_of_In.
Qed.

Lemma filter_nonEmpty (primaries : list (list string)) :
  List.Forall (fun primaryDestination => primaryDestination <> []) primaries ->
  List.filter nonEmpty primaries = primaries.
Proof.
  induction 1 as [|p primaries Hp _ IH]; [reflexivity|].
  cbn [List.filter]. destruct p; [contradiction|]. cbn. now rewrite IH.
Qed.

Lemma filter_all {A} (f : A -> bool) (l : list A) :
  List.Forall (fun x => f x = true) l -> List.filter f l = l.
Proof.
  induction 1 as [|x l Hx _ IH]; [reflexivity|].
  cbn [List.filter]. now rewrite Hx, IH.
Qed.

Lemma map_fixed {A} (f : A -> A) (l : list A) :
  List.Forall (fun x => f x = x) l -> List.map f l = l.
Proof.
  induction 1 as [|x l Hx _ IH]; [reflexivity|]. cbn [List.map]. now rewrite Hx, IH.
Qed.

Section Image.

Variables p b : ascii.
Variables FORMAT_LOCAL_PART_SEPARATOR messageUser : string.
Variable formatValidEmailAddressRegExp : string -> bool.

Local Abbreviation psep := (String p EmptyString).
Local Abbreviation bsep := (String b EmptyString).

Hypothesis separators_differ : p <> b.

(** What the round trip asks of an address. *)
Local Abbreviation plain :=
  (fun address : string =>
   formatValidEmailAddressRegExp address = true
   /\ JS.trim address = address
   /\ JS.startsWith address FORMAT_LOCAL_PART_SEPARATOR = false
   /\ JS.startsWith address "@" = false
   /\ hasChar p address = false
   /\ hasChar b address = false).

Lemma expandDestination_plain (address : string) :
  JS.trim address = address ->
  JS.startsWith address FORMAT_LOCAL_PART_SEPARATOR = false ->
  JS.startsWith address "@" = false ->
  Worker.expandDestination FORMAT_LOCAL_PART_SEPARATOR messageUser address = address.
Proof.
  intros Htrim Hlocal Hat. unfold Worker.expandDestination.
  cbn [FIXED.prepend FIXED.cond_test FIXED.cond_prepend].
  now rewrite Htrim, Hlocal, Hat.
Qed.

Lemma hasChar_join (primaryDestination : list string) :
  List.Forall (fun address => hasChar p address = false) primaryDestination ->
  hasChar p (JS.join bsep primaryDestination) = false.
Proof.
  induction 1 as [|address rest Haddress _ IH]; [reflexivity|].
  destruct rest as [|next rest]; [exact Haddress|].
  change (JS.join bsep (address :: next :: rest))
    with (address +:+ bsep +:+ JS.join bsep (next :: rest)).
  rewrite !hasChar_append, Haddress, IH. cbn [hasChar orb].
  destruct (Ascii.eqb_spec p b) as [Heq | _]; [contradiction | reflexivity].
Qed.

Lemma validatePrimaryDestination_join (primaryDestination : list string) :
  primaryDestination <> [] ->
  List.Forall plain primaryDestination ->
  Worker.pv_validBackup
    (Worker.validatePrimaryDestination bsep FORMAT_LOCAL_PART_SEPARATOR messageUser
       formatValidEmailAddressRegExp (JS.join bsep primaryDestination))
  = primaryDestination.
Proof.
  intros Hne Hplain.
  destruct (validatePrimaryDestination_filter bsep FORMAT_LOCAL_PART_SEPARATOR
              messageUser formatValidEmailAddressRegExp
              (JS.join bsep primaryDestination)) as [Hvalid _].
  rewrite Hvalid. unfold candidates.
  rewrite split_join; [|exact Hne|].
  2:{ eapply List.Forall_impl; [|exact Hplain]. cbn. tauto. }
  rewrite map_fixed.
  - apply filter_all. eapply List.Forall_impl; [|exact Hplain]. cbn. tauto.
  - eapply List.Forall_impl; [|exact Hplain]. cbn.
    intros address (_ & Htrim & Hlocal & Hat & _). now apply expandDestination_plain.
Qed.

Lemma validAddresses_image (compoundDestination : list (list string)) :
  compoundDestination <> [] ->
  List.Forall (fun primaryDestination => primaryDestination <> []) compoundDestination ->
  List.Forall plain (List.concat compoundDestination) ->
  validAddresses psep bsep FORMAT_LOCAL_PART_SEPARATOR messageUser
    formatValidEmailAddressRegExp
    (compoundDestinationImage psep bsep compoundDestination)
  = compoundDestination.
Proof.
  intros Hne Hprimaries Hplain. unfold validAddresses, compoundDestinationImage.
  assert (Heach : List.Forall
                    (fun primaryDestination =>
                       primaryDestination <> []
                       /\ List.Forall plain primaryDestination)
                    compoundDestination).
  { clear Hne. induction compoundDestination as [|pd rest IH]; [constructor|].
    cbn [List.concat] in Hplain. apply List.Forall_app in Hplain as [Hpd Hrest].
    inversion Hprimaries; subst. constructor; [auto|]. now apply IH. }
  rewrite split_join.
  - rewrite List.map_map. apply map_fixed.
    eapply List.Forall_impl; [|exact Heach]. cbn.
    intros pd [Hpd Haddresses]. now apply validatePrimaryDestination_join.
  - destruct compoundDestination; [contradiction | discriminate].
  - apply List.Forall_map. eapply List.Forall_impl; [|exact Heach]. cbn.
    intros pd [_ Haddresses]. apply hasChar_join.
    eapply List.Forall_impl; [|exact Haddresses]. cbn. tauto.
Qed.

End Image.

(** X19.  Validating the image of a compound destination gives the compound
    destination back, as [validPrimary], with nothing invalid and nothing
    duplicated.  This needs separators of one code unit each, different from
    each other, at least one primary destination and none that is empty, and
    addresses that occur once, are valid and trimmed, do not start with the
    local-part separator or an at sign, and hold neither address
    separator. *)
Theorem validateCompoundDestination_of_image (p b : ascii)
  (FORMAT_LOCAL_PART_SEPARATOR messageUser : string)
  (formatValidEmailAddressRegExp : string -> bool)
  (compoundDestination : list (list string)) :
  p <> b ->
  compoundDestination <> [] ->
  List.Forall (fun primaryDestination => primaryDestination <> []) compoundDestination ->
  List.Forall
    (fun address =>
       formatValidEmailAddressRegExp address = true
       /\ JS.trim address = address
       /\ JS.startsWith address FORMAT_LOCAL_PART_SEPARATOR = false
       /\ JS.startsWith address "@" = false
       /\ hasChar p address = false
       /\ hasChar b address = false)
    (List.concat compoundDestination) ->
  NoDup (List.concat compoundDestination) ->
  Worker.validateCompoundDestination (String p EmptyString) (String b EmptyString)
    FORMAT_LOCAL_PART_SEPARATOR messageUser formatValidEmailAddressRegExp
    (compoundDestinationImage (String p EmptyString) (String b EmptyString)
       compoundDestination)
  = {| Worker.validPrimary := compoundDestination;
       Worker.validBackup := List.concat compoundDestination;
       Worker.invalidBackup := [];
       Worker.duplicateBackup := [] |}.
Proof.
  intros Hdiffer Hne Hprimaries Hplain Hnodup.
  rewrite validateCompoundDestination_spec.
  rewrite (validAddresses_image p b _ _ _ Hdiffer _ Hne Hprimaries Hplain).
  rewrite (survivors_fresh _ [] Hnodup) by (intros ? _ []).
  destruct (firstOccurrences_fresh (List.concat compoundDestination) [] Hnodup)
    as [Hfirst Hlater]; [intros ? _ []|].
  now rewrite Hfirst, Hlater, (filter_nonEmpty _ Hprimaries).
Qed.

Lemma validateCompoundDestination_of_image_witness :
  let compoundDestination :=
    [["user1@email.com"; "backup@email.com"]; ["other@email.com"]] in
  compoundDestinationImage "," ":" compoundDestination
  = "user1@email.com:backup@email.com,other@email.com"
  /\ Worker.validPrimary
       (Worker.validateCompoundDestination "," ":" "+" "user1"
          (fun address => JS.includes address "@")
          "user1@email.com:backup@email.com,other@email.com")
     = compoundDestination.
Proof.
  intros compoundDestination. split; [reflexivity|].
  change "user1@email.com:backup@email.com,other@email.com"
    with (compoundDestinationImage "," ":" compoundDestination).
  rewrite (validateCompoundDestination_of_image "," ":" "+" "user1"
             (fun address => JS.includes address "@") compoundDestination).
  - reflexivity.
  - discriminate.
  - discriminate.
  - repeat constructor; discriminate.
  - cbn. repeat constructor.
  - cbn.
    repeat (apply NoDup_cons_2;
            [rewrite ?elem_of_cons, elem_of_nil; intuition discriminate|]).
    apply NoDup_nil_2.
Defined.

(** ** Headers the constructor refuses *)

(** X20.  When the [Headers] constructor refuses the custom header with its
    pass value, every message to an allowed recipient ends in that
    [TypeError], before any forward: the message is neither forwarded nor
    rejected.  (The patterns compile, the header name passes the header
    pattern and the reject separator is not empty, so that the set-up does
    not throw first.) *)
Theorem email_pass_headers_refused (RegExp : string -> option (string -> bool))
  (HeadersTypeError : string -> string -> option string)
  (message : Message) (environment : Environment) (h : list Event)
  (recoverable validAddress validHeader : string -> bool) (m : string) :
  RegExp (CLOUDFLARE_RECOVERABLE_FORWARDING_ERROR_REGEXP environment) = Some recoverable ->
  RegExp (FORMAT_VALID_EMAIL_ADDRESS_REGEXP environment) = Some validAddress ->
  RegExp (FORMAT_VALID_CUSTOM_HEADER_REGEXP environment) = Some validHeader ->
  validHeader (JS.trim (CUSTOM_HEADER environment)) = true ->
  FORMAT_REJECT_SEPARATOR environment <> EmptyString ->
  acceptIsAllowed message environment = true ->
  HeadersTypeError (JS.trim (CUSTOM_HEADER environment))
    (JS.trim (CUSTOM_HEADER_PASS environment)) = Some m ->
  Worker.email RegExp HeadersTypeError message environment h = (Throw (TypeError m), h).
Proof.
  intros H1 H2 H3 Hheader Hseparator Hallowed Hrefused.
  unfold acceptIsAllowed, messageUserOf, messageSubaddressOf in Hallowed.
  unfold Worker.email, Worker.newRegExp, Worker.validateCustomHeader.
  unfold bind at 1. rewrite H1. cbn [ret].
  unfold bind at 1. rewrite H2. cbn [ret].
  unfold bind at 1. rewrite H3. cbn [ret].
  unfold bind at 1. rewrite Hheader. cbn [ret].
  destruct (DEFAULTS.addressLocalParts (Worker.messageLocalPart message)
              (FORMAT_LOCAL_PART_SEPARATOR environment))
    as [user subaddress].
  cbn [fst snd] in Hallowed.
  unfold bind at 1, Worker.liftCompletion.
  destruct (Worker.userDestination _ _ _) as [destination | e] eqn:Hdestination.
  2:{ now destruct (userDestination_throw_inv _ _ _ _ Hdestination) as (_ & ? & _). }
  unfold bind at 1. rewrite Hallowed, newHeaders_bind, Hrefused. reflexivity.
Qed.

(** A pass value with a line feed in it. *)
Lemma email_pass_headers_refused_witness :
  let environment :=
    {| USE_STORED_ADDRESS_CONFIGURATION := "false";
       USE_STORED_USER_CONFIGURATION := "false";
       DESTINATION := "user1@email.com";
       REJECT_TREATMENT := DEFAULTS.REJECT_TREATMENT;
       SUBADDRESSES := "*";
       USERS := "user1";
       CLOUDFLARE_RECOVERABLE_FORWARDING_ERROR_REGEXP := ".*";
       FORMAT_PRIMARY_ADDRESS_SEPARATOR := ",";
       FORMAT_BACKUP_ADDRESS_SEPARATOR := ":";
       FORMAT_LOCAL_PART_SEPARATOR := "+";
       FORMAT_REJECT_SEPARATOR := ";";
       FORMAT_VALID_CUSTOM_HEADER_REGEXP := "X-.*";
       FORMAT_VALID_EMAIL_ADDRESS_REGEXP := "@";
       CUSTOM_HEADER := "X-My-Email-Forwarding";
       CUSTOM_HEADER_FAIL := "fail";
       CUSTOM_HEADER_PASS := "pass" +:+ String (ascii_of_nat 10) "ed";
       MAP := ∅ |} in
  let message := {| to := "user1@domain.com"; transport := fun _ _ _ => Resolved |} in
  Worker.email sampleRegExp sampleHeaders message environment []
  = (Throw (TypeError "Invalid header value."), []).
Proof.
  intros environment message.
  eapply (email_pass_headers_refused sampleRegExp sampleHeaders message environment []);
    try reflexivity.
  discriminate.
Defined.

(** X21.  When the [Headers] constructor refuses the custom header with its
    fail value, no reject forward is made: every forward of the invocation
    carries the pass header.  The message is rejected directly only when
    nothing was delivered and the reject treatment holds no valid address;
    otherwise the invocation returns only after a delivery, and else
    throws. *)
Theorem email_fail_headers_refused (RegExp : string -> option (string -> bool))
  (HeadersTypeError : string -> string -> option string)
  (message : Message) (environment : Environment) (h : list Event) (m : string) :
  HeadersTypeError (JS.trim (CUSTOM_HEADER environment))
    (JS.trim (CUSTOM_HEADER_FAIL environment)) = Some m ->
  exists (completion : Completion unit) (ev1 ev3 : list Event),
    Worker.email RegExp HeadersTypeError message environment h
    = (completion, h ++ ev1 ++ ev3)
    /\ List.Forall (carries (passHeaders environment)) ev1
    /\ ((ev3 = [] /\ (completion = Normal tt -> delivered ev1 = true))
        \/ (ev3 = [EvSetReject (fullRejectReasonOf message environment)]
            /\ completion = Normal tt
            /\ delivered ev1 = false
            /\ forall validAddress,
                 RegExp (FORMAT_VALID_EMAIL_ADDRESS_REGEXP environment)
                 = Some validAddress ->
                 rejectDestinationOf validAddress message environment = [])).
Proof.
  intros Hrefused.
  assert (Hnone : forall e : Exception,
            exists (completion : Completion unit) (ev1 ev3 : list Event),
              (Throw e : Completion unit, h) = (completion, h ++ ev1 ++ ev3)
              /\ List.Forall (carries (passHeaders environment)) ev1
              /\ ((ev3 = [] /\ (completion = Normal tt -> delivered ev1 = true))
                  \/ (ev3 = [EvSetReject (fullRejectReasonOf message environment)]
                      /\ completion = Normal tt
                      /\ delivered ev1 = false
                      /\ forall validAddress,
                           RegExp (FORMAT_VALID_EMAIL_ADDRESS_REGEXP environment)
                           = Some validAddress ->
                           rejectDestinationOf validAddress message environment = []))).
  { intros e. exists (Throw e), [], []. rewrite !app_nil_r.
    split; [reflexivity|]. split; [constructor|]. left. split; [reflexivity|].
    discriminate. }
  unfold fullRejectReasonOf, rejectDestinationOf, messageUserOf in *.
  unfold Worker.email, Worker.newRegExp, Worker.validateCustomHeader.
  unfold bind at 1.
  destruct (RegExp (CLOUDFLARE_RECOVERABLE_FORWARDING_ERROR_REGEXP environment))
    as [recoverable|]; cbn [ret throw]; [|apply Hnone].
  unfold bind at 1.
  destruct (RegExp (FORMAT_VALID_EMAIL_ADDRESS_REGEXP environment))
    as [validAddress|]; cbn [ret throw]; [|apply Hnone].
  unfold bind at 1.
  destruct (RegExp (FORMAT_VALID_CUSTOM_HEADER_REGEXP environment))
    as [validHeader|]; cbn [ret throw]; [|apply Hnone].
  unfold bind at 1.
  destruct (validHeader (JS.trim (CUSTOM_HEADER environment))); cbn [ret throw];
    [|apply Hnone].
  destruct (DEFAULTS.addressLocalParts (Worker.messageLocalPart message)
              (FORMAT_LOCAL_PART_SEPARATOR environment))
    as [user subaddress].
  cbn [fst snd] in *.
  unfold bind at 1, Worker.liftCompletion.
  destruct (Worker.userDestination _ _ _) as [destination | e]; [|apply Hnone].
  set (configuration :=
         {| recoverableForwardImplementationErrorRegExp := recoverable |}).
  set (validated :=
         Worker.validateCompoundDestination (FORMAT_PRIMARY_ADDRESS_SEPARATOR environment)
           (FORMAT_BACKUP_ADDRESS_SEPARATOR environment)
           (FORMAT_LOCAL_PART_SEPARATOR environment) user).
  set (treatment :=
         Worker.userRejectTreatment (FORMAT_REJECT_SEPARATOR environment)
           (Worker.userDestinationWithRejectTreatment environment user)
           (Worker.globalRejectTreatment environment)).
  set (reason := Worker.fullRejectReason _ _).
  (* the reject stage, after the events [ev1] without a delivery *)
  assert (Hreject : forall ev1,
    delivered ev1 = false ->
    List.Forall (carries (passHeaders environment)) ev1 ->
    exists (completion : Completion unit) (ev3 : list Event),
      (rejectForwardWasSuccessful <-
         (if (0 <? length (Worker.validPrimary (validated validAddress treatment)))%nat
          then (rejectHeaders <-
                  Worker.newHeaders HeadersTypeError (JS.trim (CUSTOM_HEADER environment))
                    (JS.trim (CUSTOM_HEADER_FAIL environment)) ;;
                DEFAULTS.forwardToCompoundDestination message RejectForwarding
                  (Worker.validPrimary (validated validAddress treatment))
                  rejectHeaders configuration)
          else ret false) ;;
       if negb rejectForwardWasSuccessful then setReject reason else ret tt)%async
        (h ++ ev1)
      = (completion, h ++ ev1 ++ ev3)
      /\ ((ev3 = [] /\ (completion = Normal tt -> delivered ev1 = true))
          \/ (ev3 = [EvSetReject reason]
              /\ completion = Normal tt
              /\ delivered ev1 = false
              /\ forall validAddress',
                   Some validAddress = Some validAddress' ->
                   Worker.validPrimary (validated validAddress' treatment) = []))).
  { intros ev1 Hdel1 Hcar1. unfold bind at 1.
    destruct (Worker.validPrimary (validated validAddress treatment))
      as [|primary rest] eqn:Hvalid; cbn [length Nat.ltb Nat.leb].
    - cbn [ret negb]. unfold setReject.
      exists (Normal tt), [EvSetReject reason]. rewrite <- app_assoc.
      split; [reflexivity|]. right. split; [reflexivity|]. split; [reflexivity|].
      split; [exact Hdel1|]. now intros ? [= <-].
    - rewrite newHeaders_bind, Hrefused.
      exists (Throw (TypeError m)), []. rewrite !app_nil_r.
      split; [reflexivity|]. left. split; [reflexivity | discriminate]. }
  unfold bind at 1.
  destruct (Worker.messageUserIsAllowed _ _ _ _ && Worker.messageSubaddressIsAllowed _ _ _ _).
  - rewrite newHeaders_bind.
    destruct (HeadersTypeError (JS.trim (CUSTOM_HEADER environment))
                (JS.trim (CUSTOM_HEADER_PASS environment))) as [m1|];
      [apply Hnone|]. cbn beta.
    destruct (DEFAULTS.forwardToCompoundDestination _ _ _ _ _ _)
      as [[accepted | e] h1] eqn:Hrun1.
    + apply forwardToCompoundDestination_normal_inv in Hrun1
        as (ev1 & -> & -> & Hcar1 & Hcount1).
      destruct (delivered ev1) eqn:Hdel1; cbn [negb].
      * exists (Normal tt), ev1, []. rewrite !app_nil_r.
        split; [reflexivity|]. split; [exact Hcar1|]. left. auto.
      * destruct (Hreject ev1 Hdel1 Hcar1) as (completion & ev3 & Hrun & Hcases).
        exists completion, ev1, ev3. split; [exact Hrun|]. split; [exact Hcar1|].
        exact Hcases.
    + apply forwardToCompoundDestination_throw_inv in Hrun1
        as (ev1 & -> & _ & _ & Hcar1 & _).
      exists (Throw e), ev1, []. rewrite !app_nil_r.
      split; [reflexivity|]. split; [exact Hcar1|]. left.
      split; [reflexivity | discriminate].
  - cbn [ret negb].
    destruct (Hreject [] eq_refl (List.Forall_nil _)) as (completion & ev3 & Hrun & Hcases).
    exists completion, [], ev3. rewrite app_nil_r in Hrun. cbn [app] in *.
    split; [exact Hrun|]. split; [constructor|]. exact Hcases.
Qed.

(** The accept forward fails with an error that is not recoverable, the
    reject treatment is an address, and the fail value holds a line feed. *)
Lemma email_fail_headers_refused_witness :
  let environment :=
    {| USE_STORED_ADDRESS_CONFIGURATION := "false";
       USE_STORED_USER_CONFIGURATION := "false";
       DESTINATION := "user1@email.com";
       REJECT_TREATMENT := "postmaster@email.com";
       SUBADDRESSES := "*";
       USERS := "user1";
       CLOUDFLARE_RECOVERABLE_FORWARDING_ERROR_REGEXP := "@";
       FORMAT_PRIMARY_ADDRESS_SEPARATOR := ",";
       FORMAT_BACKUP_ADDRESS_SEPARATOR := ":";
       FORMAT_LOCAL_PART_SEPARATOR := "+";
       FORMAT_REJECT_SEPARATOR := ";";
       FORMAT_VALID_CUSTOM_HEADER_REGEXP := "X-.*";
       FORMAT_VALID_EMAIL_ADDRESS_REGEXP := "@";
       CUSTOM_HEADER := "X-My-Email-Forwarding";
       CUSTOM_HEADER_FAIL := "fail" +:+ String (ascii_of_nat 10) "ed";
       CUSTOM_HEADER_PASS := "pass";
       MAP := ∅ |} in
  let message :=
    {| to := "user1@domain.com";
       transport := fun _ _ _ => Rejected (Error "mailbox unavailable") |} in
  Worker.email sampleRegExp sampleHeaders message environment []
  = (Throw (TypeError "Invalid header value."),
     [EvForward "user1@email.com" ("X-My-Email-Forwarding", "pass")
        (Rejected (Error "mailbox unavailable"))])
  /\ exists (completion : Completion unit) (ev1 ev3 : list Event),
       Worker.email sampleRegExp sampleHeaders message environment []
       = (completion, [] ++ ev1 ++ ev3)
       /\ List.Forall (carries (passHeaders environment)) ev1.
Proof.
  intros environment message. split; [vm_compute; reflexivity|].
  destruct (email_fail_headers_refused sampleRegExp sampleHeaders message environment []
              "Invalid header value." eq_refl)
    as (completion & ev1 & ev3 & Hrun & Hcar & _).
  exists completion, ev1, ev3. auto.
Defined.

(** ** Rejections with [null] or [undefined] *)

Lemma attemptedAddresses_app (a b : list AnyRejection.Event) :
  attemptedAddresses (a ++ b) = attemptedAddresses a ++ attemptedAddresses b.
Proof. unfold attemptedAddresses. now rewrite !flat_map_concat_map, map_app, concat_app. Qed.

Lemma rejectionValues_app (a b : list AnyRejection.Event) :
  rejectionValues (a ++ b) = rejectionValues a ++ rejectionValues b.
Proof. unfold rejectionValues. now rewrite !flat_map_concat_map, map_app, concat_app. Qed.

Section AnyRejectionLoop.

Variable message : AnyRejection.Message.
Variable primaryDestinationId : nat.
Variable customHeaders : Headers.
Variable configuration : Configuration.


End AnyRejectionLoop.



(** ** The two embeddings of [forwardToPrimaryDestination] agree *)


Section Agreement.

Variable message : Message.
Variable primaryDestinationId : nat.
Variable customHeaders : Headers.
Variable configuration : Configuration.


End Agreement.

